(** * Document-processing service: job lifecycle, queue hand-off and notification

    A shallow embedding of the NestJS processing service:

    - [ProcessingService] (processing.service.ts): the in-memory job table,
      [triggerIngestion], [processDocument], [simulateProcessingPhases],
      [cancelIngestion] and [notifyMainAPI];
    - [QueueService.addJob] (queue/queue.service.ts) and the Bull handler
      [DocumentProcessor.handleDocumentProcessing] (queue/document.processor.ts);
    - [DocumentProcessorService] (processing/services/document-processor.service.ts)
      with its stages, and the consumer [QueueConsumerService.processDocument].

    Asynchronous functions are run to completion one after the other: the
    world is threaded through a state-and-exception monad, a JavaScript
    [throw] keeps every mutation made before it, and job objects live in a
    heap so that the table [jobs] holds references, as the [Map] does.

    The two calls into Bull that the service awaits, [documentQueue.add]
    and [job.progress], are rejected when the queue's Redis fails.  The
    methods that make them are given for a Redis that answers every call
    and, in [OnRedis], for one that may not. *)

From Stdlib Require Import ZArith String Ascii Lia.
From stdpp Require Import base option list gmap strings pretty sorting.

Local Open Scope string_scope.
Local Open Scope list_scope.

(** ** JavaScript strings

    A string is a sequence of code units; [Ascii.ascii] stands for the code
    units 0..255 (Basic Latin and Latin-1 Supplement).  On that range
    [toLowerCase], the class [\s] and [length] are exactly the functions
    below. *)
Module Js.

Definition code (c : ascii) : N := N_of_ascii c.

(** [String.prototype.toLowerCase] on one code unit: A-Z, and the Latin-1
    capitals U+00C0..U+00DE except the multiplication sign U+00D7. *)
Definition lower_unit (c : ascii) : ascii :=
  let n := code c in
  if ((65 <=? n) && (n <=? 90))%N then ascii_of_N (n + 32)
  else if ((192 <=? n) && (n <=? 222) && negb (n =? 215))%N then ascii_of_N (n + 32)
  else c.

Fixpoint toLowerCase (s : string) : string :=
  match s with
  | EmptyString => EmptyString
  | String c s' => String (lower_unit c) (toLowerCase s')
  end.

(** The regular-expression class [\s] restricted to code units below 256:
    TAB, LF, VT, FF, CR, SPACE and NO-BREAK SPACE. *)
Definition is_ws (c : ascii) : bool :=
  let n := code c in
  ((9 <=? n) && (n <=? 13) || (n =? 32) || (n =? 160))%N.

(** [s.split(/\s+/)]: [cur] is the token being read, [after_ws] tells that
    the previous code unit belonged to a separator.  A leading or trailing
    separator yields an empty first or last token, and the empty string
    splits into one empty token, as in JavaScript. *)
Fixpoint split_go (s : string) (cur : string) (after_ws : bool) : list string :=
  match s with
  | EmptyString => [cur]
  | String c s' =>
      if is_ws c then
        if after_ws then split_go s' cur true
        else cur :: split_go s' EmptyString true
      else split_go s' (cur +:+ String c EmptyString) false
  end.

Definition split_ws (s : string) : list string := split_go s EmptyString false.

(** [new Set(iterable)] keeps the first occurrence of each value, in
    insertion order; [[...set]] reads it back in that order. *)
Definition set_add (seen : list string) (x : string) : list string :=
  if decide (x ∈ seen) then seen else seen ++ [x].

Definition new_Set (xs : list string) : list string := foldl set_add [] xs.

(** [arr.slice(0, n)] *)
Definition slice0 {A} (n : nat) (xs : list A) : list A := take n xs.

(** [s.includes(sub)] *)
Definition includes (s sub : string) : bool :=
  match String.index 0 sub s with Some _ => true | None => false end.

(** Truthiness of an optional string: [undefined] and [""] are falsy. *)
Definition truthy_str (o : option string) : bool :=
  match o with
  | None => false
  | Some s => negb (String.eqb s EmptyString)
  end.

(** [x || d] on an optional number: [undefined] and [0] are falsy. *)
Definition or_num (o : option Z) (d : Z) : Z :=
  match o with
  | None => d
  | Some n => if (n =? 0)%Z then d else n
  end.

End Js.


(** ** Data model *)

(** [IngestionJob.status]: the union type
    ['queued' | 'processing' | 'completed' | 'failed']. *)
Inductive JobStatus := queued | processing | completed | failed.

#[global] Instance JobStatus_eq_dec : EqDecision JobStatus.
Proof. solve_decision. Defined.

(** The string a status value is at run time. *)
Definition status_name (s : JobStatus) : string :=
  match s with
  | queued => "queued"
  | processing => "processing"
  | completed => "completed"
  | failed => "failed"
  end.

(** The statuses [cancelIngestion] refuses to touch. *)
Definition is_terminal (s : JobStatus) : bool :=
  match s with
  | completed | failed => true
  | queued | processing => false
  end.

(** dto/processing.dto.ts of the ingestion module *)
Inductive ProcessingType := TEXT_EXTRACTION | OCR | ANALYSIS | FULL_PROCESSING.

Inductive OcrAccuracy := fast | balanced | accurate.

Record OcrSettings := {
  ocr_language : option string;
  ocr_accuracy : option OcrAccuracy
}.

Record AnalysisSettings := {
  extractEntities : option bool;
  extractTopics : option bool;
  sentimentAnalysis : option bool
}.

Record IngestionConfigDto := {
  processingType : option ProcessingType;
  ocrSettings : option OcrSettings;
  analysisSettings : option AnalysisSettings;
  cfg_priority : option Z;
  cfg_metadata : option (list (string * string))
}.

(** The object literal stored in [job.result] on completion. *)
Record ResultMetadata := { pageCount : Z; wordCount : Z; res_language : string }.

Record ResultAnalysis := {
  sentiment : string;
  topics : list string;
  entities : list string
}.

Record IngestionResult := {
  res_extractedText : string;
  res_metadata : ResultMetadata;
  res_analysis : ResultAnalysis
}.

(** [interface IngestionJob]; dates are clock readings in milliseconds. *)
Record IngestionJob := {
  id : string;
  documentId : string;
  ingestionId : string;
  config : option IngestionConfigDto;
  status : JobStatus;
  progress : Z;
  startedAt : option Z;
  completedAt : option Z;
  error : option string;
  result : option IngestionResult
}.

(** Field assignments [job.f = v]. *)
Definition with_status (v : JobStatus) (j : IngestionJob) : IngestionJob :=
  {| id := id j; documentId := documentId j; ingestionId := ingestionId j;
     config := config j; status := v; progress := progress j;
     startedAt := startedAt j; completedAt := completedAt j;
     error := error j; result := result j |}.

Definition with_progress (v : Z) (j : IngestionJob) : IngestionJob :=
  {| id := id j; documentId := documentId j; ingestionId := ingestionId j;
     config := config j; status := status j; progress := v;
     startedAt := startedAt j; completedAt := completedAt j;
     error := error j; result := result j |}.

Definition with_startedAt (v : Z) (j : IngestionJob) : IngestionJob :=
  {| id := id j; documentId := documentId j; ingestionId := ingestionId j;
     config := config j; status := status j; progress := progress j;
     startedAt := Some v; completedAt := completedAt j;
     error := error j; result := result j |}.

Definition with_completedAt (v : Z) (j : IngestionJob) : IngestionJob :=
  {| id := id j; documentId := documentId j; ingestionId := ingestionId j;
     config := config j; status := status j; progress := progress j;
     startedAt := startedAt j; completedAt := Some v;
     error := error j; result := result j |}.

Definition with_error (v : string) (j : IngestionJob) : IngestionJob :=
  {| id := id j; documentId := documentId j; ingestionId := ingestionId j;
     config := config j; status := status j; progress := progress j;
     startedAt := startedAt j; completedAt := completedAt j;
     error := Some v; result := result j |}.

Definition with_result (v : IngestionResult) (j : IngestionJob) : IngestionJob :=
  {| id := id j; documentId := documentId j; ingestionId := ingestionId j;
     config := config j; status := status j; progress := progress j;
     startedAt := startedAt j; completedAt := completedAt j;
     error := error j; result := Some v |}.

(** The queue item payload [{ ingestionId, documentId, config }]. *)
Record JobData := {
  d_ingestionId : string;
  d_documentId : string;
  d_config : option IngestionConfigDto
}.

(** dto/processing.dto.ts of the processor module *)
Module Dto.

Inductive Priority := low | normal | high.

Record ProcessingConfig := {
  extractText : bool;
  performOCR : bool;
  extractKeywords : bool;
  generateSummary : bool;
  detectLanguage : bool;
  enableSearch : bool;
  priority : Priority
}.

Record DocumentProcessingJob := {
  documentId : string;
  userId : string;
  fileName : string;
  fileType : string;
  fileSize : Z;
  storagePath : string;
  config : ProcessingConfig
}.

Record ProcessingResult := {
  r_documentId : string;
  success : bool;
  extractedText : option string;
  ocrText : option string;
  keywords : option (list string);
  summary : option string;
  language : option string;
  processingTime : Z;
  errors : list string
}.

(** Field assignments [result.f = v]. *)
Definition with_success (v : bool) (r : ProcessingResult) : ProcessingResult :=
  {| r_documentId := r_documentId r; success := v; extractedText := extractedText r;
     ocrText := ocrText r; keywords := keywords r; summary := summary r;
     language := language r; processingTime := processingTime r; errors := errors r |}.

Definition with_extractedText (v : string) (r : ProcessingResult) : ProcessingResult :=
  {| r_documentId := r_documentId r; success := success r; extractedText := Some v;
     ocrText := ocrText r; keywords := keywords r; summary := summary r;
     language := language r; processingTime := processingTime r; errors := errors r |}.

Definition with_ocrText (v : string) (r : ProcessingResult) : ProcessingResult :=
  {| r_documentId := r_documentId r; success := success r; extractedText := extractedText r;
     ocrText := Some v; keywords := keywords r; summary := summary r;
     language := language r; processingTime := processingTime r; errors := errors r |}.

Definition with_keywords (v : list string) (r : ProcessingResult) : ProcessingResult :=
  {| r_documentId := r_documentId r; success := success r; extractedText := extractedText r;
     ocrText := ocrText r; keywords := Some v; summary := summary r;
     language := language r; processingTime := processingTime r; errors := errors r |}.

Definition with_summary (v : string) (r : ProcessingResult) : ProcessingResult :=
  {| r_documentId := r_documentId r; success := success r; extractedText := extractedText r;
     ocrText := ocrText r; keywords := keywords r; summary := Some v;
     language := language r; processingTime := processingTime r; errors := errors r |}.

Definition with_language (v : string) (r : ProcessingResult) : ProcessingResult :=
  {| r_documentId := r_documentId r; success := success r; extractedText := extractedText r;
     ocrText := ocrText r; keywords := keywords r; summary := summary r;
     language := Some v; processingTime := processingTime r; errors := errors r |}.

Definition with_processingTime (v : Z) (r : ProcessingResult) : ProcessingResult :=
  {| r_documentId := r_documentId r; success := success r; extractedText := extractedText r;
     ocrText := ocrText r; keywords := keywords r; summary := summary r;
     language := language r; processingTime := v; errors := errors r |}.

Definition with_errors (v : list string) (r : ProcessingResult) : ProcessingResult :=
  {| r_documentId := r_documentId r; success := success r; extractedText := extractedText r;
     ocrText := ocrText r; keywords := keywords r; summary := summary r;
     language := language r; processingTime := processingTime r; errors := v |}.

End Dto.

(** ** Bull jobs

    What the service reads of a Bull [Job]: its id, its data and the options
    it was added with.  [bj_attempts] and [bj_backoff] come from the queue's
    [defaultJobOptions]. *)
Record BullJob (D : Type) := {
  bj_id : nat;
  bj_name : string;
  bj_data : D;
  bj_priority : Z;
  bj_delay : Z;
  bj_attempts : nat;
  bj_backoff : Z;
  bj_attemptsMade : nat
}.
Arguments bj_id {D} _.
Arguments bj_name {D} _.
Arguments bj_data {D} _.
Arguments bj_priority {D} _.
Arguments bj_delay {D} _.
Arguments bj_attempts {D} _.
Arguments bj_backoff {D} _.
Arguments bj_attemptsMade {D} _.

(** ** Observable effects *)

Inductive LogLevel := LOG | ERROR | WARN.

(** Body of the webhook sent by [notifyMainAPI]. *)
Record StatusPayload := {
  n_ingestionId : string;
  n_status : string;
  n_progress : Z;
  n_timestamp : Z;
  n_result : option IngestionResult;
  n_error : option string
}.

Inductive Body :=
| StatusBody (p : StatusPayload)
| CallbackBody (docId : string) (r : Dto.ProcessingResult).

Inductive Event :=
| EvLog (level : LogLevel) (msg : string)
    (* a Logger call *)
| EvJobsSet (key : string) (snapshot : IngestionJob)
    (* this.jobs.set(key, job), with the fields of job at that moment *)
| EvPost (url token : string) (timeout : Z) (body : Body) (failure : option string)
    (* an HTTP POST and how it ended: None for a response, Some msg for a throw *)
| EvProgress (docId : string) (value : Z) (step : string)
    (* DocumentProcessorService.updateProgress *)
| EvBullProgress (jobId : nat) (value : Z).
    (* job.progress(value) on the Bull job *)

(** ** The world *)

(** Object references. *)
Abbreviation loc := nat (only parsing).

Record World := {
  jobs : gmap string loc;            (* ProcessingService.jobs: key to object reference *)
  heap : list IngestionJob;          (* the IngestionJob objects *)
  queue : list (BullJob JobData);    (* the 'document-processing' queue, oldest first *)
  nextJobId : nat;                   (* Bull's job id counter *)
  clock : Z;                         (* milliseconds *)
  posts : nat;                       (* HTTP requests made so far *)
  trace : list Event
}.

Definition set_jobs (f : gmap string loc → gmap string loc) (w : World) : World :=
  {| jobs := f (jobs w); heap := heap w; queue := queue w; nextJobId := nextJobId w;
     clock := clock w; posts := posts w; trace := trace w |}.

Definition set_heap (f : list IngestionJob → list IngestionJob) (w : World) : World :=
  {| jobs := jobs w; heap := f (heap w); queue := queue w; nextJobId := nextJobId w;
     clock := clock w; posts := posts w; trace := trace w |}.

(** [queue.add]: the job joins the queue and the id counter moves on. *)
Definition enqueue (b : BullJob JobData) (w : World) : World :=
  {| jobs := jobs w; heap := heap w; queue := queue w ++ [b]; nextJobId := S (nextJobId w);
     clock := clock w; posts := posts w; trace := trace w |}.

Definition set_clock (f : Z → Z) (w : World) : World :=
  {| jobs := jobs w; heap := heap w; queue := queue w; nextJobId := nextJobId w;
     clock := f (clock w); posts := posts w; trace := trace w |}.

Definition count_post (w : World) : World :=
  {| jobs := jobs w; heap := heap w; queue := queue w; nextJobId := nextJobId w;
     clock := clock w; posts := S (posts w); trace := trace w |}.

Definition emit (e : Event) (w : World) : World :=
  {| jobs := jobs w; heap := heap w; queue := queue w; nextJobId := nextJobId w;
     clock := clock w; posts := posts w; trace := trace w ++ [e] |}.

Definition empty_world : World :=
  {| jobs := ∅; heap := []; queue := []; nextJobId := 1; clock := 0; posts := 0; trace := [] |}.

(** The record the table holds for a key: follow the reference. *)
Definition lookup_job (w : World) (key : string) : option IngestionJob :=
  match jobs w !! key with
  | Some l => heap w !! l
  | None => None
  end.

(** ** The environment of one run

    Everything outside the repository that decides how a run goes.
    - [http_fails n]: the [n]-th HTTP request (counting from 0) is answered
      ([None]) or throws with a message (timeout, transport error).
    - [stage_fails name]: the stages and phases of the source are simulations
      that cannot fail by themselves; this component stands for the work of a
      real stage and says whether invoking the stage called [name] throws.
    - [env_config key]: the [ConfigService]. *)
Record Env := {
  http_fails : nat → option string;
  stage_fails : string → option string;
  env_config : string → option string
}.

(** ** The queue's Redis

    Bull keeps the queue in Redis, and the two calls into Bull that the
    service awaits are rejected when Redis does not answer.
    - [add_fails n]: [queue.add] of what would be job [n] is accepted
      ([None]) or rejects with a message.
    - [progress_fails n value]: [job.progress(value)] on job [n] resolves
      ([None]) or rejects with a message. *)
Record Redis := {
  add_fails : nat → option string;
  progress_fails : nat → Z → option string
}.

(** ** State and exceptions *)

Inductive Res (A : Type) :=
| Ok (a : A)
| Throw (msg : string).
Arguments Ok {A} _.
Arguments Throw {A} _.

(** A computation over a state [S] that returns or throws; the state after a
    throw is the state at the throw. *)
Definition ST (S A : Type) : Type := S → Res A * S.

Definition ret {S A} (a : A) : ST S A := fun s => (Ok a, s).

Definition throw {S A} (msg : string) : ST S A := fun s => (Throw msg, s).

Definition bind {S A B} (m : ST S A) (k : A → ST S B) : ST S B :=
  fun s =>
    match m s with
    | (Ok a, s') => k a s'
    | (Throw e, s') => (Throw e, s')
    end.

(** [try { body } catch (error) { handler(error.message) }] *)
Definition try_catch {S A} (body : ST S A) (handler : string → ST S A) : ST S A :=
  fun s =>
    match body s with
    | (Ok a, s') => (Ok a, s')
    | (Throw e, s') => handler e s'
    end.

Definition gets {S A} (f : S → A) : ST S A := fun s => (Ok (f s), s).

Definition modify {S} (f : S → S) : ST S unit := fun s => (Ok tt, f s).

(** [if (c) { m }] *)
Definition when {S} (c : bool) (m : ST S unit) : ST S unit :=
  if c then m else ret tt.

Declare Scope st_scope.
Delimit Scope st_scope with st.
Notation "x <- m ;; k" := (bind m (fun x => k))
  (at level 100, m at next level, right associativity) : st_scope.
Notation "m ;; k" := (bind m (fun _ => k))
  (at level 100, right associativity) : st_scope.
Local Open Scope st_scope.

(** [for (const x of xs) { body(x) }] *)
Fixpoint for_of {S A} (xs : list A) (body : A → ST S unit) : ST S unit :=
  match xs with
  | [] => ret tt
  | x :: xs' => body x ;; for_of xs' body
  end.

Definition M (A : Type) : Type := ST World A.

(** *** Primitives on the world *)

Definition log (msg : string) : M unit := modify (emit (EvLog LOG msg)).
Definition log_error (msg : string) : M unit := modify (emit (EvLog ERROR msg)).

(** [new Date()] / [Date.now()] *)
Definition now : M Z := gets clock.

(** [await new Promise(resolve => setTimeout(resolve, ms))] *)
Definition sleep (ms : Z) : M unit := modify (set_clock (fun t => (t + ms)%Z)).

(** [configService.get(key, default)] *)
Definition config_get (E : Env) (key default : string) : M string :=
  ret (match env_config E key with Some v => v | None => default end).

(** An HTTP POST: the request is counted and recorded with its outcome, and
    the call throws when the environment says so. *)
Definition http_post (E : Env) (url token : string) (timeout : Z) (body : Body) : M unit :=
  fun w =>
    let outcome := http_fails E (posts w) in
    let w' := emit (EvPost url token timeout body outcome) (count_post w) in
    match outcome with
    | None => (Ok tt, w')
    | Some e => (Throw e, w')
    end.

(** The work of the stage called [name]: where a real stage would throw. *)
Definition stage_work (E : Env) (name : string) : M unit :=
  match stage_fails E name with
  | Some e => throw e
  | None => ret tt
  end.

(** [{ ...literal }] bound to a variable: a new object in the heap. *)
Definition alloc (j : IngestionJob) : M loc :=
  fun w => (Ok (length (heap w)), set_heap (fun h => h ++ [j]) w).

(** [job.f = v] through a reference. *)
Definition assign (l : loc) (f : IngestionJob → IngestionJob) : M unit :=
  modify (set_heap (alter f l)).

(** [this.jobs.get(key)]: the reference together with the fields of the object
    at this moment, or [None] for [undefined]. *)
Definition jobs_get (key : string) : M (option (loc * IngestionJob)) :=
  gets (fun w =>
          match jobs w !! key with
          | Some l => match heap w !! l with Some j => Some (l, j) | None => None end
          | None => None
          end).

(** Reading the fields of an object through its reference; reading through
    a reference to nothing is JavaScript's TypeError. *)
Definition deref (l : loc) : M IngestionJob :=
  fun w =>
    match heap w !! l with
    | Some j => (Ok j, w)
    | None => (Throw "TypeError: Cannot read properties of undefined", w)
    end.

(** [this.jobs.set(key, job)] *)
Definition jobs_set (key : string) (l : loc) : M unit :=
  fun w =>
    let w' := set_jobs (insert key l) w in
    (Ok tt, match heap w !! l with
            | Some j => emit (EvJobsSet key j) w'
            | None => w'
            end).

(** [Array.from(this.jobs.values())]: the objects the table refers to, with
    their fields at this moment.  The source only counts them, and the list
    comes in the order of the keys, not of insertion. *)
Definition jobs_values : M (list IngestionJob) :=
  gets (fun w => omap (fun kl => heap w !! snd kl) (map_to_list (jobs w))).

(** [configService.get(key)], without a default: [undefined] when unset. *)
Definition config_lookup (E : Env) (key : string) : M (option string) :=
  ret (env_config E key).

Definition log_warn (msg : string) : M unit := modify (emit (EvLog WARN msg)).

(** ** queue/queue.module.ts and queue/queue.service.ts *)
Module QueueService.

(** [defaultJobOptions]: [attempts: 3], [backoff: { type: 'exponential',
    delay: 2000 }]. *)
Definition default_attempts : nat := 3.
Definition default_backoff_delay : Z := 2000.

(** The optional third argument of [addJob], spread over the computed
    options. *)
Record AddOptions := {
  o_priority : option Z;
  o_delay : option Z;
  o_attempts : option nat;
  o_backoff : option Z
}.

Definition config_priority (data : JobData) : option Z :=
  match d_config data with
  | Some c => cfg_priority c
  | None => None
  end.

(** [this.documentQueue.add('process-document', data, { priority:
    data.config?.priority || 5, delay: options?.delay || 0, ...options })],
    on a Redis that accepts the job; [OnRedis.QueueService.addJob] is the
    method when the call may be rejected. *)
Definition addJob (queueName : string) (data : JobData) (options : option AddOptions)
  : M (BullJob JobData) :=
  log ("Adding job to " +:+ queueName +:+ " queue:") ;;
  n <- gets nextJobId ;;
  let opt {A} (f : AddOptions → option A) : option A :=
    match options with Some o => f o | None => None end in
  let job :=
    {| bj_id := n;
       bj_name := "process-document";
       bj_data := data;
       bj_priority := default (Js.or_num (config_priority data) 5) (opt o_priority);
       bj_delay := default (Js.or_num (opt o_delay) 0) (opt o_delay);
       bj_attempts := default default_attempts (opt o_attempts);
       bj_backoff := default default_backoff_delay (opt o_backoff);
       bj_attemptsMade := 0 |} in
  modify (enqueue job) ;;
  log ("Job added with ID: " +:+ pretty n) ;;
  ret job.

(** What Bull answers to [getWaiting], [getActive], [getCompleted],
    [getFailed] and [getDelayed]. *)
Record QueueLists := {
  l_waiting : list (BullJob JobData);
  l_active : list (BullJob JobData);
  l_completed : list (BullJob JobData);
  l_failed : list (BullJob JobData);
  l_delayed : list (BullJob JobData)
}.

Record QueueStats := {
  s_waiting : nat;
  s_active : nat;
  s_completed : nat;
  s_failed : nat;
  s_delayed : nat;
  s_total : nat
}.

(** [async getQueueStats()].  [bull] is how the five queries under
    [Promise.all] end: with the five lists, or with the rejection of one of
    them, which the method passes on. *)
Definition getQueueStats (bull : Res QueueLists) : M QueueStats :=
  match bull with
  | Throw e => throw e
  | Ok ls =>
      let waiting := l_waiting ls in
      let active := l_active ls in
      let completed := l_completed ls in
      let failed := l_failed ls in
      let delayed := l_delayed ls in
      ret {| s_waiting := length waiting;
             s_active := length active;
             s_completed := length completed;
             s_failed := length failed;
             s_delayed := length delayed;
             s_total := length waiting + length active + length completed
                        + length failed + length delayed |}
  end.

End QueueService.

(** ** processing/processing.service.ts *)
Module ProcessingService.

Record TriggerResult := { jobId : string; t_status : string }.
Record CancelResult := { cancelled : bool }.

Record Phase := { ph_name : string; ph_progress : Z; ph_duration : Z }.

Definition phases : list Phase :=
  [ {| ph_name := "Document Download"; ph_progress := 20; ph_duration := 1000 |};
    {| ph_name := "Text Extraction"; ph_progress := 40; ph_duration := 2000 |};
    {| ph_name := "Content Analysis"; ph_progress := 60; ph_duration := 3000 |};
    {| ph_name := "Metadata Extraction"; ph_progress := 80; ph_duration := 1500 |};
    {| ph_name := "Indexing"; ph_progress := 95; ph_duration := 1000 |} ].

Definition sample_result : IngestionResult :=
  {| res_extractedText := "Sample extracted text content...";
     res_metadata := {| pageCount := 5; wordCount := 1250; res_language := "en" |};
     res_analysis := {| sentiment := "neutral";
                        topics := ["business"; "technology"];
                        entities := ["Company A"; "Product B"] |} |}.

Section WithEnv.
Variable E : Env.

(** [private async notifyMainAPI(ingestionId, status, progress, result?, error?)] *)
Definition notifyMainAPI (ingestionId status : string) (progress : Z)
    (result : option IngestionResult) (error : option string) : M unit :=
  try_catch
    (mainApiUrl <- config_get E "MAIN_API_URL" "http://localhost:8080" ;;
     let webhookUrl := mainApiUrl +:+ "/webhooks/ingestion-status" in
     t <- now ;;
     let payload :=
       {| n_ingestionId := ingestionId;
          n_status := status;
          n_progress := progress;
          n_timestamp := t;
          n_result := result;
          n_error := if Js.truthy_str error then error else None |} in
     token <- config_get E "SERVICE_TOKEN" "processing-service-token" ;;
     http_post E webhookUrl token 5000 (StatusBody payload) ;;
     log ("Notified main API: " +:+ ingestionId +:+ " -> " +:+ status))
    (fun msg =>
       log_error ("Failed to notify main API for " +:+ ingestionId +:+ ": " +:+ msg)).

(** [async triggerIngestion(documentId, ingestionId, config)] *)
Definition triggerIngestion (documentId ingestionId : string)
    (config : option IngestionConfigDto) : M TriggerResult :=
  log ("Triggering ingestion for document: " +:+ documentId) ;;
  job <- alloc {| id := ingestionId;
                  documentId := documentId;
                  ingestionId := ingestionId;
                  config := config;
                  status := queued;
                  progress := 0;
                  startedAt := None;
                  completedAt := None;
                  error := None;
                  result := None |} ;;
  jobs_set ingestionId job ;;
  QueueService.addJob "document-processing"
    {| d_ingestionId := ingestionId; d_documentId := documentId; d_config := config |}
    None ;;
  notifyMainAPI ingestionId "queued" 0 None None ;;
  ret {| jobId := ingestionId; t_status := "queued" |}.

(** [private async simulateProcessingPhases(job)] *)
Definition simulateProcessingPhases (job : loc) : M unit :=
  for_of phases (fun phase =>
    j <- deref job ;;
    log ("Processing phase: " +:+ ph_name phase +:+ " for " +:+ ingestionId j) ;;
    sleep (ph_duration phase) ;;
    stage_work E (ph_name phase) ;;
    assign job (with_progress (ph_progress phase)) ;;
    j <- deref job ;;
    jobs_set (ingestionId j) job ;;
    notifyMainAPI (ingestionId j) "processing" (ph_progress phase) None None).

(** [async processDocument(jobData)] *)
Definition processDocument (jobData : JobData) : M unit :=
  let ingestionId := d_ingestionId jobData in
  found <- jobs_get ingestionId ;;
  match found with
  | None => log_error ("Job not found: " +:+ ingestionId)
  | Some (job, _) =>
      try_catch
        (log ("Starting processing for ingestion: " +:+ ingestionId) ;;
         assign job (with_status processing) ;;
         t <- now ;;
         assign job (with_startedAt t) ;;
         assign job (with_progress 10) ;;
         jobs_set ingestionId job ;;
         notifyMainAPI ingestionId "processing" 10 None None ;;
         simulateProcessingPhases job ;;
         assign job (with_status completed) ;;
         t <- now ;;
         assign job (with_completedAt t) ;;
         assign job (with_progress 100) ;;
         assign job (with_result sample_result) ;;
         jobs_set ingestionId job ;;
         j <- deref job ;;
         notifyMainAPI ingestionId "completed" 100 (result j) None ;;
         log ("Processing completed for ingestion: " +:+ ingestionId))
        (fun msg =>
           log_error ("Processing failed for ingestion: " +:+ ingestionId) ;;
           assign job (with_status failed) ;;
           t <- now ;;
           assign job (with_completedAt t) ;;
           assign job (with_error msg) ;;
           jobs_set ingestionId job ;;
           j <- deref job ;;
           notifyMainAPI ingestionId "failed" (progress j) None (Some msg))
  end.

(** [async getIngestionStatus(ingestionId)] *)
Definition getIngestionStatus (ingestionId : string) : M (option IngestionJob) :=
  found <- jobs_get ingestionId ;;
  ret (snd <$> found).

(** [async cancelIngestion(ingestionId)] *)
Definition cancelIngestion (ingestionId : string) : M CancelResult :=
  found <- jobs_get ingestionId ;;
  match found with
  | None => ret {| cancelled := false |}
  | Some (job, j) =>
      if bool_decide (status j = completed) || bool_decide (status j = failed)
      then ret {| cancelled := false |}
      else
        assign job (with_status failed) ;;
        assign job (with_error "Cancelled by user") ;;
        t <- now ;;
        assign job (with_completedAt t) ;;
        jobs_set ingestionId job ;;
        j' <- deref job ;;
        notifyMainAPI ingestionId "failed" (progress j') None (Some "Cancelled by user") ;;
        ret {| cancelled := true |}
  end.

End WithEnv.

Record ServiceStats := {
  stats : QueueService.QueueStats;   (* ...stats *)
  activeJobs : nat;
  completedJobs : nat;
  failedJobs : nat
}.

(** [async getQueueStats()] *)
Definition getQueueStats (bull : Res QueueService.QueueLists) : M ServiceStats :=
  stats <- QueueService.getQueueStats bull ;;
  values1 <- jobs_values ;;
  values2 <- jobs_values ;;
  values3 <- jobs_values ;;
  ret {| stats := stats;
         activeJobs :=
           length (filter (fun job => status job = processing ∨ status job = queued) values1);
         completedJobs := length (filter (fun job => status job = completed) values2);
         failedJobs := length (filter (fun job => status job = failed) values3) |}.

End ProcessingService.

(** ** queue/document.processor.ts *)
Module DocumentProcessor.

Record HandlerResult := { h_success : bool; h_message : string }.

(** [job.progress(value)] on a Bull job, on a Redis that answers;
    [OnRedis.DocumentProcessor.job_progress] is the call when it may be
    rejected. *)
Definition job_progress {D} (job : BullJob D) (value : Z) : M unit :=
  modify (emit (EvBullProgress (bj_id job) value)).

(** [@Process('process-document') async handleDocumentProcessing(job)] *)
Definition handleDocumentProcessing (E : Env) (job : BullJob JobData) : M HandlerResult :=
  log ("Processing job " +:+ pretty (bj_id job) +:+ " with data:") ;;
  try_catch
    (job_progress job 0 ;;
     ProcessingService.processDocument E (bj_data job) ;;
     job_progress job 100 ;;
     log ("Job " +:+ pretty (bj_id job) +:+ " completed successfully") ;;
     ret {| h_success := true; h_message := "Document processed successfully" |})
    (fun msg =>
       log_error ("Job " +:+ pretty (bj_id job) +:+ " failed:") ;;
       throw msg).

End DocumentProcessor.

(** ** The Bull worker

    The queue library is not part of the repository; the service only
    configures it ([attempts], exponential [backoff]) and registers a
    handler. *)
Module Bull.

(** What becomes of a claimed queue entry after one run of the handler. *)
Inductive Disposition (R : Type) :=
| Ack (returnvalue : R)
| Retry (delay : Z) (reason : string)
| DeadLetter (reason : string).
Arguments Ack {R} _.
Arguments Retry {R} _ _.
Arguments DeadLetter {R} _.

(** Bull's built-in [exponential] backoff:
    [Math.round((Math.pow(2, attemptsMade) - 1) * delay)]. *)
Definition backoff_delay (base : Z) (attemptsMade : nat) : Z :=
  ((2 ^ Z.of_nat attemptsMade - 1) * base)%Z.

Definition failed_once {D} (job : BullJob D) : BullJob D :=
  {| bj_id := bj_id job; bj_name := bj_name job; bj_data := bj_data job;
     bj_priority := bj_priority job; bj_delay := bj_delay job;
     bj_attempts := bj_attempts job; bj_backoff := bj_backoff job;
     bj_attemptsMade := S (bj_attemptsMade job) |}.

(** One claimed entry, as Bull treats it and as section 4.1 of the
    specification words the retry policy: the handler runs once; a normal
    return acknowledges the entry; a throw counts as a failed attempt and
    re-enqueues the entry with backoff while the attempts made stay below
    [attempts], and dead-letters it otherwise. *)
Definition settle {D R} (handler : BullJob D → M R) (job : BullJob D)
  : World → Disposition R * BullJob D * World :=
  fun w =>
    match handler job w with
    | (Ok r, w') => (Ack r, job, w')
    | (Throw e, w') =>
        let job' := failed_once job in
        if Nat.ltb (bj_attemptsMade job') (bj_attempts job')
        then (Retry (backoff_delay (bj_backoff job') (bj_attemptsMade job')) e, job', w')
        else (DeadLetter e, job', w')
    end.

(** The worker's loop on one entry: settle, and after a retry wait for the
    backoff and settle again.  The result lists the dispositions in order;
    [fuel] bounds the number of runs of the handler, and [attempts] runs
    always suffice. *)
Fixpoint work {D R} (fuel : nat) (handler : BullJob D → M R) (job : BullJob D)
    (w : World) : list (Disposition R) * BullJob D * World :=
  match fuel with
  | 0 => ([], job, w)
  | S fuel' =>
      match settle handler job w with
      | (Retry d e, job', w') =>
          let '(ds, job'', w'') := work fuel' handler job' (set_clock (fun t => (t + d)%Z) w') in
          (Retry d e :: ds, job'', w'')
      | (d, job', w') => ([d], job', w')
      end
  end.

(** The worker takes the entry and processes it until it is settled. *)
Definition process {D R} (handler : BullJob D → M R) (job : BullJob D) (w : World)
  : list (Disposition R) * BullJob D * World :=
  work (bj_attempts job - bj_attemptsMade job) handler job w.

(** Number of times the handler ran and failed. *)
Definition is_failure {R} (d : Disposition R) : bool :=
  match d with Ack _ => false | Retry _ _ | DeadLetter _ => true end.

Definition failures {R} (ds : list (Disposition R)) : nat :=
  length (List.filter is_failure ds).

End Bull.

(** ** processing/services/document-processor.service.ts *)
Module DocumentProcessorService.
Import Dto.

(** The state of [processDocument]: its local object [result] and the
    world.  A throw inside the [try] block leaves in [result] what the
    stages before it wrote. *)
Definition P (A : Type) : Type := ST (ProcessingResult * World) A.

Definition inW {A} (m : M A) : P A :=
  fun s => (fst (m (snd s)), (fst s, snd (m (snd s)))).

Definition get_result : P ProcessingResult := gets fst.

Definition set_result (f : ProcessingResult → ProcessingResult) : P unit :=
  modify (fun s => (f (fst s), snd s)).

(** Invoking a stage: the environment may make the call throw, otherwise
    the stage of the source runs. *)
Definition stage {A} (E : Env) (name : string) (m : M A) : M A :=
  stage_work E name ;; m.

(** [private async extractText(job)] *)
Definition extractText (job : DocumentProcessingJob) : M string :=
  sleep 1000 ;;
  let t := Js.toLowerCase (fileType job) in
  ret (if String.eqb t "pdf" then
         "Extracted text from PDF: " +:+ fileName job
           +:+ ". This is sample extracted text content."
       else if String.eqb t "docx" || String.eqb t "doc" then
         "Extracted text from Word document: " +:+ fileName job
           +:+ ". This is sample extracted text content."
       else if String.eqb t "txt" then
         "Text file content: " +:+ fileName job
           +:+ ". This is sample text file content."
       else
         "Generic text extraction from " +:+ fileName job
           +:+ ". This is sample extracted content.").

(** [private async performOCR(job)] *)
Definition performOCR (job : DocumentProcessingJob) : M string :=
  sleep 2000 ;;
  ret (if bool_decide (Js.toLowerCase (fileType job) ∈ ["jpg"; "jpeg"; "png"; "tiff"; "bmp"])
       then "OCR text from image " +:+ fileName job
              +:+ ": This is sample OCR extracted text from the image."
       else "OCR processing not applicable for file type: " +:+ fileType job).

(** [private async extractKeywords(job, text?)] *)
Definition extractKeywords (job : DocumentProcessingJob) (text : option string)
  : M (list string) :=
  sleep 500 ;;
  match text with
  | Some txt =>
      if Js.truthy_str text then
        let words := Js.split_ws (Js.toLowerCase txt) in
        let keywords :=
          Js.slice0 10 (filter (fun word => 3 < String.length word) (Js.new_Set words)) in
        ret (if (0 <? length keywords)%nat then keywords
             else ["document"; "content"; "text"])
      else ret ["document"; "file"; fileType job]
  | None => ret ["document"; "file"; fileType job]
  end.

(** [private async generateSummary(job, text?)] *)
Definition generateSummary (job : DocumentProcessingJob) (text : option string)
  : M string :=
  sleep 1500 ;;
  match text with
  | Some txt =>
      if Js.truthy_str text then
        ret ("Summary for " +:+ fileName job +:+ ": This document contains "
               +:+ pretty (String.length txt)
               +:+ " characters of content. The main topics appear to be related to the document's primary subject matter.")
      else
        ret ("Summary for " +:+ fileName job
               +:+ ": This document contains content that could not be processed for summary generation.")
  | None =>
      ret ("Summary for " +:+ fileName job
             +:+ ": This document contains content that could not be processed for summary generation.")
  end.

Definition englishWords : list string :=
  ["the"; "and"; "is"; "in"; "to"; "of"; "a"; "that"].

(** [private async detectLanguage(text?)] *)
Definition detectLanguage (text : option string) : M string :=
  sleep 300 ;;
  match text with
  | Some txt =>
      if Js.truthy_str text then
        let textLower := Js.toLowerCase txt in
        let englishCount :=
          length (List.filter (fun word => Js.includes textLower word) englishWords) in
        ret (if (3 <? englishCount)%nat then "en" else "unknown")
      else ret "unknown"
  | None => ret "unknown"
  end.

(** [private async indexForSearch(job, result)] *)
Definition indexForSearch (job : DocumentProcessingJob) (result : ProcessingResult)
  : M unit :=
  sleep 800 ;;
  log ("Indexed document " +:+ documentId job +:+ " for search").

(** [private async updateProgress(documentId, progress, step)]: a log line,
    recorded with its three arguments. *)
Definition updateProgress (documentId : string) (progress : Z) (step : string) : M unit :=
  modify (emit (EvProgress documentId progress step)).

Section WithEnv.
Variable E : Env.

(** [private async sendProcessingCallback(documentId, result)] *)
Definition sendProcessingCallback (documentId : string) (result : ProcessingResult)
  : M unit :=
  try_catch
    (backendUrl <- config_get E "MAIN_BACKEND_URL" "http://localhost:8080" ;;
     let callbackUrl := backendUrl +:+ "/api/v1/processing/callback" in
     token <- config_get E "SERVICE_TOKEN" "processing-service-token" ;;
     http_post E callbackUrl token 10000 (CallbackBody documentId result) ;;
     log ("Callback sent for document " +:+ documentId))
    (fun msg =>
       log_error ("Failed to send callback for document " +:+ documentId +:+ ": " +:+ msg)).

(** The [try] block of [processDocument]. *)
Definition pipeline (job : DocumentProcessingJob) (startTime : Z) : P ProcessingResult :=
  let cfg := config job in
  let docId := documentId job in
  inW (log ("Starting processing for document " +:+ docId)) ;;
  when (Dto.extractText cfg)
    (inW (updateProgress docId 10 "Extracting text...") ;;
     v <- inW (stage E "extractText" (extractText job)) ;;
     set_result (with_extractedText v)) ;;
  when (Dto.performOCR cfg)
    (inW (updateProgress docId 30 "Performing OCR...") ;;
     v <- inW (stage E "performOCR" (performOCR job)) ;;
     set_result (with_ocrText v)) ;;
  when (Dto.extractKeywords cfg)
    (inW (updateProgress docId 50 "Extracting keywords...") ;;
     r <- get_result ;;
     v <- inW (stage E "extractKeywords" (extractKeywords job (extractedText r))) ;;
     set_result (with_keywords v)) ;;
  when (Dto.generateSummary cfg)
    (inW (updateProgress docId 70 "Generating summary...") ;;
     r <- get_result ;;
     v <- inW (stage E "generateSummary" (generateSummary job (extractedText r))) ;;
     set_result (with_summary v)) ;;
  when (Dto.detectLanguage cfg)
    (inW (updateProgress docId 85 "Detecting language...") ;;
     r <- get_result ;;
     v <- inW (stage E "detectLanguage" (detectLanguage (extractedText r))) ;;
     set_result (with_language v)) ;;
  when (Dto.enableSearch cfg)
    (inW (updateProgress docId 95 "Indexing for search...") ;;
     r <- get_result ;;
     inW (stage E "indexForSearch" (indexForSearch job r))) ;;
  inW (updateProgress docId 100 "Processing completed") ;;
  set_result (with_success true) ;;
  t <- inW now ;;
  set_result (with_processingTime (t - startTime)) ;;
  r <- get_result ;;
  inW (log ("Processing completed for document " +:+ docId +:+ " in "
              +:+ pretty (processingTime r) +:+ "ms")) ;;
  inW (sendProcessingCallback docId r) ;;
  ret r.

(** The [catch] block of [processDocument]. *)
Definition on_error (job : DocumentProcessingJob) (startTime : Z) (msg : string)
  : P ProcessingResult :=
  set_result (with_success false) ;;
  set_result (with_errors [msg]) ;;
  t <- inW now ;;
  set_result (with_processingTime (t - startTime)) ;;
  inW (log_error ("Processing failed for document " +:+ documentId job +:+ ":")) ;;
  r <- get_result ;;
  inW (sendProcessingCallback (documentId job) r) ;;
  ret r.

(** [async processDocument(job)] *)
Definition processDocument (job : DocumentProcessingJob) : M ProcessingResult :=
  fun w =>
    let startTime := clock w in
    let result :=
      {| r_documentId := documentId job; success := false;
         extractedText := None; ocrText := None; keywords := None;
         summary := None; language := None;
         processingTime := 0; errors := [] |} in
    let out := try_catch (pipeline job startTime) (on_error job startTime) (result, w) in
    (fst out, snd (snd out)).

End WithEnv.
End DocumentProcessorService.

(** ** processing/services/queue-consumer.service.ts *)
Module QueueConsumerService.

(** [@Process("process-document") async processDocument(job)] *)
Definition processDocument (E : Env) (job : BullJob Dto.DocumentProcessingJob)
  : M Dto.ProcessingResult :=
  log ("Processing job " +:+ pretty (bj_id job) +:+ " for document "
         +:+ Dto.documentId (bj_data job)) ;;
  try_catch
    (DocumentProcessor.job_progress job 0 ;;
     result <- DocumentProcessorService.processDocument E (bj_data job) ;;
     DocumentProcessor.job_progress job 100 ;;
     log ("Job " +:+ pretty (bj_id job) +:+ " completed successfully") ;;
     ret result)
    (fun msg =>
       log_error ("Job " +:+ pretty (bj_id job) +:+ " failed:") ;;
       throw msg).

(** The five counts of the consumer's [getQueueStats]: those of
    [QueueService.getQueueStats] without the total. *)
Record ConsumerStats := {
  waiting : nat;
  active : nat;
  n_completed : nat;
  n_failed : nat;
  delayed : nat
}.

(** [async getQueueStats()].  [bull] is how the five queries under
    [Promise.all] end. *)
Definition getQueueStats (bull : Res QueueService.QueueLists) : M ConsumerStats :=
  match bull with
  | Throw e => throw e
  | Ok ls =>
      ret {| waiting := length (QueueService.l_waiting ls);
             active := length (QueueService.l_active ls);
             n_completed := length (QueueService.l_completed ls);
             n_failed := length (QueueService.l_failed ls);
             delayed := length (QueueService.l_delayed ls) |}
  end.

(** [async getActiveJobs()] and [async getWaitingJobs()]: the answer of the
    queue, or its rejection. *)
Definition getActiveJobs (bull : Res (list (BullJob Dto.DocumentProcessingJob)))
  : M (list (BullJob Dto.DocumentProcessingJob)) :=
  match bull with Throw e => throw e | Ok jobs => ret jobs end.

Definition getWaitingJobs (bull : Res (list (BullJob Dto.DocumentProcessingJob)))
  : M (list (BullJob Dto.DocumentProcessingJob)) :=
  match bull with Throw e => throw e | Ok jobs => ret jobs end.

(** *** The queue listeners and their callbacks

    The variant of the service that answers the queue's [completed] and
    [failed] events with a callback to the main backend. *)

(** The [result] object inside [callbackData]. *)
Record CallbackResult := {
  c_success : bool;
  c_processingTime : Z;
  c_extractedText : option string;
  c_ocrText : option string;
  c_keywords : option (list string);
  c_summary : option string;
  c_language : option string;
  c_errors : option (list string)
}.

(** A request made by a listener, recorded with its outcome. *)
Record CallbackRequest := {
  q_url : string;
  q_token : string;
  q_timeout : Z;
  q_documentId : string;
  q_result : CallbackResult;
  q_failure : option string
}.

(** The state of a listener: the requests it made so far, and the world. *)
Definition L (A : Type) : Type := ST (list CallbackRequest * World) A.

Definition inW {A} (m : M A) : L A :=
  fun s => (fst (m (snd s)), (fst s, snd (m (snd s)))).

(** [firstValueFrom(this.httpService.post(url, callbackData, { headers,
    timeout }))]: the request is counted and recorded, and the call throws
    when the environment says so. *)
Definition post (E : Env) (url token : string) (timeout : Z) (documentId : string)
    (result : CallbackResult) : L unit :=
  fun s =>
    let outcome := http_fails E (posts (snd s)) in
    let s' := (fst s ++ [ {| q_url := url; q_token := token; q_timeout := timeout;
                             q_documentId := documentId; q_result := result;
                             q_failure := outcome |} ],
               count_post (snd s)) in
    match outcome with
    | None => (Ok tt, s')
    | Some e => (Throw e, s')
    end.

Section WithEnv.
Variable E : Env.

(** [private async sendCompletionCallback(documentId, result)] *)
Definition sendCompletionCallback (documentId : string) (result : Dto.ProcessingResult)
  : L unit :=
  try_catch
    (backendUrl <- inW (config_lookup E "MAIN_BACKEND_URL") ;;
     serviceToken <- inW (config_lookup E "SERVICE_TOKEN") ;;
     if negb (Js.truthy_str backendUrl) || negb (Js.truthy_str serviceToken)
     then inW (log_warn "Missing backend URL or service token for callback")
     else
       let callbackData :=
         {| c_success := true;
            c_processingTime := Js.or_num (Some (Dto.processingTime result)) 0;
            c_extractedText := Dto.extractedText result;
            c_ocrText := Dto.ocrText result;
            c_keywords := Dto.keywords result;
            c_summary := Dto.summary result;
            c_language := Dto.language result;
            c_errors := None |} in
       post E (default "" backendUrl +:+ "/api/v1/processing/callback")
            (default "" serviceToken) 10000 documentId callbackData ;;
       inW (log ("Completion callback sent for document " +:+ documentId)))
    (fun msg =>
       inW (log_error ("Failed to send completion callback for document "
                         +:+ documentId +:+ ": " +:+ msg))).

(** [private async sendFailureCallback(documentId, errorMessage)] *)
Definition sendFailureCallback (documentId errorMessage : string) : L unit :=
  try_catch
    (backendUrl <- inW (config_lookup E "MAIN_BACKEND_URL") ;;
     serviceToken <- inW (config_lookup E "SERVICE_TOKEN") ;;
     if negb (Js.truthy_str backendUrl) || negb (Js.truthy_str serviceToken)
     then inW (log_warn "Missing backend URL or service token for callback")
     else
       let callbackData :=
         {| c_success := false;
            c_processingTime := 0;
            c_extractedText := None;
            c_ocrText := None;
            c_keywords := None;
            c_summary := None;
            c_language := None;
            c_errors := Some [errorMessage] |} in
       post E (default "" backendUrl +:+ "/api/v1/processing/callback")
            (default "" serviceToken) 10000 documentId callbackData ;;
       inW (log ("Failure callback sent for document " +:+ documentId)))
    (fun msg =>
       inW (log_error ("Failed to send failure callback for document "
                         +:+ documentId +:+ ": " +:+ msg))).


(** The listener that [onModuleInit] registers for [failed]. *)
Definition on_failed (job : BullJob Dto.DocumentProcessingJob) (err : string) : L unit :=
  inW (log_error ("Job " +:+ pretty (bj_id job) +:+ " failed: " +:+ err)) ;;
  sendFailureCallback (Dto.documentId (bj_data job)) err.

End WithEnv.
End QueueConsumerService.

(** ** The methods that call into Bull, over a Redis that may fail

    [QueueService.addJob], [ProcessingService.triggerIngestion] and the two
    queue handlers above are written for a Redis that answers every call.
    Here they are once more, line by line the same, with the awaited
    [documentQueue.add] and [job.progress] rejecting when [R] says so. *)
Module OnRedis.

Module QueueService.

(** [async addJob(queueName, data, options?)]: a rejected
    [this.documentQueue.add] rejects the call before the second log line. *)
Definition addJob (R : Redis) (queueName : string) (data : JobData)
    (options : option QueueService.AddOptions) : M (BullJob JobData) :=
  log ("Adding job to " +:+ queueName +:+ " queue:") ;;
  n <- gets nextJobId ;;
  let opt {A} (f : QueueService.AddOptions → option A) : option A :=
    match options with Some o => f o | None => None end in
  let job :=
    {| bj_id := n;
       bj_name := "process-document";
       bj_data := data;
       bj_priority := default (Js.or_num (QueueService.config_priority data) 5)
                              (opt QueueService.o_priority);
       bj_delay := default (Js.or_num (opt QueueService.o_delay) 0) (opt QueueService.o_delay);
       bj_attempts := default QueueService.default_attempts (opt QueueService.o_attempts);
       bj_backoff := default QueueService.default_backoff_delay (opt QueueService.o_backoff);
       bj_attemptsMade := 0 |} in
  match add_fails R n with
  | Some e => throw e
  | None => modify (enqueue job)
  end ;;
  log ("Job added with ID: " +:+ pretty n) ;;
  ret job.

End QueueService.

Module ProcessingService.

(** [async triggerIngestion(documentId, ingestionId, config)] *)
Definition triggerIngestion (R : Redis) (E : Env) (documentId ingestionId : string)
    (config : option IngestionConfigDto) : M ProcessingService.TriggerResult :=
  log ("Triggering ingestion for document: " +:+ documentId) ;;
  job <- alloc {| id := ingestionId;
                  documentId := documentId;
                  ingestionId := ingestionId;
                  config := config;
                  status := queued;
                  progress := 0;
                  startedAt := None;
                  completedAt := None;
                  error := None;
                  result := None |} ;;
  jobs_set ingestionId job ;;
  QueueService.addJob R "document-processing"
    {| d_ingestionId := ingestionId; d_documentId := documentId; d_config := config |}
    None ;;
  ProcessingService.notifyMainAPI E ingestionId "queued" 0 None None ;;
  ret {| ProcessingService.jobId := ingestionId; ProcessingService.t_status := "queued" |}.

End ProcessingService.

Module DocumentProcessor.

(** [await job.progress(value)] *)
Definition job_progress {D} (R : Redis) (job : BullJob D) (value : Z) : M unit :=
  match progress_fails R (bj_id job) value with
  | Some e => throw e
  | None => modify (emit (EvBullProgress (bj_id job) value))
  end.

(** [@Process('process-document') async handleDocumentProcessing(job)] *)
Definition handleDocumentProcessing (R : Redis) (E : Env) (job : BullJob JobData)
  : M DocumentProcessor.HandlerResult :=
  log ("Processing job " +:+ pretty (bj_id job) +:+ " with data:") ;;
  try_catch
    (job_progress R job 0 ;;
     ProcessingService.processDocument E (bj_data job) ;;
     job_progress R job 100 ;;
     log ("Job " +:+ pretty (bj_id job) +:+ " completed successfully") ;;
     ret {| DocumentProcessor.h_success := true;
            DocumentProcessor.h_message := "Document processed successfully" |})
    (fun msg =>
       log_error ("Job " +:+ pretty (bj_id job) +:+ " failed:") ;;
       throw msg).

End DocumentProcessor.

Module QueueConsumerService.

(** [@Process("process-document") async processDocument(job)] *)
Definition processDocument (R : Redis) (E : Env) (job : BullJob Dto.DocumentProcessingJob)
  : M Dto.ProcessingResult :=
  log ("Processing job " +:+ pretty (bj_id job) +:+ " for document "
         +:+ Dto.documentId (bj_data job)) ;;
  try_catch
    (DocumentProcessor.job_progress R job 0 ;;
     result <- DocumentProcessorService.processDocument E (bj_data job) ;;
     DocumentProcessor.job_progress R job 100 ;;
     log ("Job " +:+ pretty (bj_id job) +:+ " completed successfully") ;;
     ret result)
    (fun msg =>
       log_error ("Job " +:+ pretty (bj_id job) +:+ " failed:") ;;
       throw msg).

End QueueConsumerService.

End OnRedis.

(** ** processing/processing.controller.ts *)
Module ProcessingController.

(** [class TriggerIngestionDto] of dto/processing.dto.ts *)
Record TriggerIngestionDto := {
  dto_documentId : string;
  dto_ingestionId : string;
  dto_config : option IngestionConfigDto
}.

(** The envelope of every answer: [{ success, data, message? }]. *)
Record Response (D : Type) := {
  success : bool;
  data : D;
  message : option string
}.
Arguments success {D} _.
Arguments data {D} _.
Arguments message {D} _.

(** [@Post('trigger') async triggerIngestion(triggerDto)] *)
Definition triggerIngestion (E : Env) (triggerDto : TriggerIngestionDto)
  : M (Response ProcessingService.TriggerResult) :=
  result <- ProcessingService.triggerIngestion E (dto_documentId triggerDto)
              (dto_ingestionId triggerDto) (dto_config triggerDto) ;;
  ret {| success := true; data := result; message := Some "Document processing initiated" |}.

(** [@Get('status/:ingestionId') async getIngestionStatus(ingestionId)] *)
Definition getIngestionStatus (ingestionId : string) : M (Response (option IngestionJob)) :=
  status <- ProcessingService.getIngestionStatus ingestionId ;;
  ret {| success := true; data := status; message := None |}.

(** [@Post('cancel/:ingestionId') async cancelIngestion(ingestionId)] *)
Definition cancelIngestion (E : Env) (ingestionId : string)
  : M (Response ProcessingService.CancelResult) :=
  result <- ProcessingService.cancelIngestion E ingestionId ;;
  ret {| success := true; data := result;
         message := Some "Ingestion cancelled successfully" |}.

(** [@Get('queue/stats') async getQueueStats()] *)
Definition getQueueStats (bull : Res QueueService.QueueLists)
  : M (Response ProcessingService.ServiceStats) :=
  stats <- ProcessingService.getQueueStats bull ;;
  ret {| success := true; data := stats; message := None |}.

End ProcessingController.

(** ** health/health.service.ts *)
Module HealthService.

(** What the method reads of [process]. *)
Record ProcessInfo := {
  uptime : Z;
  memoryUsage : Z;
  npm_package_version : option string
}.

(** What the queue answers during one health check: to the five queries of
    [getQueueStats], to [getActive] and to [getWaiting]. *)
Record QueueAnswers := {
  a_stats : Res QueueService.QueueLists;
  a_active : Res (list (BullJob Dto.DocumentProcessingJob));
  a_waiting : Res (list (BullJob Dto.DocumentProcessingJob))
}.

Record HealthStatus := {
  h_status : string;
  h_service : string;
  h_timestamp : Z;
  h_responseTime : Z;
  h_services_queue : option string;
  h_queue : option QueueConsumerService.ConsumerStats;
  h_error : option string;
  h_uptime : Z;
  h_memory : Z;
  h_version : string
}.

Record QueueHealth := {
  qh_status : string;
  qh_stats : option QueueConsumerService.ConsumerStats;
  qh_activeJobs : option nat;
  qh_waitingJobs : option nat;
  qh_error : option string;
  qh_timestamp : Z
}.

(** [process.env.npm_package_version || "1.0.0"] *)
Definition version (proc : ProcessInfo) : string :=
  if Js.truthy_str (npm_package_version proc)
  then default "" (npm_package_version proc) else "1.0.0".

(** [async getHealthStatus()] *)
Definition getHealthStatus (proc : ProcessInfo) (bull : QueueAnswers) : M HealthStatus :=
  startTime <- now ;;
  try_catch
    (queueStats <- QueueConsumerService.getQueueStats (a_stats bull) ;;
     let queueStatus := "healthy" in
     t <- now ;;
     let responseTime := (t - startTime)%Z in
     timestamp <- now ;;
     ret {| h_status := "healthy";
            h_service := "jktech-processing-service";
            h_timestamp := timestamp;
            h_responseTime := responseTime;
            h_services_queue := Some queueStatus;
            h_queue := Some queueStats;
            h_error := None;
            h_uptime := uptime proc;
            h_memory := memoryUsage proc;
            h_version := version proc |})
    (fun msg =>
       log_error "Health check failed:" ;;
       timestamp <- now ;;
       t <- now ;;
       ret {| h_status := "unhealthy";
              h_service := "jktech-processing-service";
              h_timestamp := timestamp;
              h_responseTime := (t - startTime)%Z;
              h_services_queue := None;
              h_queue := None;
              h_error := Some msg;
              h_uptime := uptime proc;
              h_memory := memoryUsage proc;
              h_version := version proc |}).

(** [async getQueueHealth()] *)
Definition getQueueHealth (bull : QueueAnswers) : M QueueHealth :=
  try_catch
    (stats <- QueueConsumerService.getQueueStats (a_stats bull) ;;
     activeJobs <- QueueConsumerService.getActiveJobs (a_active bull) ;;
     waitingJobs <- QueueConsumerService.getWaitingJobs (a_waiting bull) ;;
     timestamp <- now ;;
     ret {| qh_status := "healthy";
            qh_stats := Some stats;
            qh_activeJobs := Some (length activeJobs);
            qh_waitingJobs := Some (length waitingJobs);
            qh_error := None;
            qh_timestamp := timestamp |})
    (fun msg =>
       log_error "Queue health check failed:" ;;
       timestamp <- now ;;
       ret {| qh_status := "unhealthy";
              qh_stats := None;
              qh_activeJobs := None;
              qh_waitingJobs := None;
              qh_error := Some msg;
              qh_timestamp := timestamp |}).

End HealthService.

(** ** health/health.controller.ts *)
Module HealthController.
Import ProcessingController.

(** [@Get() async getHealth()] *)
Definition getHealth (proc : HealthService.ProcessInfo) (bull : HealthService.QueueAnswers)
  : M (Response HealthService.HealthStatus) :=
  health <- HealthService.getHealthStatus proc bull ;;
  ret {| success := true; data := health; message := None |}.

(** [@Get("queue") async getQueueHealth()] *)
Definition getQueueHealth (bull : HealthService.QueueAnswers)
  : M (Response HealthService.QueueHealth) :=
  queueHealth <- HealthService.getQueueHealth bull ;;
  ret {| success := true; data := queueHealth; message := None |}.

End HealthController.

(** ** webhook/webhook.service.ts *)
Module WebhookService.

(** The body of a webhook, as far as the handlers read it: a JSON object
    whose members are strings. *)
Definition Payload : Type := gmap string string.

Record UploadedResult := {
  u_processed : bool;
  u_documentId : option string;
  u_timestamp : Z
}.

Record CancelledResult := {
  k_processed : bool;
  k_ingestionId : option string;
  k_timestamp : Z
}.

(** [async handleDocumentUploaded(payload)] *)
Definition handleDocumentUploaded (payload : Payload) : M UploadedResult :=
  log "Received document uploaded webhook:" ;;
  t <- now ;;
  ret {| u_processed := true; u_documentId := payload !! "documentId"; u_timestamp := t |}.

(** [async handleIngestionCancelled(payload)] *)
Definition handleIngestionCancelled (payload : Payload) : M CancelledResult :=
  log "Received ingestion cancelled webhook:" ;;
  t <- now ;;
  ret {| k_processed := true; k_ingestionId := payload !! "ingestionId"; k_timestamp := t |}.

End WebhookService.

(** ** webhook/webhook.controller.ts *)
Module WebhookController.
Import ProcessingController.

Section WithEnv.
Variable E : Env.

(** [private validateServiceToken(token)]; the header may be absent, and
    [UnauthorizedException] is thrown with its message. *)
Definition validateServiceToken (token : option string) : M unit :=
  expectedToken <- config_get E "SERVICE_TOKEN" "main-api-token" ;;
  if negb (Js.truthy_str token) || negb (bool_decide (token = Some expectedToken))
  then throw "Invalid service token"
  else ret tt.

(** [@Post('document-uploaded') async handleDocumentUploaded(payload, serviceToken)] *)
Definition handleDocumentUploaded (payload : WebhookService.Payload)
    (serviceToken : option string) : M (Response WebhookService.UploadedResult) :=
  validateServiceToken serviceToken ;;
  result <- WebhookService.handleDocumentUploaded payload ;;
  ret {| success := true; data := result;
         message := Some "Document upload webhook processed" |}.

(** [@Post('ingestion-cancelled') async handleIngestionCancelled(payload, serviceToken)] *)
Definition handleIngestionCancelled (payload : WebhookService.Payload)
    (serviceToken : option string) : M (Response WebhookService.CancelledResult) :=
  validateServiceToken serviceToken ;;
  result <- WebhookService.handleIngestionCancelled payload ;;
  ret {| success := true; data := result;
         message := Some "Ingestion cancellation webhook processed" |}.

End WithEnv.
End WebhookController.

(** * Vocabulary of the properties

    What the statements below are written with: environments and inputs,
    pure summaries of what a run does, the readings of the trace, and the
    three judgements on computations used in the proofs. *)

(** ** Environments and inputs *)

(** An environment in which nothing fails. *)
Definition quiet : Env :=
  {| http_fails := fun _ => None; stage_fails := fun _ => None; env_config := fun _ => None |}.

(** An environment in which the stage called [name] throws [msg]. *)
Definition failing (name msg : string) : Env :=
  {| http_fails := fun _ => None;
     stage_fails := fun n => if String.eqb n name then Some msg else None;
     env_config := fun _ => None |}.

(** The environment [E] with another network. *)
Definition with_http (h : nat → option string) (E : Env) : Env :=
  {| http_fails := h; stage_fails := stage_fails E; env_config := env_config E |}.

(** A Redis that answers every call. *)
Definition answering : Redis :=
  {| add_fails := fun _ => None; progress_fails := fun _ _ => None |}.

(** A Redis that is down: every call is rejected with [msg]. *)
Definition down (msg : string) : Redis :=
  {| add_fails := fun _ => Some msg; progress_fails := fun _ _ => Some msg |}.

(** The first of the two [job.progress] calls of a handler that is rejected. *)
Definition progress_fault (R : Redis) (n : nat) : option string :=
  match progress_fails R n 0 with
  | Some e => Some e
  | None => progress_fails R n 100
  end.

(** What Bull makes of a run of the handler that threw [e]. *)
Definition failed_attempt {D A} (job : BullJob D) (e : string)
  : Bull.Disposition A * BullJob D :=
  (if (S (bj_attemptsMade job) <? bj_attempts job)%nat
   then Bull.Retry (Bull.backoff_delay (bj_backoff job) (S (bj_attemptsMade job))) e
   else Bull.DeadLetter e,
   Bull.failed_once job).

(** The record that [triggerIngestion] creates. *)
Definition fresh_job (documentId ingestionId : string) (config : option IngestionConfigDto)
  : IngestionJob :=
  {| id := ingestionId; documentId := documentId; ingestionId := ingestionId;
     config := config; status := queued; progress := 0; startedAt := None;
     completedAt := None; error := None; result := None |}.

(** The payload that [triggerIngestion] hands to the queue. *)
Definition job_data (documentId ingestionId : string) (config : option IngestionConfigDto)
  : JobData :=
  {| d_ingestionId := ingestionId; d_documentId := documentId; d_config := config |}.

(** The Bull job that [addJob] creates when called without options. *)
Definition added_job (n : nat) (data : JobData) : BullJob JobData :=
  {| bj_id := n; bj_name := "process-document"; bj_data := data;
     bj_priority := Js.or_num (QueueService.config_priority data) 5;
     bj_delay := 0;
     bj_attempts := QueueService.default_attempts;
     bj_backoff := QueueService.default_backoff_delay;
     bj_attemptsMade := 0 |}.

(** What [handleDocumentProcessing] returns. *)
Definition handled : DocumentProcessor.HandlerResult :=
  {| DocumentProcessor.h_success := true;
     DocumentProcessor.h_message := "Document processed successfully" |}.

(** A world with one freshly admitted job, "ing-1", and its queue item. *)
Definition one_job : World :=
  snd (ProcessingService.triggerIngestion quiet "doc-1" "ing-1" None empty_world).

(** A job of the processor with the usual flags: every stage but OCR. *)
Definition sample_job (fileType : string) : Dto.DocumentProcessingJob :=
  {| Dto.documentId := "doc-1"; Dto.userId := "user-1"; Dto.fileName := "report";
     Dto.fileType := fileType; Dto.fileSize := 2048; Dto.storagePath := "/uploads/report";
     Dto.config := {| Dto.extractText := true; Dto.performOCR := false;
                      Dto.extractKeywords := true; Dto.generateSummary := true;
                      Dto.detectLanguage := true; Dto.enableSearch := true;
                      Dto.priority := Dto.normal |} |}.

Definition all_stages : Dto.ProcessingConfig :=
  {| Dto.extractText := true; Dto.performOCR := true; Dto.extractKeywords := true;
     Dto.generateSummary := true; Dto.detectLanguage := true; Dto.enableSearch := true;
     Dto.priority := Dto.normal |}.

(** A queue item of the processor with every stage enabled. *)
Definition processor_item : BullJob Dto.DocumentProcessingJob :=
  {| bj_id := 1; bj_name := "process-document";
     bj_data := {| Dto.documentId := "doc-1"; Dto.userId := "user-1";
                   Dto.fileName := "report.pdf"; Dto.fileType := "pdf";
                   Dto.fileSize := 2048; Dto.storagePath := "/uploads/report.pdf";
                   Dto.config := all_stages |};
     bj_priority := 5; bj_delay := 0; bj_attempts := 3; bj_backoff := 2000;
     bj_attemptsMade := 0 |}.

(** ** Keywords *)

(** A string on which [toLowerCase] does nothing. *)
Definition is_lowercase (s : string) : Prop := Js.toLowerCase s = s.

(** The whitespace-delimited tokens of the lowercased text. *)
Definition tokens (txt : string) : list string := Js.split_ws (Js.toLowerCase txt).

(** [word.length > 3] *)
Definition long_token (t : string) : Prop := 3 < String.length t.

(** ** What the notifiers add to the world *)

(** The request of [notifyMainAPI], recorded with its outcome. *)
Definition notify_post (E : Env) (i st : string) (p : Z) (r : option IngestionResult)
    (e : option string) (w : World) : Event :=
  EvPost (default "http://localhost:8080" (env_config E "MAIN_API_URL")
            +:+ "/webhooks/ingestion-status")
         (default "processing-service-token" (env_config E "SERVICE_TOKEN")) 5000
         (StatusBody {| n_ingestionId := i; n_status := st; n_progress := p;
                        n_timestamp := clock w; n_result := r;
                        n_error := if Js.truthy_str e then e else None |})
         (http_fails E (posts w)).

Definition notify_level (E : Env) (n : nat) : LogLevel :=
  match http_fails E n with None => LOG | Some _ => ERROR end.

Definition notify_line (E : Env) (i st : string) (n : nat) : string :=
  match http_fails E n with
  | None => "Notified main API: " +:+ i +:+ " -> " +:+ st
  | Some msg => "Failed to notify main API for " +:+ i +:+ ": " +:+ msg
  end.

(** The log line of [notifyMainAPI]: success in the [try], error in the [catch]. *)
Definition notify_log (E : Env) (i st : string) (n : nat) : Event :=
  EvLog (notify_level E n) (notify_line E i st n).

(** The request of [sendProcessingCallback], recorded with its outcome. *)
Definition callback_post (E : Env) (docId : string) (r : Dto.ProcessingResult) (w : World)
  : Event :=
  EvPost (default "http://localhost:8080" (env_config E "MAIN_BACKEND_URL")
            +:+ "/api/v1/processing/callback")
         (default "processing-service-token" (env_config E "SERVICE_TOKEN")) 10000
         (CallbackBody docId r) (http_fails E (posts w)).

(** The log line of [sendProcessingCallback]. *)
Definition callback_log (E : Env) (docId : string) (n : nat) : Event :=
  match http_fails E n with
  | None => EvLog LOG ("Callback sent for document " +:+ docId)
  | Some msg => EvLog ERROR ("Failed to send callback for document " +:+ docId +:+ ": " +:+ msg)
  end.

(** ** Summary of one run of ProcessingService.processDocument *)

(** Phases whose work completes, and the message of the first that throws. *)
Fixpoint scan (E : Env) (ps : list ProcessingService.Phase)
  : list ProcessingService.Phase * option string :=
  match ps with
  | [] => ([], None)
  | ph :: ps' =>
      match stage_fails E (ProcessingService.ph_name ph) with
      | Some e => ([], Some e)
      | None => (ph :: fst (scan E ps'), snd (scan E ps'))
      end
  end.

Definition phases_done (E : Env) : list ProcessingService.Phase :=
  fst (scan E ProcessingService.phases).

Definition first_fault (E : Env) : option string :=
  snd (scan E ProcessingService.phases).

(** The record after the first block of assignments of [processDocument]. *)
Definition started (t : Z) (j : IngestionJob) : IngestionJob :=
  with_progress 10 (with_startedAt t (with_status processing j)).

(** The records stored by the loop, one per completed phase. *)
Fixpoint phase_records (j : IngestionJob) (ps : list ProcessingService.Phase)
  : list IngestionJob :=
  match ps with
  | [] => []
  | ph :: ps' =>
      let j' := with_progress (ProcessingService.ph_progress ph) j in
      j' :: phase_records j' ps'
  end.

(** The record when the loop ends or throws. *)
Definition advanced (E : Env) (t : Z) (j : IngestionJob) : IngestionJob :=
  foldl (fun a ph => with_progress (ProcessingService.ph_progress ph) a)
        (started t j) (phases_done E).

(** The record when [processDocument] returns: [tend] is the completion time. *)
Definition final_job (E : Env) (t tend : Z) (j : IngestionJob) : IngestionJob :=
  match first_fault E with
  | None =>
      with_result ProcessingService.sample_result
        (with_progress 100 (with_completedAt tend (with_status completed (advanced E t j))))
  | Some e => with_error e (with_completedAt tend (with_status failed (advanced E t j)))
  end.

(** The [jobs.set] calls of one run of [processDocument], in order. *)
Definition expected_sets (E : Env) (key : string) (t tend : Z) (j : IngestionJob)
  : list (string * IngestionJob) :=
  (key, started t j)
  :: map (pair (ingestionId j)) (phase_records (started t j) (phases_done E))
  ++ [(key, final_job E t tend j)].

(** The record [cancelIngestion] leaves for a job that was not terminal. *)
Definition cancelled_job (t : Z) (j : IngestionJob) : IngestionJob :=
  with_completedAt t (with_error "Cancelled by user" (with_status failed j)).

(** ** Summary of the processor's try and catch *)

(** The object [result] at the start of [processDocument]. *)
Definition initial_result (job : Dto.DocumentProcessingJob) : Dto.ProcessingResult :=
  {| Dto.r_documentId := Dto.documentId job; Dto.success := false;
     Dto.extractedText := None; Dto.ocrText := None; Dto.keywords := None;
     Dto.summary := None; Dto.language := None;
     Dto.processingTime := 0; Dto.errors := [] |}.

(** What the [catch] block makes of [result]. *)
Definition failure_result (t tend : Z) (msg : string) (r : Dto.ProcessingResult)
  : Dto.ProcessingResult :=
  Dto.with_processingTime (tend - t) (Dto.with_errors [msg] (Dto.with_success false r)).

(** ** Readings of the trace *)

(** A [jobs.set] call, with the record stored. *)
Definition job_set_of (e : Event) : option (string * IngestionJob) :=
  match e with EvJobsSet k j => Some (k, j) | _ => None end.

(** The progress a stored record shows while its status is not terminal. *)
Definition live_value (j : IngestionJob) : option Z :=
  if is_terminal (status j) then None else Some (progress j).

(** The progress written by a [jobs.set] on [key] while the status stored is
    [queued] or [processing]. *)
Definition live_write (key : string) (e : Event) : option Z :=
  match e with
  | EvJobsSet k j => if decide (k = key) then live_value j else None
  | _ => None
  end.

Definition live_progress (key : string) (evs : list Event) : list Z :=
  omap (live_write key) evs.

(** The progress values of one admission followed by one run of the worker:
    0, 10, and the checkpoints of the phases that completed. *)
Definition lifecycle (E : Env) : list Z :=
  0%Z :: 10%Z :: map ProcessingService.ph_progress (phases_done E).

(** An outcome of the job under [key] is on record after a run from [w] to
    [w']: the table holds a terminal record, or a notification went out. *)
Definition outcome_recorded (key : string) (w w' : World) : Prop :=
  (∃ j', lookup_job w' key = Some j' ∧ is_terminal (status j') = true)
  ∨ posts w < posts w'.

(** The value of a progress report: [updateProgress] or [job.progress]. *)
Definition progress_of (e : Event) : option Z :=
  match e with
  | EvProgress _ v _ => Some v
  | EvBullProgress _ v => Some v
  | _ => None
  end.

(** The checkpoints of the processor, in the order of the source. *)
Definition checkpoints : list Z := [10; 30; 50; 70; 85; 95; 100]%Z.

Definition in_range (p : Z) : Prop := (0 ≤ p ≤ 100)%Z.

(** ** Judgements on computations *)

(** [wp m s Q]: running [m] from [s] ends, returning or throwing, in a result
    and a state that satisfy [Q]. *)
Definition wp {S A} (m : ST S A) (s : S) (Q : Res A → S → Prop) : Prop :=
  Q (fst (m s)) (snd (m s)).

(** [sim R m1 m2]: from states related by [R], [m1] and [m2] end with the
    same result, returned or thrown, in states related by [R]. *)
Definition sim {S A} (R : S → S → Prop) (m1 m2 : ST S A) : Prop :=
  ∀ s1 s2, R s1 s2 → fst (m1 s1) = fst (m2 s2) ∧ R (snd (m1 s1)) (snd (m2 s2)).

(** Two worlds that agree on everything but the requests made and the trace. *)
Definition same_store (w1 w2 : World) : Prop :=
  jobs w1 = jobs w2 ∧ heap w1 = heap w2 ∧ queue w1 = queue w2 ∧
  nextJobId w1 = nextJobId w2 ∧ clock w1 = clock w2.

(** States of the processor related: same [result] object, same store. *)
Definition same_result (s1 s2 : Dto.ProcessingResult * World) : Prop :=
  fst s1 = fst s2 ∧ same_store (snd s1) (snd s2).

(** [emits tr m L]: whatever the start state, the progress values among the
    events that [m] adds to the trace form, in order, a subsequence of [L]. *)
Definition emits {S A} (tr : S → list Event) (m : ST S A) (L : list Z) : Prop :=
  ∀ s, ∃ evs, tr (snd (m s)) = tr s ++ evs ∧ omap progress_of evs `sublist_of` L.

(** ** The plan of one run of the processor *)

(** The stage table of [processDocument]: flag, checkpoint, stage. *)
Definition stage_rows (cfg : Dto.ProcessingConfig) : list (bool * Z * string) :=
  [ (Dto.extractText cfg, 10%Z, "extractText");
    (Dto.performOCR cfg, 30%Z, "performOCR");
    (Dto.extractKeywords cfg, 50%Z, "extractKeywords");
    (Dto.generateSummary cfg, 70%Z, "generateSummary");
    (Dto.detectLanguage cfg, 85%Z, "detectLanguage");
    (Dto.enableSearch cfg, 95%Z, "indexForSearch") ].

(** What a run reports and how it ends: every enabled stage reports its
    checkpoint and runs; the first stage that throws ends the run with its
    message; when none throws, 100 is reported. *)
Fixpoint plan (E : Env) (rows : list (bool * Z * string)) : list Z * option string :=
  match rows with
  | [] => ([100%Z], None)
  | (c, p, name) :: rows' =>
      if c then
        match stage_fails E name with
        | Some e => ([p], Some e)
        | None => (p :: fst (plan E rows'), snd (plan E rows'))
        end
      else plan E rows'
  end.

(** The progress values reported between [w0] and [w] are [pv]. *)
Definition reported (w0 : World) (pv : list Z) (w : World) : Prop :=
  ∃ evs, trace w = trace w0 ++ evs ∧ omap progress_of evs = pv.

(** A stage body: it returns, and reports no progress. *)
Definition quiet_stage {A} (m : M A) : Prop :=
  ∀ w, ∃ v w', m w = (Ok v, w') ∧ ∀ w0 pv, reported w0 pv w → reported w0 pv w'.

(** The state of the processor while no stage has thrown. *)
Definition running (w0 : World) (pv : list Z) (s : Dto.ProcessingResult * World) : Prop :=
  reported w0 pv (snd s) ∧ Dto.success (fst s) = false ∧ Dto.errors (fst s) = [].

(** How a guarded stage leaves the processor. *)
Definition after_stage (E : Env) (w0 : World) (name : string) (pv : list Z)
    (r : Res unit) (s : Dto.ProcessingResult * World) : Prop :=
  match stage_fails E name with
  | Some e => r = Throw e ∧ running w0 pv s
  | None => r = Ok tt ∧ running w0 pv s
  end.

Definition after_block (E : Env) (w0 : World) (c : bool) (p : Z) (name : string)
    (pv : list Z) (r : Res unit) (s : Dto.ProcessingResult * World) : Prop :=
  (r = Ok tt ∧ (c = true → stage_fails E name = None) ∧
   running w0 (pv ++ (if c then [p] else [])) s)
  ∨ (∃ e, r = Throw e ∧ c = true ∧ stage_fails E name = Some e ∧
          running w0 (pv ++ [p]) s).

(** How a run of the processor ends, against its plan. *)
Definition as_planned (E : Env) (w0 : World) (cfg : Dto.ProcessingConfig)
    (r : Res Dto.ProcessingResult) (w : World) : Prop :=
  ∃ res,
    r = Ok res ∧
    reported w0 (fst (plan E (stage_rows cfg))) w ∧
    match snd (plan E (stage_rows cfg)) with
    | None => Dto.success res = true ∧ Dto.errors res = []
    | Some e => Dto.success res = false ∧ Dto.errors res = [e]
    end.

(** * Vocabulary of the further properties

    Notions used by the properties that go beyond the claims: the table as a
    whole, the counts of the statistics, the stages of the processor, the
    endpoints and the listeners. *)

(** ** The job table as a whole *)

(** Every key of the table refers to an object, and the object carries the
    key as its [ingestionId]: what [triggerIngestion] establishes for the
    record it stores. *)
Definition well_keyed (w : World) : Prop :=
  ∀ key l, jobs w !! key = Some l → ∃ j, heap w !! l = Some j ∧ ingestionId j = key.

(** What a notification tells the main API: job, status and progress. *)
Definition notified (e : Event) : option (string * string * Z) :=
  match e with
  | EvPost _ _ _ (StatusBody p) _ => Some (n_ingestionId p, n_status p, n_progress p)
  | _ => None
  end.

(** What a [jobs.set] call stores, in the same terms. *)
Definition stored (e : Event) : option (string * string * Z) :=
  match e with
  | EvJobsSet key j => Some (key, status_name (status j), progress j)
  | _ => None
  end.

(** A progress report to the queue: [job.progress(value)], with the job id. *)
Definition queue_progress (e : Event) : option (nat * Z) :=
  match e with
  | EvBullProgress jobId value => Some (jobId, value)
  | _ => None
  end.

(** What the queue is told by one run of a handler on job [n]. *)
Definition queue_reports (R : Redis) (n : nat) : list (nat * Z) :=
  match progress_fails R n 0 with
  | Some _ => []
  | None => (n, 0%Z) :: match progress_fails R n 100 with
                        | Some _ => []
                        | None => [(n, 100%Z)]
                        end
  end.

(** Key and progress of a record stored by [jobs.set], and of a notification. *)
Definition written (e : Event) : option (string * Z) :=
  match e with
  | EvJobsSet key j => Some (key, progress j)
  | _ => None
  end.

Definition told (e : Event) : option (string * Z) :=
  match e with
  | EvPost _ _ _ (StatusBody p) _ => Some (n_ingestionId p, n_progress p)
  | _ => None
  end.

(** ** The counts of getQueueStats *)

(** The records the table refers to, as [jobs_values] reads them. *)
Definition table_values (w : World) : list IngestionJob :=
  omap (fun kl => heap w !! snd kl) (map_to_list (jobs w)).

(** The three counts that [ProcessingService.getQueueStats] takes of the
    table: jobs that are [queued] or [processing], [completed], [failed]. *)
Definition job_counts (st : ProcessingService.ServiceStats) : nat * nat * nat :=
  (ProcessingService.activeJobs st, ProcessingService.completedJobs st,
   ProcessingService.failedJobs st).

(** [getQueueStats] returns, changes nothing, and reports the counts [c],
    whatever lists the queue answers with. *)
Definition reports (w : World) (c : nat * nat * nat) : Prop :=
  ∀ ls, ∃ st, ProcessingService.getQueueStats (Ok ls) w = (Ok st, w) ∧ job_counts st = c.

(** What one record adds to the counts. *)
Definition counted_as (s : JobStatus) : nat * nat * nat :=
  match s with
  | queued | processing => (1, 0, 0)
  | completed => (0, 1, 0)
  | failed => (0, 0, 1)
  end.

Definition add_counts (a b : nat * nat * nat) : nat * nat * nat :=
  (fst (fst a) + fst (fst b), snd (fst a) + snd (fst b), snd a + snd b).

Fixpoint tally (js : list IngestionJob) : nat * nat * nat :=
  match js with
  | [] => (0, 0, 0)
  | j :: js' => add_counts (counted_as (status j)) (tally js')
  end.

(** ** The result of the processor, stage by stage *)

(** The stage called [name] ran to its end: it is enabled, and neither it
    nor an enabled stage before it threw. *)
Fixpoint ran (E : Env) (rows : list (bool * Z * string)) (name : string) : bool :=
  match rows with
  | [] => false
  | (c, _, n) :: rows' =>
      if c then
        match stage_fails E n with
        | Some _ => false
        | None => if String.eqb n name then true else ran E rows' name
        end
      else if String.eqb n name then false else ran E rows' name
  end.

(** What the body of a stage returns.  The bodies of the source read their
    arguments only, so any world serves. *)
Definition returned {A} (m : M A) : option A :=
  match fst (m empty_world) with
  | Ok v => Some v
  | Throw _ => None
  end.

(** The fields of [result], given which stages ran: each field holds what
    its stage returned, or is [undefined]; the keyword, summary and language
    stages are given [result.extractedText]. *)
Definition result_fields (did : string → bool) (job : Dto.DocumentProcessingJob)
    (r : Dto.ProcessingResult) : Prop :=
  Dto.r_documentId r = Dto.documentId job ∧
  Dto.extractedText r
  = (if did "extractText" then returned (DocumentProcessorService.extractText job)
     else None) ∧
  Dto.ocrText r
  = (if did "performOCR" then returned (DocumentProcessorService.performOCR job)
     else None) ∧
  Dto.keywords r
  = (if did "extractKeywords"
     then returned (DocumentProcessorService.extractKeywords job (Dto.extractedText r))
     else None) ∧
  Dto.summary r
  = (if did "generateSummary"
     then returned (DocumentProcessorService.generateSummary job (Dto.extractedText r))
     else None) ∧
  Dto.language r
  = (if did "detectLanguage"
     then returned (DocumentProcessorService.detectLanguage (Dto.extractedText r))
     else None).

(** The stages among the first [k] of the table that are enabled. *)
Definition enabled_upto (cfg : Dto.ProcessingConfig) (k : nat) (name : string) : bool :=
  match name with
  | "extractText" => (1 <=? k)%nat && Dto.extractText cfg
  | "performOCR" => (2 <=? k)%nat && Dto.performOCR cfg
  | "extractKeywords" => (3 <=? k)%nat && Dto.extractKeywords cfg
  | "generateSummary" => (4 <=? k)%nat && Dto.generateSummary cfg
  | "detectLanguage" => (5 <=? k)%nat && Dto.detectLanguage cfg
  | _ => false
  end.

(** The body of a stage returns what [returned] says, from every world, and
    leaves the world [after] tells. *)
Definition runs_as {A} (m : M A) (after : World → World) : Prop :=
  ∀ w, ∃ v, returned m = Some v ∧ m w = (Ok v, after w).

(** An HTTP request, by address and body. *)
Definition posted (e : Event) : option (string * Body) :=
  match e with
  | EvPost url _ _ body _ => Some (url, body)
  | _ => None
  end.

(** The address of the processor's callback. *)
Definition callback_url (E : Env) : string :=
  default "http://localhost:8080" (env_config E "MAIN_BACKEND_URL")
    +:+ "/api/v1/processing/callback".

(** Between [w] and [w'] the stores were left alone and no request was made. *)
Definition silent (w w' : World) : Prop :=
  jobs w' = jobs w ∧ heap w' = heap w ∧ queue w' = queue w ∧ posts w' = posts w ∧
  ∃ evs, trace w' = trace w ++ evs ∧ omap posted evs = [] ∧ omap queue_progress evs = [].

(** The state of the processor after [k] blocks, none of which threw. *)
Definition after_blocks (E : Env) (job : Dto.DocumentProcessingJob) (w : World) (k : nat)
    (s : Dto.ProcessingResult * World) : Prop :=
  result_fields (enabled_upto (Dto.config job) k) job (fst s) ∧
  silent w (snd s) ∧
  ∀ c p n, (c, p, n) ∈ take k (stage_rows (Dto.config job)) →
           c = true → stage_fails E n = None.

(** How the [k]-th block leaves the processor: it went on, or its stage
    threw. *)
Definition block_ends (E : Env) (job : Dto.DocumentProcessingJob) (w : World) (k : nat)
    (out : Res unit) (s : Dto.ProcessingResult * World) : Prop :=
  (out = Ok tt ∧ after_blocks E job w (S k) s)
  ∨ (∃ e p n post,
       out = Throw e ∧
       stage_rows (Dto.config job)
       = take k (stage_rows (Dto.config job)) ++ (true, p, n) :: post ∧
       stage_fails E n = Some e ∧
       after_blocks E job w k s).

(** How a run of the processor ends. *)
Definition run_ends (E : Env) (job : Dto.DocumentProcessingJob) (w : World)
    (out : Res Dto.ProcessingResult) (s : Dto.ProcessingResult * World) : Prop :=
  ∃ r,
    out = Ok r ∧
    result_fields (ran E (stage_rows (Dto.config job))) job r ∧
    jobs (snd s) = jobs w ∧ heap (snd s) = heap w ∧ queue (snd s) = queue w ∧
    posts (snd s) = S (posts w) ∧
    ∃ evs, trace (snd s) = trace w ++ evs ∧
           omap posted evs = [(callback_url E, CallbackBody (Dto.documentId job) r)] ∧
           omap queue_progress evs = [].

(** A job of the processor that asks for OCR and the text-based stages, but
    not for text extraction. *)
Definition ocr_job : Dto.DocumentProcessingJob :=
  {| Dto.documentId := "doc-2"; Dto.userId := "user-1"; Dto.fileName := "scan.png";
     Dto.fileType := "png"; Dto.fileSize := 4096; Dto.storagePath := "/uploads/scan.png";
     Dto.config := {| Dto.extractText := false; Dto.performOCR := true;
                      Dto.extractKeywords := true; Dto.generateSummary := true;
                      Dto.detectLanguage := true; Dto.enableSearch := false;
                      Dto.priority := Dto.normal |} |}.

(** ** The endpoints *)

(** The token the webhooks expect. *)
Definition expected_token (E : Env) : string :=
  default "main-api-token" (env_config E "SERVICE_TOKEN").

(** The token a request carries. *)
Definition token_of (e : Event) : option string :=
  match e with
  | EvPost _ token _ _ _ => Some token
  | _ => None
  end.

(** ** The callbacks of the queue listeners *)

(** Where the listeners send their callback, and with which token: both
    settings must be present and not empty. *)
Definition callback_target (E : Env) : option (string * string) :=
  match env_config E "MAIN_BACKEND_URL", env_config E "SERVICE_TOKEN" with
  | Some url, Some token =>
      if Js.truthy_str (Some url) && Js.truthy_str (Some token)
      then Some (url +:+ "/api/v1/processing/callback", token)
      else None
  | _, _ => None
  end.


(** ** Order of first occurrence *)

(** The distinct values of a list, each at the place of its first
    occurrence. *)
Fixpoint first_occurrences (l : list string) : list string :=
  match l with
  | [] => []
  | x :: l' => x :: filter (fun y => y ≠ x) (first_occurrences l')
  end.

(** [t] occurs in [l] at position [p] and nowhere before. *)
Definition first_at (l : list string) (t : string) (p : nat) : Prop :=
  l !! p = Some t ∧ ∀ q, q < p → l !! q ≠ Some t.

(** The values of [ks] come in the order in which they first occur in [l]. *)
Definition in_order_of_first_occurrence (ks l : list string) : Prop :=
  ∀ i j a b, ks !! i = Some a → ks !! j = Some b → i < j →
    ∃ p q, first_at l a p ∧ first_at l b q ∧ p < q.

(** * Properties *)

(** ** Sanity checks of the string model *)

Example split_plain : Js.split_ws "ab  cd" = ["ab"; "cd"].
Proof. reflexivity. Qed.

Example split_edges : Js.split_ws " a " = [""; "a"; ""].
Proof. reflexivity. Qed.

Example split_empty : Js.split_ws "" = [""].
Proof. reflexivity. Qed.

Example lower_mixed : Js.toLowerCase "Hello World" = "hello world".
Proof. reflexivity. Qed.

Example set_keeps_first : Js.new_Set ["b"; "a"; "b"; "c"; "a"] = ["b"; "a"; "c"].
Proof. vm_compute. reflexivity. Qed.

(** ** Facts about the string functions *)

Lemma lower_unit_idem (c : ascii) : Js.lower_unit (Js.lower_unit c) = Js.lower_unit c.
Proof. destruct c as [[] [] [] [] [] [] [] []]; vm_compute; reflexivity. Qed.

Lemma toLowerCase_idem (s : string) : Js.toLowerCase (Js.toLowerCase s) = Js.toLowerCase s.
Proof. induction s as [|c s IH]; simpl; [reflexivity|]. by rewrite lower_unit_idem, IH. Qed.

Lemma toLowerCase_app (s t : string) :
  Js.toLowerCase (s +:+ t) = Js.toLowerCase s +:+ Js.toLowerCase t.
Proof. induction s as [|c s IH]; simpl; [reflexivity|]. by rewrite IH. Qed.

Lemma split_go_lowercase (s cur : string) (b : bool) :
  is_lowercase s → is_lowercase cur → Forall is_lowercase (Js.split_go s cur b).
Proof.
  unfold is_lowercase. revert cur b.
  induction s as [|c s IH]; intros cur b Hs Hcur; simpl in *.
  - by constructor.
  - injection Hs as Hc Hs'.
    destruct (Js.is_ws c).
    + destruct b; [by apply IH|]. constructor; [done|]. by apply IH.
    + apply IH; [done|]. rewrite toLowerCase_app, Hcur. simpl. by rewrite Hc.
Qed.

Lemma split_ws_lowercase (s : string) :
  Forall is_lowercase (Js.split_ws (Js.toLowerCase s)).
Proof. apply split_go_lowercase; [apply toLowerCase_idem|reflexivity]. Qed.

Lemma set_add_spec (seen : list string) (x y : string) :
  y ∈ Js.set_add seen x ↔ y ∈ seen ∨ y = x.
Proof.
  unfold Js.set_add. case_decide as Hx.
  - split; [by left|]. intros [?| ->]; done.
  - rewrite elem_of_app, list_elem_of_singleton. done.
Qed.

Lemma set_add_NoDup (seen : list string) (x : string) :
  NoDup seen → NoDup (Js.set_add seen x).
Proof.
  intros Hnd. unfold Js.set_add. case_decide as Hx; [done|].
  apply NoDup_app. split_and!; [done| |apply NoDup_singleton].
  intros y Hy ->%list_elem_of_singleton. done.
Qed.

Lemma foldl_set_add_spec (xs seen : list string) (y : string) :
  y ∈ foldl Js.set_add seen xs ↔ y ∈ seen ∨ y ∈ xs.
Proof.
  revert seen. induction xs as [|x xs IH]; intros seen; simpl.
  - rewrite elem_of_nil. tauto.
  - rewrite IH, set_add_spec, elem_of_cons. tauto.
Qed.

Lemma foldl_set_add_NoDup (xs seen : list string) :
  NoDup seen → NoDup (foldl Js.set_add seen xs).
Proof.
  revert seen. induction xs as [|x xs IH]; intros seen Hnd; simpl; [done|].
  by apply IH, set_add_NoDup.
Qed.

Lemma new_Set_spec (xs : list string) (y : string) : y ∈ Js.new_Set xs ↔ y ∈ xs.
Proof. unfold Js.new_Set. rewrite foldl_set_add_spec, elem_of_nil. tauto. Qed.

Lemma new_Set_NoDup (xs : list string) : NoDup (Js.new_Set xs).
Proof. apply foldl_set_add_NoDup, NoDup_nil_2. Qed.

(** ** Keyword extraction *)

Lemma keywords_candidates (txt k : string) :
  k ∈ take 10 (filter long_token (Js.new_Set (tokens txt))) →
  k ∈ tokens txt ∧ long_token k ∧ is_lowercase k.
Proof.
  intros Hk.
  pose proof (elem_of_sublist _ _ _ Hk (sublist_take _ _)) as Hk'.
  apply list_elem_of_filter in Hk' as [Hlong Hin].
  apply (proj1 (new_Set_spec _ _)) in Hin.
  split_and!; [done|done|].
  pose proof (split_ws_lowercase txt) as Hall.
  rewrite Forall_forall in Hall. by apply Hall.
Qed.

Lemma keywords_nonempty (txt : string) :
  Exists long_token (tokens txt) →
  0 < length (take 10 (filter long_token (Js.new_Set (tokens txt)))).
Proof.
  intros (t & Ht & Hlong)%Exists_exists.
  assert (t ∈ filter long_token (Js.new_Set (tokens txt))) as Hin.
  { apply list_elem_of_filter. split; [done|]. by apply new_Set_spec. }
  destruct (filter long_token (Js.new_Set (tokens txt))) as [|x xs]; simpl.
  - by apply elem_of_nil in Hin.
  - lia.
Qed.

Lemma keywords_empty (txt : string) :
  ¬ Exists long_token (tokens txt) →
  take 10 (filter long_token (Js.new_Set (tokens txt))) = [].
Proof.
  intros Hno.
  destruct (filter long_token (Js.new_Set (tokens txt))) as [|x xs] eqn:Hf; [done|].
  exfalso. apply Hno, Exists_exists. exists x.
  assert (x ∈ filter long_token (Js.new_Set (tokens txt))) as Hin by (rewrite Hf; left).
  apply list_elem_of_filter in Hin as [? Hin]. by apply (proj1 (new_Set_spec _ _)) in Hin.
Qed.

(** C10 (amended): for every job and every text, [extractKeywords] returns.
    When the text is undefined or empty the result is
    ["document", "file", fileType].  For a non-empty text: if some token of
    the lowercased text is longer than 3, the result has between 1 and 10
    keywords, pairwise distinct, each a lowercase whitespace-delimited token
    of the text of length above 3; if no token is that long, the result is
    ["document", "content", "text"]. *)
Theorem C10_extractKeywords_result
    (job : Dto.DocumentProcessingJob) (text : option string) (w : World) :
  ∃ ks : list string,
    fst (DocumentProcessorService.extractKeywords job text w) = Ok ks ∧
    match text with
    | None => ks = ["document"; "file"; Dto.fileType job]
    | Some txt =>
        if decide (txt = "") then ks = ["document"; "file"; Dto.fileType job]
        else if decide (Exists long_token (tokens txt)) then
          0 < length ks ≤ 10 ∧ NoDup ks ∧
          Forall (fun k => k ∈ tokens txt ∧ long_token k ∧ is_lowercase k) ks
        else ks = ["document"; "content"; "text"]
    end.
Proof.
  unfold DocumentProcessorService.extractKeywords, bind, sleep, modify, ret, Js.slice0.
  destruct text as [txt|]; cbv beta iota; [|by eexists].
  unfold Js.truthy_str. fold (tokens txt). fold long_token.
  destruct (String.eqb_spec txt "") as [->|Hne]; cbn [negb].
  { eexists. split; [reflexivity|]. by rewrite decide_True. }
  eexists. split; [reflexivity|].
  rewrite decide_False by done.
  case_decide as Hex.
  - pose proof (keywords_nonempty txt Hex) as Hpos.
    assert ((0 <? length (take 10 (filter long_token (Js.new_Set (tokens txt)))))%nat = true)
      as -> by by apply Nat.ltb_lt.
    split_and!.
    + done.
    + rewrite length_take. lia.
    + eapply sublist_NoDup; [|apply sublist_take].
      apply NoDup_filter, new_Set_NoDup.
    + apply Forall_forall. intros k Hk. by apply keywords_candidates.
  - by rewrite keywords_empty.
Qed.

(** C10 as stated fails: the empty string is a defined text without any token
    longer than 3, and the result is ["document", "file", fileType], not
    ["document", "content", "text"]. *)
Lemma C10_empty_text_counterexample :
  ¬ (∀ (job : Dto.DocumentProcessingJob) (txt : string) (w : World),
       ¬ Exists long_token (tokens txt) →
       fst (DocumentProcessorService.extractKeywords job (Some txt) w)
       = Ok ["document"; "content"; "text"]).
Proof.
  intros H.
  specialize (H (sample_job "pdf") "" empty_world).
  assert (¬ Exists long_token (tokens "")) as Hno.
  { intros (t & Ht & Hlong)%Exists_exists.
    apply list_elem_of_singleton in Ht as ->. unfold long_token in Hlong. simpl in Hlong. lia. }
  specialize (H Hno). vm_compute in H. discriminate H.
Qed.

Example keywords_sample :
  fst (DocumentProcessorService.extractKeywords (sample_job "pdf")
         (Some "The Quick  brown fox JUMPS over the quick lazy dog") empty_world)
  = Ok ["quick"; "brown"; "jumps"; "over"; "lazy"].
Proof. vm_compute. reflexivity. Qed.

(** ** Running a computation: rules for [wp] *)

Lemma wp_ret {S A} (a : A) (s : S) Q : Q (Ok a) s → wp (ret a) s Q.
Proof. exact (fun H => H). Qed.

Lemma wp_throw {S A} (e : string) (s : S) (Q : Res A → S → Prop) :
  Q (Throw e) s → wp (throw e) s Q.
Proof. exact (fun H => H). Qed.

Lemma wp_bind {S A B} (m : ST S A) (k : A → ST S B) (s : S) Q :
  wp m s (fun r s' => match r with
                      | Ok a => wp (k a) s' Q
                      | Throw e => Q (Throw e) s'
                      end) →
  wp (bind m k) s Q.
Proof. unfold wp, bind. destruct (m s) as [[a|e] s']; simpl; auto. Qed.

Lemma wp_try {S A} (m : ST S A) (h : string → ST S A) (s : S) Q :
  wp m s (fun r s' => match r with
                      | Ok a => Q (Ok a) s'
                      | Throw e => wp (h e) s' Q
                      end) →
  wp (try_catch m h) s Q.
Proof. unfold wp, try_catch. destruct (m s) as [[a|e] s']; simpl; auto. Qed.

Lemma wp_gets {S A} (f : S → A) (s : S) Q : Q (Ok (f s)) s → wp (gets f) s Q.
Proof. exact (fun H => H). Qed.

Lemma wp_modify {S} (f : S → S) (s : S) Q : Q (Ok tt) (f s) → wp (modify f) s Q.
Proof. exact (fun H => H). Qed.

Lemma wp_run {S A} (m : ST S A) (s : S) (r : Res A) (s' : S) Q :
  m s = (r, s') → Q r s' → wp m s Q.
Proof. unfold wp. intros ->. auto. Qed.

Lemma wp_stage_work (E : Env) (name : string) (w : World) Q :
  (∀ e, stage_fails E name = Some e → Q (Throw e) w) →
  (stage_fails E name = None → Q (Ok tt) w) →
  wp (stage_work E name) w Q.
Proof. unfold wp, stage_work. destruct (stage_fails E name); simpl; auto. Qed.

Lemma wp_deref (l : loc) (j : IngestionJob) (w : World) Q :
  heap w !! l = Some j → Q (Ok j) w → wp (deref l) w Q.
Proof. unfold wp, deref. intros ->. auto. Qed.

Lemma wp_jobs_set (key : string) (l : loc) (j : IngestionJob) (w : World) Q :
  heap w !! l = Some j →
  Q (Ok tt) (emit (EvJobsSet key j) (set_jobs (insert key l) w)) →
  wp (jobs_set key l) w Q.
Proof. unfold wp, jobs_set. intros ->. auto. Qed.

Lemma wp_alloc (j : IngestionJob) (w : World) Q :
  Q (Ok (length (heap w))) (set_heap (fun h => h ++ [j]) w) → wp (alloc j) w Q.
Proof. exact (fun H => H). Qed.

(** *** The notifier always returns *)

(** Whatever the HTTP request does, [notifyMainAPI] returns normally, having
    counted the request and recorded it together with one log line. *)
Lemma notifyMainAPI_run E i st p r e w :
  ProcessingService.notifyMainAPI E i st p r e w =
  (Ok tt, emit (notify_log E i st (posts w))
            (emit (notify_post E i st p r e w) (count_post w))).
Proof.
  unfold ProcessingService.notifyMainAPI, try_catch, bind, config_get, ret, now, gets,
    http_post, notify_log, notify_level, notify_line, notify_post, log, log_error, modify.
  destruct (env_config E "MAIN_API_URL"), (env_config E "SERVICE_TOKEN"),
    (http_fails E (posts w)); reflexivity.
Qed.

Lemma wp_notify E i st p r e w Q :
  Q (Ok tt) (emit (notify_log E i st (posts w))
               (emit (notify_post E i st p r e w) (count_post w))) →
  wp (ProcessingService.notifyMainAPI E i st p r e) w Q.
Proof. unfold wp. rewrite notifyMainAPI_run. auto. Qed.

Lemma wp_addJob (queueName : string) (data : JobData) (w : World) Q :
  Q (Ok (added_job (nextJobId w) data))
    (emit (EvLog LOG ("Job added with ID: " +:+ pretty (nextJobId w)))
       (enqueue (added_job (nextJobId w) data)
          (emit (EvLog LOG ("Adding job to " +:+ queueName +:+ " queue:")) w))) →
  wp (QueueService.addJob queueName data None) w Q.
Proof. exact (fun H => H). Qed.

(** *** Stepping through a computation *)

Ltac world_simpl :=
  cbn [jobs heap queue clock posts trace nextJobId emit set_heap set_jobs set_clock
       count_post enqueue notify_post notify_log fst snd].

Ltac heap_lookup :=
  world_simpl; rewrite ?list_lookup_alter_eq;
  first
    [ match goal with H : heap _ !! _ = Some _ |- _ => rewrite H end; reflexivity
    | apply list_lookup_middle; reflexivity ].

Ltac wp_step :=
  cbv beta iota; world_simpl;
  lazymatch goal with
  | |- wp (bind _ _) _ _ => apply wp_bind
  | |- wp (try_catch _ _) _ _ => apply wp_try
  | |- wp (ret _) _ _ => apply wp_ret
  | |- wp (throw _) _ _ => apply wp_throw
  | |- wp (log _) _ _ => apply wp_modify
  | |- wp (log_error _) _ _ => apply wp_modify
  | |- wp (sleep _) _ _ => apply wp_modify
  | |- wp (assign _ _) _ _ => apply wp_modify
  | |- wp (DocumentProcessor.job_progress _ _) _ _ => apply wp_modify
  | |- wp (modify _) _ _ => apply wp_modify
  | |- wp now _ _ => apply wp_gets
  | |- wp (gets _) _ _ => apply wp_gets
  | |- wp (alloc _) _ _ => apply wp_alloc
  | |- wp (deref _) _ _ => eapply wp_deref; [heap_lookup|]
  | |- wp (jobs_set _ _) _ _ => eapply wp_jobs_set; [heap_lookup|]
  | |- wp (ProcessingService.notifyMainAPI _ _ _ _ _ _) _ _ => apply wp_notify
  | |- wp (QueueService.addJob _ _ None) _ _ => apply wp_addJob
  | |- wp (stage_work _ _) _ _ => apply wp_stage_work; [intros ? ?|intros ?]
  | |- wp (for_of _ _) _ _ =>
      cbn [for_of ProcessingService.ph_name ProcessingService.ph_progress
           ProcessingService.ph_duration]
  end.

Ltac wp_steps := repeat wp_step; cbv beta iota; world_simpl.

Lemma wp_returns {S A} (m : ST S A) (s : S) (a : A) (P : S → Prop) :
  wp m s (fun r s' => r = Ok a ∧ P s') → ∃ s', m s = (Ok a, s') ∧ P s'.
Proof.
  unfold wp. intros [Hr HP]. exists (snd (m s)). split; [|done].
  rewrite <- Hr. apply surjective_pairing.
Qed.

(** ** The job table *)

Lemma lookup_job_Some (w : World) (key : string) (j : IngestionJob) :
  lookup_job w key = Some j ↔ ∃ l, jobs w !! key = Some l ∧ heap w !! l = Some j.
Proof.
  unfold lookup_job. split.
  - destruct (jobs w !! key) as [l|]; [|done]. intros H. by exists l.
  - intros (l & -> & H). done.
Qed.

Lemma jobs_get_run (key : string) (w : World) :
  jobs_get key w = (Ok (match jobs w !! key with
                        | Some l => pair l <$> heap w !! l
                        | None => None
                        end), w).
Proof.
  unfold jobs_get, gets. destruct (jobs w !! key) as [l|]; [|done].
  by destruct (heap w !! l).
Qed.

Lemma jobs_get_absent (key : string) (w : World) :
  lookup_job w key = None → jobs_get key w = (Ok None, w).
Proof.
  unfold lookup_job. rewrite jobs_get_run.
  destruct (jobs w !! key) as [l|]; [|done]. by intros ->.
Qed.

Lemma jobs_get_present (key : string) (w : World) (l : loc) (j : IngestionJob) :
  jobs w !! key = Some l → heap w !! l = Some j → jobs_get key w = (Ok (Some (l, j)), w).
Proof. rewrite jobs_get_run. by intros -> ->. Qed.

(** ** triggerIngestion *)

Lemma triggerIngestion_run E doc i cfg w :
  ∃ w',
    ProcessingService.triggerIngestion E doc i cfg w
    = (Ok {| ProcessingService.jobId := i; ProcessingService.t_status := "queued" |}, w') ∧
    jobs w' = <[i := length (heap w)]> (jobs w) ∧
    heap w' = heap w ++ [fresh_job doc i cfg] ∧
    queue w' = queue w ++ [added_job (nextJobId w) (job_data doc i cfg)] ∧
    clock w' = clock w ∧
    ∃ evs, trace w' = trace w ++ evs ∧ omap job_set_of evs = [(i, fresh_job doc i cfg)].
Proof.
  apply wp_returns.
  unfold ProcessingService.triggerIngestion.
  wp_steps.
  split_and!; try reflexivity.
  eexists. split.
  - rewrite <- !app_assoc. reflexivity.
  - reflexivity.
Qed.

Lemma triggerIngestion_lookup E doc i cfg w :
  lookup_job (snd (ProcessingService.triggerIngestion E doc i cfg w)) i
  = Some (fresh_job doc i cfg).
Proof.
  destruct (triggerIngestion_run E doc i cfg w) as (w' & -> & Hj & Hh & _).
  apply lookup_job_Some. exists (length (heap w)). simpl. rewrite Hj, Hh. split.
  - apply lookup_insert_eq.
  - by apply list_lookup_middle.
Qed.

(** ** processDocument *)

Ltac use_faults :=
  repeat (cbn [scan ProcessingService.ph_name ProcessingService.ph_progress fst snd
               phase_records foldl map app];
          match goal with H : stage_fails _ _ = _ |- _ => rewrite H end);
  cbn [scan ProcessingService.ph_name ProcessingService.ph_progress fst snd
       phase_records foldl map app].

(** One run of [processDocument] on a stored job, whatever its status: the
    call returns, the table still maps the key to the same object, and the
    object and the [jobs.set] calls are those of the phases that completed
    followed by the completion or the failure. *)
Lemma processDocument_present E data w l j :
  jobs w !! d_ingestionId data = Some l →
  heap w !! l = Some j →
  ∃ w',
    ProcessingService.processDocument E data w = (Ok tt, w') ∧
    jobs w' !! d_ingestionId data = Some l ∧
    queue w' = queue w ∧
    ∃ tend evs,
      heap w' !! l = Some (final_job E (clock w) tend j) ∧
      trace w' = trace w ++ evs ∧
      omap job_set_of evs = expected_sets E (d_ingestionId data) (clock w) tend j.
Proof.
  intros Hj Hh. apply wp_returns.
  unfold ProcessingService.processDocument.
  apply wp_bind. eapply wp_run; [by apply jobs_get_present|].
  unfold ProcessingService.simulateProcessingPhases, ProcessingService.phases.
  wp_steps.
  all: (split_and!; [reflexivity|apply lookup_insert_eq|reflexivity|]).
  all: eexists _, _.
  all: unfold expected_sets, final_job, advanced, started, first_fault, phases_done,
         ProcessingService.phases.
  all: use_faults.
  all: (split_and!; [heap_lookup | rewrite <- !app_assoc; reflexivity | reflexivity]).
Qed.

Lemma processDocument_absent E data w :
  lookup_job w (d_ingestionId data) = None →
  ProcessingService.processDocument E data w
  = (Ok tt, emit (EvLog ERROR ("Job not found: " +:+ d_ingestionId data)) w).
Proof.
  intros Hno. unfold ProcessingService.processDocument, bind.
  by rewrite (jobs_get_absent _ _ Hno).
Qed.

(** [processDocument] never throws: every exception of its body is caught. *)
Lemma processDocument_returns E data w :
  fst (ProcessingService.processDocument E data w) = Ok tt.
Proof.
  destruct (lookup_job w (d_ingestionId data)) as [j|] eqn:Hlook.
  - apply lookup_job_Some in Hlook as (l & Hj & Hh).
    by destruct (processDocument_present E data w l j Hj Hh) as (w' & -> & _).
  - by rewrite processDocument_absent.
Qed.

Lemma advanced_progress (E : Env) (t : Z) (j : IngestionJob) :
  (10 ≤ progress (advanced E t j) ≤ 95)%Z.
Proof.
  unfold advanced, phases_done, ProcessingService.phases. cbn [scan ProcessingService.ph_name].
  repeat (match goal with |- context [stage_fails E ?n] => destruct (stage_fails E n) end;
          cbn [scan ProcessingService.ph_name fst snd foldl]);
    simpl; lia.
Qed.

Lemma final_job_terminal (E : Env) (t tend : Z) (j : IngestionJob) :
  is_terminal (status (final_job E t tend j)) = true.
Proof. unfold final_job. by destruct (first_fault E). Qed.

Lemma foldl_progress_keeps (ps : list ProcessingService.Phase) (j : IngestionJob) :
  let j' := foldl (fun a ph => with_progress (ProcessingService.ph_progress ph) a) j ps in
  status j' = status j ∧ result j' = result j ∧ error j' = error j
  ∧ ingestionId j' = ingestionId j.
Proof.
  revert j. induction ps as [|ph ps IH]; intros j; [done|].
  cbn [foldl]. destruct (IH (with_progress (ProcessingService.ph_progress ph) j))
    as (-> & -> & -> & ->). done.
Qed.

Lemma final_job_fields (E : Env) (t tend : Z) (j : IngestionJob) :
  match first_fault E with
  | None =>
      status (final_job E t tend j) = completed ∧
      progress (final_job E t tend j) = 100%Z ∧
      result (final_job E t tend j) = Some ProcessingService.sample_result ∧
      error (final_job E t tend j) = error j
  | Some e =>
      status (final_job E t tend j) = failed ∧
      progress (final_job E t tend j) = progress (advanced E t j) ∧
      result (final_job E t tend j) = result j ∧
      error (final_job E t tend j) = Some e
  end.
Proof.
  unfold final_job, advanced.
  destruct (foldl_progress_keeps (phases_done E) (started t j)) as (_ & Hres & Herr & _).
  destruct (first_fault E); cbn [status progress result error with_result with_progress
    with_completedAt with_status with_error]; split_and!; try reflexivity.
  - exact Hres.
  - exact Herr.
Qed.

Lemma final_job_ingestionId (E : Env) (t tend : Z) (j : IngestionJob) :
  ingestionId (final_job E t tend j) = ingestionId j.
Proof.
  unfold final_job, advanced.
  destruct (foldl_progress_keeps (phases_done E) (started t j)) as (_ & _ & _ & Hid).
  by destruct (first_fault E); cbn [ingestionId with_result with_progress with_completedAt
    with_status with_error]; rewrite Hid.
Qed.

Lemma wp_eq {S A} (m : ST S A) (s : S) (x : Res A * S) :
  wp m s (fun r s' => (r, s') = x) → m s = x.
Proof. unfold wp. by rewrite <- surjective_pairing. Qed.

Lemma wp_processDocument E data w Q :
  Q (Ok tt) (snd (ProcessingService.processDocument E data w)) →
  wp (ProcessingService.processDocument E data) w Q.
Proof. unfold wp. by rewrite processDocument_returns. Qed.

(** ** The handler of the queue *)

(** [handleDocumentProcessing] returns normally on every queue item: nothing
    that [processDocument] does reaches its [catch]. *)
Lemma handleDocumentProcessing_run E (bj : BullJob JobData) w :
  DocumentProcessor.handleDocumentProcessing E bj w =
  (Ok handled,
   emit (EvLog LOG ("Job " +:+ pretty (bj_id bj) +:+ " completed successfully"))
     (emit (EvBullProgress (bj_id bj) 100)
        (snd (ProcessingService.processDocument E (bj_data bj)
                (emit (EvBullProgress (bj_id bj) 0)
                   (emit (EvLog LOG ("Processing job " +:+ pretty (bj_id bj) +:+ " with data:"))
                      w)))))).
Proof.
  apply wp_eq. unfold DocumentProcessor.handleDocumentProcessing.
  repeat first [wp_step | apply wp_processDocument].
  reflexivity.
Qed.

(** ** The worker *)

Lemma settle_returning {D R} (handler : BullJob D → M R) (job : BullJob D) w r w' :
  handler job w = (Ok r, w') → Bull.settle handler job w = (Bull.Ack r, job, w').
Proof. unfold Bull.settle. by intros ->. Qed.

Lemma process_returning {D R} (handler : BullJob D → M R) (job : BullJob D) w r w' :
  bj_attemptsMade job < bj_attempts job →
  handler job w = (Ok r, w') →
  Bull.process handler job w = ([Bull.Ack r], job, w').
Proof.
  intros Hlt Hrun. unfold Bull.process.
  destruct (bj_attempts job - bj_attemptsMade job) as [|n] eqn:Hn; [lia|].
  cbn [Bull.work]. by rewrite (settle_returning _ _ _ _ _ Hrun).
Qed.

(** The worker model does retry: a handler that throws every time is run
    until the attempts are used up, waits between the runs, and the entry is
    dead-lettered after the last one. *)
Lemma work_throwing {D R} (e : string) (fuel : nat) (job : BullJob D) (w : World) :
  bj_attemptsMade job + S fuel = bj_attempts job →
  ∃ job' w',
    Bull.work (R := R) (S fuel) (fun _ => throw e) job w
    = (map (fun k => Bull.Retry
                       (Bull.backoff_delay (bj_backoff job) k) e)
           (seq (S (bj_attemptsMade job)) fuel)
       ++ [Bull.DeadLetter e], job', w') ∧
    bj_attemptsMade job' = bj_attempts job.
Proof.
  revert job w. induction fuel as [|fuel IH]; intros job w Hleft.
  - cbn [Bull.work Bull.settle throw Bull.failed_once bj_attemptsMade bj_attempts].
    assert ((S (bj_attemptsMade job) <? bj_attempts job)%nat = false) as ->
      by (apply Nat.ltb_ge; lia).
    eexists _, _. split; [reflexivity|]. simpl. lia.
  - remember (S fuel) as n.
    cbn [Bull.work Bull.settle throw Bull.failed_once bj_attemptsMade bj_attempts bj_backoff].
    assert ((S (bj_attemptsMade job) <? bj_attempts job)%nat = true) as ->
      by (apply Nat.ltb_lt; lia).
    subst n.
    edestruct (IH (Bull.failed_once job)) as (job' & w' & -> & Hmade).
    { simpl. lia. }
    eexists _, _. split; [reflexivity|]. exact Hmade.
Qed.

(** ** Over a Redis that may fail *)

(** With a Redis that answers every call these are the methods written
    above. *)
Lemma answering_methods :
  (∀ q d o, OnRedis.QueueService.addJob answering q d o = QueueService.addJob q d o) ∧
  (∀ E doc i cfg,
     OnRedis.ProcessingService.triggerIngestion answering E doc i cfg
     = ProcessingService.triggerIngestion E doc i cfg) ∧
  (∀ E bj,
     OnRedis.DocumentProcessor.handleDocumentProcessing answering E bj
     = DocumentProcessor.handleDocumentProcessing E bj) ∧
  (∀ E bj,
     OnRedis.QueueConsumerService.processDocument answering E bj
     = QueueConsumerService.processDocument E bj).
Proof. done. Qed.

Lemma addJob_accepted R queueName data w :
  add_fails R (nextJobId w) = None →
  OnRedis.QueueService.addJob R queueName data None w
  = QueueService.addJob queueName data None w.
Proof.
  intros Hadd. unfold OnRedis.QueueService.addJob, QueueService.addJob, bind, log, modify, gets.
  cbn [nextJobId emit]. by rewrite Hadd.
Qed.

Lemma addJob_rejected R queueName data w e :
  add_fails R (nextJobId w) = Some e →
  OnRedis.QueueService.addJob R queueName data None w
  = (Throw e, emit (EvLog LOG ("Adding job to " +:+ queueName +:+ " queue:")) w).
Proof.
  intros Hadd. unfold OnRedis.QueueService.addJob, bind, log, modify, gets.
  cbn [nextJobId emit]. by rewrite Hadd.
Qed.

Lemma wp_addJob_on R (queueName : string) (data : JobData) (w : World) Q :
  (add_fails R (nextJobId w) = None →
   Q (Ok (added_job (nextJobId w) data))
     (emit (EvLog LOG ("Job added with ID: " +:+ pretty (nextJobId w)))
        (enqueue (added_job (nextJobId w) data)
           (emit (EvLog LOG ("Adding job to " +:+ queueName +:+ " queue:")) w)))) →
  (∀ e, add_fails R (nextJobId w) = Some e →
        Q (Throw e) (emit (EvLog LOG ("Adding job to " +:+ queueName +:+ " queue:")) w)) →
  wp (OnRedis.QueueService.addJob R queueName data None) w Q.
Proof.
  intros Hok Hno. unfold wp.
  destruct (add_fails R (nextJobId w)) as [e|] eqn:Hadd.
  - rewrite (addJob_rejected _ _ _ _ e Hadd). by apply Hno.
  - rewrite (addJob_accepted _ _ _ _ Hadd). by apply Hok.
Qed.

(** A call whose queue item is accepted goes as on a Redis that answers. *)
Lemma triggerIngestion_accepted R E doc i cfg w :
  add_fails R (nextJobId w) = None →
  OnRedis.ProcessingService.triggerIngestion R E doc i cfg w
  = ProcessingService.triggerIngestion E doc i cfg w.
Proof.
  intros Hadd.
  apply wp_eq. unfold OnRedis.ProcessingService.triggerIngestion.
  repeat wp_step. apply wp_addJob_on; [intros _|intros e He; cbn [nextJobId emit set_jobs set_heap] in He; congruence].
  wp_steps.
  symmetry. apply wp_eq. unfold ProcessingService.triggerIngestion. wp_steps. reflexivity.
Qed.

(** A call whose queue item is rejected: the record is stored, and that is all. *)
Lemma triggerIngestion_rejected R E doc i cfg w e :
  add_fails R (nextJobId w) = Some e →
  OnRedis.ProcessingService.triggerIngestion R E doc i cfg w
  = (Throw e,
     emit (EvLog LOG "Adding job to document-processing queue:")
       (emit (EvJobsSet i (fresh_job doc i cfg))
          (set_jobs (insert i (length (heap w)))
             (set_heap (fun h => h ++ [fresh_job doc i cfg])
                (emit (EvLog LOG ("Triggering ingestion for document: " +:+ doc)) w))))).
Proof.
  intros Hadd.
  apply wp_eq. unfold OnRedis.ProcessingService.triggerIngestion.
  repeat wp_step. apply wp_addJob_on; [intros He; cbn [nextJobId emit set_jobs set_heap] in He; congruence|].
  world_simpl. intros e' He'. rewrite Hadd in He'. injection He' as <-.
  reflexivity.
Qed.

(** One run of [handleDocumentProcessing], by the two [job.progress] calls. *)
Lemma handleDocumentProcessing_on_run R E (bj : BullJob JobData) w :
  let w0 := emit (EvLog LOG ("Processing job " +:+ pretty (bj_id bj) +:+ " with data:")) w in
  let w1 := snd (ProcessingService.processDocument E (bj_data bj)
                   (emit (EvBullProgress (bj_id bj) 0) w0)) in
  let failed_line := EvLog ERROR ("Job " +:+ pretty (bj_id bj) +:+ " failed:") in
  OnRedis.DocumentProcessor.handleDocumentProcessing R E bj w =
  match progress_fails R (bj_id bj) 0 with
  | Some e => (Throw e, emit failed_line w0)
  | None =>
      match progress_fails R (bj_id bj) 100 with
      | Some e => (Throw e, emit failed_line w1)
      | None =>
          (Ok handled,
           emit (EvLog LOG ("Job " +:+ pretty (bj_id bj) +:+ " completed successfully"))
             (emit (EvBullProgress (bj_id bj) 100) w1))
      end
  end.
Proof.
  cbv zeta.
  unfold OnRedis.DocumentProcessor.handleDocumentProcessing,
    OnRedis.DocumentProcessor.job_progress, try_catch, bind, log, log_error, modify, throw, ret.
  destruct (progress_fails R (bj_id bj) 0) as [e|]; [reflexivity|].
  match goal with |- context [ProcessingService.processDocument E ?d ?w0] =>
    pose proof (processDocument_returns E d w0) as Hret;
    destruct (ProcessingService.processDocument E d w0) as [r w1]
  end.
  cbn [fst snd] in *. subst r.
  by destruct (progress_fails R (bj_id bj) 100).
Qed.

(** A run of a handler whose two [job.progress] calls resolve goes as on a
    Redis that answers. *)
Lemma handlers_when_progress_resolves R E :
  (∀ (bj : BullJob JobData) w,
     progress_fault R (bj_id bj) = None →
     OnRedis.DocumentProcessor.handleDocumentProcessing R E bj w
     = DocumentProcessor.handleDocumentProcessing E bj w) ∧
  (∀ (bj : BullJob Dto.DocumentProcessingJob) w,
     progress_fault R (bj_id bj) = None →
     OnRedis.QueueConsumerService.processDocument R E bj w
     = QueueConsumerService.processDocument E bj w).
Proof.
  unfold progress_fault. split; intros bj w Hprog.
  - unfold OnRedis.DocumentProcessor.handleDocumentProcessing,
      DocumentProcessor.handleDocumentProcessing, OnRedis.DocumentProcessor.job_progress,
      DocumentProcessor.job_progress.
    destruct (progress_fails R (bj_id bj) 0); [done|]. by rewrite Hprog.
  - unfold OnRedis.QueueConsumerService.processDocument,
      QueueConsumerService.processDocument, OnRedis.DocumentProcessor.job_progress,
      DocumentProcessor.job_progress.
    destruct (progress_fails R (bj_id bj) 0); [done|]. by rewrite Hprog.
Qed.

Lemma settle_throwing {D A} (handler : BullJob D → M A) (job : BullJob D) w e w' :
  handler job w = (Throw e, w') →
  Bull.settle handler job w = (failed_attempt job e, w').
Proof.
  unfold Bull.settle, failed_attempt. intros ->.
  cbn [Bull.failed_once bj_attemptsMade bj_attempts bj_backoff].
  by destruct (S (bj_attemptsMade job) <? bj_attempts job)%nat.
Qed.

Lemma failures_throwing {A} (f : nat → Bull.Disposition A) (ks : list nat) (e : string) :
  (∀ k, Bull.is_failure (f k) = true) →
  Bull.failures (map f ks ++ [Bull.DeadLetter e]) = S (length ks).
Proof.
  intros Hf. unfold Bull.failures. induction ks as [|k ks IH]; [done|].
  cbn [map app List.filter]. rewrite Hf. cbn [length]. by rewrite IH.
Qed.

(** A handler that throws every time fails as often as attempts are left. *)
Lemma process_throwing {D A} (e : string) (job : BullJob D) (w : World) :
  bj_attemptsMade job < bj_attempts job →
  Bull.failures (fst (fst (Bull.process (R := A) (fun _ => throw e) job w)))
  = bj_attempts job - bj_attemptsMade job.
Proof.
  intros Hlt. unfold Bull.process.
  destruct (bj_attempts job - bj_attemptsMade job) as [|fuel] eqn:Hleft; [lia|].
  destruct (work_throwing (R := A) e fuel job w) as (job' & w' & -> & _); [lia|].
  cbn [fst]. rewrite failures_throwing by done. by rewrite length_seq.
Qed.

(** ** cancelIngestion *)

Lemma cancel_guard (s : JobStatus) :
  bool_decide (s = completed) || bool_decide (s = failed) = is_terminal s.
Proof. by destruct s. Qed.

Lemma cancelIngestion_noop E key w :
  match lookup_job w key with
  | None => True
  | Some j => is_terminal (status j) = true
  end →
  ProcessingService.cancelIngestion E key w
  = (Ok {| ProcessingService.cancelled := false |}, w).
Proof.
  intros Hcase. unfold ProcessingService.cancelIngestion, bind.
  destruct (lookup_job w key) as [j|] eqn:Hlook.
  - apply lookup_job_Some in Hlook as (l & Hj & Hh).
    rewrite (jobs_get_present _ _ _ _ Hj Hh), cancel_guard, Hcase. reflexivity.
  - by rewrite (jobs_get_absent _ _ Hlook).
Qed.

Lemma cancelIngestion_active E key w l j :
  jobs w !! key = Some l →
  heap w !! l = Some j →
  is_terminal (status j) = false →
  ∃ w',
    ProcessingService.cancelIngestion E key w
    = (Ok {| ProcessingService.cancelled := true |}, w') ∧
    jobs w' = <[key := l]> (jobs w) ∧
    heap w' = alter (cancelled_job (clock w)) l (heap w) ∧
    queue w' = queue w ∧ nextJobId w' = nextJobId w ∧ clock w' = clock w ∧
    ∃ evs, trace w' = trace w ++ evs
           ∧ omap job_set_of evs = [(key, cancelled_job (clock w) j)].
Proof.
  intros Hj Hh Hlive. apply wp_returns.
  unfold ProcessingService.cancelIngestion.
  apply wp_bind. eapply wp_run; [by apply jobs_get_present|].
  cbv beta iota. rewrite cancel_guard, Hlive.
  wp_steps.
  split_and!; try reflexivity.
  - rewrite !list_alter_alter_eq. reflexivity.
  - eexists. split; [rewrite <- !app_assoc; reflexivity|reflexivity].
Qed.

Lemma cancelIngestion_lookup E key w j :
  lookup_job w key = Some j →
  is_terminal (status j) = false →
  ∃ w',
    ProcessingService.cancelIngestion E key w
    = (Ok {| ProcessingService.cancelled := true |}, w') ∧
    lookup_job w' key = Some (cancelled_job (clock w) j) ∧
    queue w' = queue w.
Proof.
  intros (l & Hj & Hh)%lookup_job_Some Hlive.
  destruct (cancelIngestion_active E key w l j Hj Hh Hlive)
    as (w' & Hrun & Hjobs & Hheap & Hq & _).
  exists w'. split_and!; [done| |done].
  apply lookup_job_Some. exists l. rewrite Hjobs, Hheap. split.
  - apply lookup_insert_eq.
  - by rewrite list_lookup_alter_eq, Hh.
Qed.

(** ** Claims about cancellation *)




Lemma status_name_never_cancelled (s : JobStatus) : status_name s ≠ "cancelled".
Proof. by destruct s. Qed.

(** C6: [cancelIngestion] answers [{cancelled: false}] exactly when the key
    is unknown to the table or the job is already [completed] or [failed], and
    then nothing at all changes; in every other case it answers
    [{cancelled: true}]. *)
Theorem C6_cancel_false_iff_unknown_or_terminal (E : Env) (key : string) (w : World) :
  let out := ProcessingService.cancelIngestion E key w in
  (fst out = Ok {| ProcessingService.cancelled := false |}
   ∨ fst out = Ok {| ProcessingService.cancelled := true |}) ∧
  (fst out = Ok {| ProcessingService.cancelled := false |}
   ↔ lookup_job w key = None
     ∨ ∃ j, lookup_job w key = Some j ∧ is_terminal (status j) = true) ∧
  (fst out = Ok {| ProcessingService.cancelled := false |} → snd out = w).
Proof.
  cbv zeta.
  destruct (lookup_job w key) as [j|] eqn:Hlook.
  - destruct (is_terminal (status j)) eqn:Hterm.
    + rewrite cancelIngestion_noop by (rewrite Hlook; done).
      split_and!; [by left| |done]. split; [|done]. intros _. right. by exists j.
    + destruct (cancelIngestion_lookup E key w j Hlook Hterm) as (w' & -> & _).
      split_and!; [by right| |done]. split; [done|].
      intros [?|(j0 & [= <-] & Hj0)]; congruence.
  - rewrite cancelIngestion_noop by (rewrite Hlook; done).
    split_and!; [by left| |done]. split; [|done]. intros _. by left.
Qed.

(** ** Claims about admission *)

(** C9 (amended): whatever the table holds under [ingestionId], the call
    replaces the record by a fresh one (status [queued], progress 0, no
    dates, no error, no result).  When the queue accepts the item, one new
    item carrying [{ingestionId, documentId, config}] joins the queue, one
    notification goes out and the call returns [{jobId: ingestionId, status:
    'queued'}].  When [documentQueue.add] rejects, the call rejects with
    that error: the fresh record stays in the table, nothing is enqueued
    and nothing is notified. *)
Theorem C9_trigger_replaces_and_enqueues
    (R : Redis) (E : Env) (documentId ingestionId : string)
    (config : option IngestionConfigDto) (w : World) :
  let out := OnRedis.ProcessingService.triggerIngestion R E documentId ingestionId config w in
  let w' := snd out in
  lookup_job w' ingestionId
  = Some {| id := ingestionId; documentId := documentId; ingestionId := ingestionId;
            config := config; status := queued; progress := 0;
            startedAt := None; completedAt := None; error := None; result := None |} ∧
  match add_fails R (nextJobId w) with
  | None =>
      fst out = Ok {| ProcessingService.jobId := ingestionId;
                      ProcessingService.t_status := "queued" |} ∧
      posts w' = S (posts w) ∧
      ∃ item,
        queue w' = queue w ++ [item] ∧
        bj_data item = {| d_ingestionId := ingestionId; d_documentId := documentId;
                          d_config := config |} ∧
        bj_id item = nextJobId w ∧
        bj_attempts item = 3 ∧ bj_attemptsMade item = 0
  | Some e =>
      fst out = Throw e ∧ queue w' = queue w ∧ posts w' = posts w
  end.
Proof.
  cbv zeta. destruct (add_fails R (nextJobId w)) as [e|] eqn:Hadd.
  - rewrite (triggerIngestion_rejected _ _ _ _ _ _ e Hadd). cbn [fst snd]. split; [|done].
    apply lookup_job_Some. exists (length (heap w)). world_simpl. split.
    + apply lookup_insert_eq.
    + by apply list_lookup_middle.
  - rewrite (triggerIngestion_accepted _ _ _ _ _ _ Hadd).
    pose proof (triggerIngestion_lookup E documentId ingestionId config w) as Hlook.
    split; [exact Hlook|].
    assert (posts (snd (ProcessingService.triggerIngestion E documentId ingestionId config w))
            = S (posts w)) as Hposts.
    { change (wp (ProcessingService.triggerIngestion E documentId ingestionId config) w
                (fun _ w' => posts w' = S (posts w))).
      unfold ProcessingService.triggerIngestion. wp_steps. reflexivity. }
    destruct (triggerIngestion_run E documentId ingestionId config w)
      as (w' & Hrun & _ & _ & Hq & _).
    rewrite Hrun in Hposts |- *. cbn [fst snd] in *. split_and!; [done|exact Hposts|].
    eexists. split; [exact Hq|]. done.
Qed.

(** C9 as stated fails: with a Redis that is down the call neither returns
    nor enqueues anything. *)
Lemma C9_rejected_add_counterexample :
  ¬ (∀ (R : Redis) (E : Env) (documentId ingestionId : string)
       (config : option IngestionConfigDto) (w : World),
       ∃ w',
         OnRedis.ProcessingService.triggerIngestion R E documentId ingestionId config w
         = (Ok {| ProcessingService.jobId := ingestionId;
                  ProcessingService.t_status := "queued" |}, w') ∧
         ∃ item, queue w' = queue w ++ [item]).
Proof.
  intros H.
  destruct (H (down "Connection is closed.") quiet "doc-1" "ing-1" None empty_world)
    as (w' & Hrun & _).
  vm_compute in Hrun. discriminate Hrun.
Qed.

(** A table that already holds a completed job under the key. *)
Example trigger_over_completed_job :
  let w1 := snd (DocumentProcessor.handleDocumentProcessing quiet
                   (added_job 1 (job_data "doc-1" "ing-1" None)) one_job) in
  let out := ProcessingService.triggerIngestion quiet "doc-2" "ing-1" None w1 in
  (status <$> lookup_job w1 "ing-1") = Some completed ∧
  fst out = Ok {| ProcessingService.jobId := "ing-1"; ProcessingService.t_status := "queued" |} ∧
  lookup_job (snd out) "ing-1" = Some (fresh_job "doc-2" "ing-1" None) ∧
  length (queue (snd out)) = 2.
Proof. vm_compute. done. Qed.

(** The same on a table that holds a completed job under the key: the
    completed record is gone although the call failed. *)
Example rejected_trigger_over_completed_job :
  let w1 := snd (DocumentProcessor.handleDocumentProcessing quiet
                   (added_job 1 (job_data "doc-1" "ing-1" None)) one_job) in
  let out := OnRedis.ProcessingService.triggerIngestion (down "Connection is closed.")
               quiet "doc-2" "ing-1" None w1 in
  (status <$> lookup_job w1 "ing-1") = Some completed ∧
  fst out = Throw "Connection is closed." ∧
  lookup_job (snd out) "ing-1" = Some (fresh_job "doc-2" "ing-1" None) ∧
  queue (snd out) = queue w1 ∧ posts (snd out) = posts w1.
Proof. vm_compute. done. Qed.

(** ** Claims about the worker *)


(** One run of the handler on an item whose job is in the table. *)
Lemma handle_present E (bj : BullJob JobData) w j :
  lookup_job w (d_ingestionId (bj_data bj)) = Some j →
  ∃ tend evs,
    lookup_job (snd (DocumentProcessor.handleDocumentProcessing E bj w))
               (d_ingestionId (bj_data bj))
    = Some (final_job E (clock w) tend j) ∧
    trace (snd (DocumentProcessor.handleDocumentProcessing E bj w)) = trace w ++ evs ∧
    omap job_set_of evs = expected_sets E (d_ingestionId (bj_data bj)) (clock w) tend j.
Proof.
  intros (l & Hj & Hh)%lookup_job_Some.
  rewrite handleDocumentProcessing_run. cbn [snd].
  match goal with |- context [ProcessingService.processDocument E ?d ?w0] =>
    destruct (processDocument_present E d w0 l j Hj Hh)
      as (w' & -> & Hj' & _ & tend & evs & Hh' & Htr & Hsets)
  end.
  exists tend. eexists. split_and!.
  - apply lookup_job_Some. exists l. done.
  - world_simpl. rewrite Htr. world_simpl. rewrite <- !app_assoc. reflexivity.
  - rewrite !omap_app. cbn [omap list_omap job_set_of app]. by rewrite app_nil_r.
Qed.

Lemma handle_lookup_present E (bj : BullJob JobData) w j :
  lookup_job w (d_ingestionId (bj_data bj)) = Some j →
  ∃ tend,
    lookup_job (snd (DocumentProcessor.handleDocumentProcessing E bj w))
               (d_ingestionId (bj_data bj))
    = Some (final_job E (clock w) tend j).
Proof.
  intros Hlook. destruct (handle_present E bj w j Hlook) as (tend & _ & Hl & _).
  by exists tend.
Qed.

(** C8 (amended): every claimed entry is settled as an acknowledgement, a
    retry or a dead-letter: it is acknowledged when both [job.progress]
    calls resolve, and counts as a failed attempt with the error of the
    first that rejects otherwise.  When the item's [ingestionId] is in the
    table and [processDocument] is reached, the job ends the run
    [completed] or [failed].  When it is not in the table,
    [processDocument] logs "Job not found" and returns: the table, the
    records, the queue and the number of notifications are unchanged,
    however the entry is settled. *)
Theorem C8_claimed_item_is_settled (R : Redis) (E : Env) (bj : BullJob JobData) (w : World) :
  let key := d_ingestionId (bj_data bj) in
  let out := Bull.settle (OnRedis.DocumentProcessor.handleDocumentProcessing R E) bj w in
  let w' := snd out in
  fst out = match progress_fault R (bj_id bj) with
            | None => (Bull.Ack handled, bj)
            | Some e => failed_attempt bj e
            end ∧
  match lookup_job w key with
  | Some _ =>
      progress_fails R (bj_id bj) 0 = None →
      ∃ j', lookup_job w' key = Some j' ∧ is_terminal (status j') = true
  | None =>
      jobs w' = jobs w ∧ heap w' = heap w ∧ queue w' = queue w ∧ posts w' = posts w
  end.
Proof.
  cbv zeta. pose proof (handleDocumentProcessing_on_run R E bj w) as Hrun. cbv zeta in Hrun.
  unfold progress_fault.
  assert (∀ w0, lookup_job w (d_ingestionId (bj_data bj)) = None →
            jobs w0 = jobs w → heap w0 = heap w → queue w0 = queue w → posts w0 = posts w →
            let w1 := snd (ProcessingService.processDocument E (bj_data bj) w0) in
            jobs w1 = jobs w ∧ heap w1 = heap w ∧ queue w1 = queue w ∧ posts w1 = posts w)
    as Habsent.
  { intros w0 Hno Hj Hh Hq Hp. cbv zeta. rewrite processDocument_absent.
    - by world_simpl.
    - unfold lookup_job in *. by rewrite Hj, Hh. }
  assert (∀ j w0, lookup_job w (d_ingestionId (bj_data bj)) = Some j →
            jobs w0 = jobs w → heap w0 = heap w →
            ∃ j', lookup_job (snd (ProcessingService.processDocument E (bj_data bj) w0))
                    (d_ingestionId (bj_data bj)) = Some j'
                  ∧ is_terminal (status j') = true) as Hpresent.
  { intros j w0 Hlook Hj Hh.
    assert (lookup_job w0 (d_ingestionId (bj_data bj)) = Some j) as Hlook0
      by (unfold lookup_job in *; by rewrite Hj, Hh).
    apply lookup_job_Some in Hlook0 as (l & Hjl & Hhl).
    destruct (processDocument_present E (bj_data bj) w0 l j Hjl Hhl)
      as (w1 & -> & Hj1 & _ & tend & evs & Hh1 & _).
    exists (final_job E (clock w0) tend j). split; [|apply final_job_terminal].
    apply lookup_job_Some. by exists l. }
  destruct (progress_fails R (bj_id bj) 0) as [e0|] eqn:H0.
  - rewrite (settle_throwing _ _ _ _ _ Hrun). cbn [fst snd]. split; [done|].
    destruct (lookup_job w (d_ingestionId (bj_data bj))); [done|]. by world_simpl.
  - destruct (progress_fails R (bj_id bj) 100) as [e1|] eqn:H1.
    + rewrite (settle_throwing _ _ _ _ _ Hrun). cbn [fst snd]. split; [done|].
      destruct (lookup_job w (d_ingestionId (bj_data bj))) as [j|] eqn:Hlook.
      * intros _. world_simpl. by eapply Hpresent.
      * world_simpl. by apply Habsent.
    + rewrite (settle_returning _ _ _ _ _ Hrun). cbn [fst snd]. split; [done|].
      destruct (lookup_job w (d_ingestionId (bj_data bj))) as [j|] eqn:Hlook.
      * intros _. destruct (Hpresent j
          (emit (EvBullProgress (bj_id bj) 0)
             (emit (EvLog LOG ("Processing job " +:+ pretty (bj_id bj) +:+ " with data:")) w))
          eq_refl eq_refl eq_refl) as (j' & Hl & Hterm).
        exists j'. split; [|done]. unfold lookup_job in *. by world_simpl.
      * world_simpl. by apply Habsent.
Qed.

(** C8 as stated fails: an item whose [ingestionId] is not in the table is
    acknowledged although no outcome of the job is on record: no record in
    the table, no notification. *)
Lemma C8_unknown_job_counterexample :
  ¬ (∀ (E : Env) (bj : BullJob JobData) (w : World),
       outcome_recorded (d_ingestionId (bj_data bj)) w
         (snd (Bull.settle (DocumentProcessor.handleDocumentProcessing E) bj w))).
Proof.
  intros H.
  destruct (H quiet (added_job 7 (job_data "doc-9" "ghost" None)) empty_world)
    as [(j' & Hl & _)|Hposts].
  - vm_compute in Hl. discriminate Hl.
  - vm_compute in Hposts. lia.
Qed.

(** C2 (the code departs from the claim): a job is admitted, cancelled while
    still queued, which makes it [failed] with progress 0, and its queue item,
    which [cancelIngestion] leaves in the queue, is then handled.  The terminal
    record is overwritten: its progress is at least 10 afterwards, and when
    no phase throws it is [completed] with progress 100 and a result, the
    error 'Cancelled by user' still in place. *)
Theorem C2_terminal_record_is_overwritten
    (E : Env) (documentId ingestionId : string) (config : option IngestionConfigDto)
    (w : World) :
  let item := added_job (nextJobId w) (job_data documentId ingestionId config) in
  let w1 := snd (ProcessingService.triggerIngestion E documentId ingestionId config w) in
  let w2 := snd (ProcessingService.cancelIngestion E ingestionId w1) in
  let w3 := snd (DocumentProcessor.handleDocumentProcessing E item w2) in
  queue w2 = queue w ++ [item] ∧
  (∃ j2, lookup_job w2 ingestionId = Some j2 ∧
         status j2 = failed ∧ progress j2 = 0%Z ∧
         error j2 = Some "Cancelled by user" ∧ result j2 = None) ∧
  (∃ j3, lookup_job w3 ingestionId = Some j3 ∧
         (10 ≤ progress j3)%Z ∧
         match first_fault E with
         | None =>
             status j3 = completed ∧ progress j3 = 100%Z ∧
             result j3 = Some ProcessingService.sample_result ∧
             error j3 = Some "Cancelled by user"
         | Some e => status j3 = failed ∧ error j3 = Some e
         end).
Proof.
  cbv zeta.
  pose proof (triggerIngestion_lookup E documentId ingestionId config w) as Hl1.
  destruct (triggerIngestion_run E documentId ingestionId config w)
    as (w1 & Hrun1 & _ & _ & Hq1 & _).
  rewrite Hrun1 in Hl1 |- *. cbn [snd] in Hl1 |- *.
  destruct (cancelIngestion_lookup E ingestionId w1 _ Hl1 eq_refl)
    as (w2 & Hrun2 & Hl2 & Hq2).
  rewrite Hrun2. cbn [snd].
  split_and!.
  - by rewrite Hq2, Hq1.
  - eexists. split; [exact Hl2|]. done.
  - destruct (handle_lookup_present E
                (added_job (nextJobId w) (job_data documentId ingestionId config))
                w2 _ Hl2) as (tend & Hl3).
    eexists. split; [exact Hl3|].
    pose proof (final_job_fields E (clock w2) tend
                  (cancelled_job (clock w1) (fresh_job documentId ingestionId config)))
      as Hfields.
    pose proof (advanced_progress E (clock w2)
                  (cancelled_job (clock w1) (fresh_job documentId ingestionId config)))
      as Hadv.
    destruct (first_fault E) as [e|].
    + destruct Hfields as (Hs & Hp & _ & He). rewrite Hp. split; [lia|]. done.
    + destruct Hfields as (Hs & Hp & Hr & He). rewrite Hp. split; [lia|]. done.
Qed.

(** The same on a concrete table. *)
Example cancelled_job_ends_completed :
  let w2 := snd (ProcessingService.cancelIngestion quiet "ing-1" one_job) in
  let w3 := snd (DocumentProcessor.handleDocumentProcessing quiet
                   (added_job 1 (job_data "doc-1" "ing-1" None)) w2) in
  (status <$> lookup_job w2 "ing-1") = Some failed ∧
  (progress <$> lookup_job w2 "ing-1") = Some 0%Z ∧
  (status <$> lookup_job w3 "ing-1") = Some completed ∧
  (progress <$> lookup_job w3 "ing-1") = Some 100%Z ∧
  (error <$> lookup_job w3 "ing-1") = Some (Some "Cancelled by user").
Proof. vm_compute. done. Qed.

(** A phase that throws: one run of the handler, an acknowledgement, and a
    job that is [failed] at the progress of the last completed phase. *)
Example failing_phase_single_attempt :
  let E := failing "Content Analysis" "analysis backend unavailable" in
  let out := Bull.process (DocumentProcessor.handleDocumentProcessing E)
               (added_job 1 (job_data "doc-1" "ing-1" None)) one_job in
  fst (fst out) = [Bull.Ack handled] ∧
  (status <$> lookup_job (snd out) "ing-1") = Some failed ∧
  (progress <$> lookup_job (snd out) "ing-1") = Some 40%Z ∧
  (error <$> lookup_job (snd out) "ing-1") = Some (Some "analysis backend unavailable").
Proof. vm_compute. done. Qed.

(** With the queue's options a handler that threw every time would be run 3
    times, after waits of 2000 and 6000 ms. *)
Example throwing_handler_three_attempts :
  fst (fst (Bull.process (R := unit) (fun _ => throw "boom")
              (added_job 1 (job_data "doc-1" "ing-1" None)) one_job))
  = [Bull.Retry 2000 "boom"; Bull.Retry 6000 "boom"; Bull.DeadLetter "boom"].
Proof. vm_compute. reflexivity. Qed.

(** ** Two runs that differ in the network only: rules for [sim] *)

Section Sim.
Context {S : Type} (R : S → S → Prop).

Lemma sim_ret {A} (a : A) : sim R (ret a) (ret a).
Proof. intros s1 s2 HR. done. Qed.

Lemma sim_throw {A} (e : string) : sim R (throw (A := A) e) (throw e).
Proof. intros s1 s2 HR. done. Qed.

Lemma sim_bind {A B} (m1 m2 : ST S A) (k1 k2 : A → ST S B) :
  sim R m1 m2 → (∀ a, sim R (k1 a) (k2 a)) → sim R (bind m1 k1) (bind m2 k2).
Proof.
  intros Hm Hk s1 s2 HR. unfold bind.
  destruct (Hm s1 s2 HR) as [Hres HR'].
  destruct (m1 s1) as [[a|e] s1'], (m2 s2) as [[a'|e'] s2']; simplify_eq/=; [|done].
  by apply Hk.
Qed.

Lemma sim_try {A} (m1 m2 : ST S A) (h1 h2 : string → ST S A) :
  sim R m1 m2 → (∀ e, sim R (h1 e) (h2 e)) → sim R (try_catch m1 h1) (try_catch m2 h2).
Proof.
  intros Hm Hh s1 s2 HR. unfold try_catch.
  destruct (Hm s1 s2 HR) as [Hres HR'].
  destruct (m1 s1) as [[a|e] s1'], (m2 s2) as [[a'|e'] s2']; simplify_eq/=; [done|].
  by apply Hh.
Qed.

Lemma sim_when (c : bool) (m1 m2 : ST S unit) :
  sim R m1 m2 → sim R (when c m1) (when c m2).
Proof. intros Hm. destruct c; [done|apply sim_ret]. Qed.

Lemma sim_for_of {A} (xs : list A) (b1 b2 : A → ST S unit) :
  (∀ x, sim R (b1 x) (b2 x)) → sim R (for_of xs b1) (for_of xs b2).
Proof.
  intros Hb. induction xs as [|x xs IH]; cbn [for_of].
  - apply sim_ret.
  - apply sim_bind; [apply Hb|]. intros _. exact IH.
Qed.

Lemma sim_gets {A} (f : S → A) :
  (∀ s1 s2, R s1 s2 → f s1 = f s2) → sim R (gets f) (gets f).
Proof. intros Hf s1 s2 HR. split; [|done]. simpl. f_equal. by apply Hf. Qed.

Lemma sim_modify (f1 f2 : S → S) :
  (∀ s1 s2, R s1 s2 → R (f1 s1) (f2 s2)) → sim R (modify f1) (modify f2).
Proof. intros Hf s1 s2 HR. split; [done|]. by apply Hf. Qed.

End Sim.

Lemma same_store_emit e1 e2 w1 w2 :
  same_store w1 w2 → same_store (emit e1 w1) (emit e2 w2).
Proof. intros H. exact H. Qed.

Lemma sim_log msg : sim same_store (log msg) (log msg).
Proof. apply sim_modify. intros. by apply same_store_emit. Qed.

Lemma sim_log_error msg : sim same_store (log_error msg) (log_error msg).
Proof. apply sim_modify. intros. by apply same_store_emit. Qed.

Lemma sim_emit e : sim same_store (modify (emit e)) (modify (emit e)).
Proof. apply sim_modify. intros. by apply same_store_emit. Qed.

Lemma sim_sleep ms : sim same_store (sleep ms) (sleep ms).
Proof.
  apply sim_modify. intros w1 w2 (? & ? & ? & ? & Hc).
  unfold same_store. simpl. rewrite Hc. done.
Qed.

Lemma sim_now : sim same_store now now.
Proof. apply sim_gets. by intros w1 w2 (? & ? & ? & ? & ?). Qed.

Lemma sim_assign l f : sim same_store (assign l f) (assign l f).
Proof.
  apply sim_modify. intros w1 w2 (? & Hh & ? & ? & ?).
  unfold same_store. simpl. rewrite Hh. done.
Qed.

Lemma sim_alloc j : sim same_store (alloc j) (alloc j).
Proof.
  intros w1 w2 (? & Hh & ? & ? & ?). unfold alloc, same_store. simpl.
  rewrite Hh. done.
Qed.

Lemma sim_deref l : sim same_store (deref l) (deref l).
Proof.
  intros w1 w2 HR. pose proof HR as (? & Hh & ? & ? & ?). unfold deref.
  rewrite Hh. by destruct (heap w2 !! l).
Qed.

Lemma sim_jobs_get key : sim same_store (jobs_get key) (jobs_get key).
Proof.
  apply sim_gets. intros w1 w2 (Hj & Hh & ? & ? & ?). by rewrite Hj, Hh.
Qed.

Lemma sim_jobs_set key l : sim same_store (jobs_set key l) (jobs_set key l).
Proof.
  intros w1 w2 (Hj & Hh & ? & ? & ?). unfold jobs_set. split; [done|].
  cbn [snd]. rewrite Hh.
  destruct (heap w2 !! l); unfold same_store; simpl; by rewrite Hj.
Qed.

Lemma sim_stage_work h1 h2 E name :
  sim same_store (stage_work (with_http h1 E) name) (stage_work (with_http h2 E) name).
Proof.
  unfold stage_work. cbn [with_http stage_fails].
  destruct (stage_fails E name); [apply sim_throw|apply sim_ret].
Qed.

Lemma sim_addJob q data o : sim same_store (QueueService.addJob q data o) (QueueService.addJob q data o).
Proof.
  unfold QueueService.addJob.
  apply sim_bind; [apply sim_log|]. intros _.
  apply sim_bind; [apply sim_gets; by intros w1 w2 (? & ? & ? & ? & ?)|]. intros n.
  apply sim_bind.
  { apply sim_modify. intros w1 w2 (? & ? & Hq & Hn & ?).
    unfold same_store. simpl. rewrite Hq, Hn. done. }
  intros _. apply sim_bind; [apply sim_log|]. intros _. apply sim_ret.
Qed.

(** The notifier returns in both runs and touches nothing of the store. *)
Lemma sim_notify h1 h2 E i st p r e :
  sim same_store (ProcessingService.notifyMainAPI (with_http h1 E) i st p r e)
                 (ProcessingService.notifyMainAPI (with_http h2 E) i st p r e).
Proof. intros w1 w2 HR. rewrite !notifyMainAPI_run. split; [done|]. exact HR. Qed.

Ltac sim_step :=
  lazymatch goal with
  | |- sim _ (bind _ _) (bind _ _) => apply sim_bind; [|intros ?]
  | |- sim _ (try_catch _ _) (try_catch _ _) => apply sim_try; [|intros ?]
  | |- sim _ (for_of _ _) (for_of _ _) => apply sim_for_of; intros ?
  | |- sim _ (when _ _) (when _ _) => apply sim_when
  | |- sim _ (ret _) (ret _) => apply sim_ret
  | |- sim _ (throw _) (throw _) => apply sim_throw
  | |- sim _ (log _) (log _) => apply sim_log
  | |- sim _ (log_error _) (log_error _) => apply sim_log_error
  | |- sim _ (sleep _) (sleep _) => apply sim_sleep
  | |- sim _ now now => apply sim_now
  | |- sim _ (assign _ _) (assign _ _) => apply sim_assign
  | |- sim _ (alloc _) (alloc _) => apply sim_alloc
  | |- sim _ (deref _) (deref _) => apply sim_deref
  | |- sim _ (jobs_get _) (jobs_get _) => apply sim_jobs_get
  | |- sim _ (jobs_set _ _) (jobs_set _ _) => apply sim_jobs_set
  | |- sim _ (stage_work _ _) (stage_work _ _) => apply sim_stage_work
  | |- sim _ (QueueService.addJob _ _ _) (QueueService.addJob _ _ _) => apply sim_addJob
  | |- sim _ (ProcessingService.notifyMainAPI _ _ _ _ _ _)
             (ProcessingService.notifyMainAPI _ _ _ _ _ _) => apply sim_notify
  | |- sim _ (match ?x with Some _ => _ | None => _ end) _ => destruct x as [[? ?]|]
  | |- sim _ (if ?c then _ else _) _ => destruct c
  end.

Lemma sim_triggerIngestion h1 h2 E doc i cfg :
  sim same_store (ProcessingService.triggerIngestion (with_http h1 E) doc i cfg)
                 (ProcessingService.triggerIngestion (with_http h2 E) doc i cfg).
Proof. unfold ProcessingService.triggerIngestion. repeat sim_step. Qed.

Lemma sim_processDocument h1 h2 E data :
  sim same_store (ProcessingService.processDocument (with_http h1 E) data)
                 (ProcessingService.processDocument (with_http h2 E) data).
Proof.
  unfold ProcessingService.processDocument, ProcessingService.simulateProcessingPhases.
  repeat sim_step.
Qed.

Lemma sim_cancelIngestion h1 h2 E key :
  sim same_store (ProcessingService.cancelIngestion (with_http h1 E) key)
                 (ProcessingService.cancelIngestion (with_http h2 E) key).
Proof. unfold ProcessingService.cancelIngestion. repeat sim_step. Qed.

Lemma same_store_refl w : same_store w w.
Proof. done. Qed.

Lemma same_store_lookup w1 w2 key :
  same_store w1 w2 → lookup_job w1 key = lookup_job w2 key.
Proof. intros (Hj & Hh & _). unfold lookup_job. by rewrite Hj, Hh. Qed.

(** *** The processor's callback *)

(** Whatever the HTTP request does, [sendProcessingCallback] returns. *)
Lemma sendProcessingCallback_run E docId r w :
  DocumentProcessorService.sendProcessingCallback E docId r w =
  (Ok tt, emit (callback_log E docId (posts w)) (emit (callback_post E docId r w) (count_post w))).
Proof.
  unfold DocumentProcessorService.sendProcessingCallback, try_catch, bind, config_get, ret,
    http_post, callback_log, callback_post, log, log_error, modify.
  destruct (env_config E "MAIN_BACKEND_URL"), (env_config E "SERVICE_TOKEN"),
    (http_fails E (posts w)); reflexivity.
Qed.

Lemma sim_inW {A} (m1 m2 : M A) :
  sim same_store m1 m2 →
  sim same_result (DocumentProcessorService.inW m1) (DocumentProcessorService.inW m2).
Proof.
  intros Hm [r1 w1] [r2 w2] [Hr HR]. simpl in *.
  destruct (Hm w1 w2 HR) as [Hres HR']. unfold DocumentProcessorService.inW. simpl.
  split; [done|]. split; done.
Qed.

Lemma sim_get_result :
  sim same_result DocumentProcessorService.get_result DocumentProcessorService.get_result.
Proof. apply sim_gets. by intros s1 s2 [? _]. Qed.

Lemma sim_set_result f :
  sim same_result (DocumentProcessorService.set_result f)
                  (DocumentProcessorService.set_result f).
Proof.
  apply sim_modify. intros s1 s2 [Hr HR]. split; simpl; [by rewrite Hr|done].
Qed.

Lemma sim_callback h1 h2 E docId r :
  sim same_store (DocumentProcessorService.sendProcessingCallback (with_http h1 E) docId r)
                 (DocumentProcessorService.sendProcessingCallback (with_http h2 E) docId r).
Proof. intros w1 w2 HR. rewrite !sendProcessingCallback_run. split; [done|]. exact HR. Qed.

Ltac sim_step2 :=
  first
    [ sim_step
    | lazymatch goal with
      | |- sim _ (DocumentProcessorService.inW _) (DocumentProcessorService.inW _) =>
          apply sim_inW
      | |- sim _ DocumentProcessorService.get_result _ => apply sim_get_result
      | |- sim _ (DocumentProcessorService.set_result _) _ => apply sim_set_result
      | |- sim _ (DocumentProcessorService.sendProcessingCallback _ _ _) _ =>
          apply sim_callback
      | |- sim _ (DocumentProcessorService.updateProgress _ _ _) _ => apply sim_emit
      | |- sim _ (DocumentProcessor.job_progress _ _) _ => apply sim_emit
      | |- sim _ (DocumentProcessorService.stage _ _ _) _ =>
          unfold DocumentProcessorService.stage
      | |- sim _ (DocumentProcessorService.extractText _) _ =>
          unfold DocumentProcessorService.extractText
      | |- sim _ (DocumentProcessorService.performOCR _) _ =>
          unfold DocumentProcessorService.performOCR
      | |- sim _ (DocumentProcessorService.extractKeywords _ ?t) _ =>
          unfold DocumentProcessorService.extractKeywords; destruct t
      | |- sim _ (DocumentProcessorService.generateSummary _ ?t) _ =>
          unfold DocumentProcessorService.generateSummary; destruct t
      | |- sim _ (DocumentProcessorService.detectLanguage ?t) _ =>
          unfold DocumentProcessorService.detectLanguage; destruct t
      | |- sim _ (DocumentProcessorService.indexForSearch _ _) _ =>
          unfold DocumentProcessorService.indexForSearch
      end ].

Lemma sim_processor h1 h2 E job :
  sim same_store (DocumentProcessorService.processDocument (with_http h1 E) job)
                 (DocumentProcessorService.processDocument (with_http h2 E) job).
Proof.
  assert (∀ t, sim same_result
            (try_catch (DocumentProcessorService.pipeline (with_http h1 E) job t)
                       (DocumentProcessorService.on_error (with_http h1 E) job t))
            (try_catch (DocumentProcessorService.pipeline (with_http h2 E) job t)
                       (DocumentProcessorService.on_error (with_http h2 E) job t))) as Hbody.
  { intros t. unfold DocumentProcessorService.pipeline, DocumentProcessorService.on_error.
    repeat sim_step2. }
  intros w1 w2 HR. unfold DocumentProcessorService.processDocument.
  pose proof HR as (_ & _ & _ & _ & Hclock). rewrite Hclock.
  match goal with |- context [try_catch ?b ?h (?r, w1)] =>
    destruct (Hbody (clock w2) (r, w1) (r, w2)) as [Hres [_ HR']]; [by split|]
  end.
  cbn [fst snd]. split; [exact Hres|exact HR'].
Qed.

Lemma sim_consumer h1 h2 E (bj : BullJob Dto.DocumentProcessingJob) :
  sim same_store (QueueConsumerService.processDocument (with_http h1 E) bj)
                 (QueueConsumerService.processDocument (with_http h2 E) bj).
Proof.
  unfold QueueConsumerService.processDocument.
  repeat first [sim_step2 | apply sim_processor].
Qed.

(** ** Claim about notification failures *)

(** C7: an HTTP failure never escapes the notifying function: for every
    environment [notifyMainAPI] and [sendProcessingCallback] return normally.
    Moreover two runs of [triggerIngestion], [processDocument],
    [cancelIngestion] or the processor's [processDocument] that differ only in
    how the HTTP requests end return the same value and leave the same record
    under every key, so the stored status, progress, result and error are
    what they are when every notification succeeds. *)
Theorem C7_notification_failure_is_not_fatal
    (E : Env) (h1 h2 : nat → option string) (w : World) :
  (∀ i st p r e, fst (ProcessingService.notifyMainAPI E i st p r e w) = Ok tt) ∧
  (∀ d r, fst (DocumentProcessorService.sendProcessingCallback E d r w) = Ok tt) ∧
  (∀ doc i cfg key,
     fst (ProcessingService.triggerIngestion (with_http h1 E) doc i cfg w)
     = fst (ProcessingService.triggerIngestion (with_http h2 E) doc i cfg w) ∧
     lookup_job (snd (ProcessingService.triggerIngestion (with_http h1 E) doc i cfg w)) key
     = lookup_job (snd (ProcessingService.triggerIngestion (with_http h2 E) doc i cfg w)) key) ∧
  (∀ data key,
     fst (ProcessingService.processDocument (with_http h1 E) data w)
     = fst (ProcessingService.processDocument (with_http h2 E) data w) ∧
     lookup_job (snd (ProcessingService.processDocument (with_http h1 E) data w)) key
     = lookup_job (snd (ProcessingService.processDocument (with_http h2 E) data w)) key) ∧
  (∀ i key,
     fst (ProcessingService.cancelIngestion (with_http h1 E) i w)
     = fst (ProcessingService.cancelIngestion (with_http h2 E) i w) ∧
     lookup_job (snd (ProcessingService.cancelIngestion (with_http h1 E) i w)) key
     = lookup_job (snd (ProcessingService.cancelIngestion (with_http h2 E) i w)) key) ∧
  (∀ job,
     fst (DocumentProcessorService.processDocument (with_http h1 E) job w)
     = fst (DocumentProcessorService.processDocument (with_http h2 E) job w)).
Proof.
  split_and!.
  - intros. by rewrite notifyMainAPI_run.
  - intros. by rewrite sendProcessingCallback_run.
  - intros doc i cfg key.
    destruct (sim_triggerIngestion h1 h2 E doc i cfg w w (same_store_refl w)) as [Hres HR].
    split; [exact Hres|]. by apply same_store_lookup.
  - intros data key.
    destruct (sim_processDocument h1 h2 E data w w (same_store_refl w)) as [Hres HR].
    split; [exact Hres|]. by apply same_store_lookup.
  - intros i key.
    destruct (sim_cancelIngestion h1 h2 E i w w (same_store_refl w)) as [Hres HR].
    split; [exact Hres|]. by apply same_store_lookup.
  - intros job.
    by destruct (sim_processor h1 h2 E job w w (same_store_refl w)) as [Hres _].
Qed.

(** A network that fails on every request against one that never does. *)
Example all_notifications_fail :
  let down := with_http (fun _ => Some "ETIMEDOUT") quiet in
  let item := added_job 1 (job_data "doc-1" "ing-1" None) in
  lookup_job (snd (DocumentProcessor.handleDocumentProcessing down item one_job)) "ing-1"
  = lookup_job (snd (DocumentProcessor.handleDocumentProcessing quiet item one_job)) "ing-1"
  ∧ (status <$> lookup_job (snd (DocumentProcessor.handleDocumentProcessing down item one_job))
                  "ing-1") = Some completed.
Proof. vm_compute. done. Qed.

(** ** Progress reports of the processor: rules for [emits] *)

Section Emits.
Context {S : Type} (tr : S → list Event).

Lemma emits_silent {A} (m : ST S A) :
  (∀ s, tr (snd (m s)) = tr s) → emits tr m [].
Proof. intros H s. exists []. rewrite H, app_nil_r. done. Qed.

Lemma emits_ret {A} (a : A) : emits tr (ret a) [].
Proof. by apply emits_silent. Qed.

Lemma emits_throw {A} (e : string) : emits tr (throw (A := A) e) [].
Proof. by apply emits_silent. Qed.

Lemma emits_gets {A} (f : S → A) : emits tr (gets f) [].
Proof. by apply emits_silent. Qed.

Lemma emits_bind {A B} (m : ST S A) (k : A → ST S B) (L1 L2 : list Z) :
  emits tr m L1 → (∀ a, emits tr (k a) L2) → emits tr (bind m k) (L1 ++ L2).
Proof.
  intros Hm Hk s. unfold bind.
  destruct (Hm s) as (evs1 & Htr1 & Hsub1).
  destruct (m s) as [[a|e] s1]; cbn [snd] in *.
  - destruct (Hk a s1) as (evs2 & Htr2 & Hsub2).
    exists (evs1 ++ evs2). rewrite Htr2, Htr1, app_assoc. split; [done|].
    rewrite omap_app. by apply sublist_app.
  - exists evs1. split; [done|]. by apply sublist_inserts_r.
Qed.

Lemma emits_try {A} (m : ST S A) (h : string → ST S A) (L1 L2 : list Z) :
  emits tr m L1 → (∀ e, emits tr (h e) L2) → emits tr (try_catch m h) (L1 ++ L2).
Proof.
  intros Hm Hh s. unfold try_catch.
  destruct (Hm s) as (evs1 & Htr1 & Hsub1).
  destruct (m s) as [[a|e] s1]; cbn [snd] in *.
  - exists evs1. split; [done|]. by apply sublist_inserts_r.
  - destruct (Hh e s1) as (evs2 & Htr2 & Hsub2).
    exists (evs1 ++ evs2). rewrite Htr2, Htr1, app_assoc. split; [done|].
    rewrite omap_app. by apply sublist_app.
Qed.

Lemma emits_when (c : bool) (m : ST S unit) (L : list Z) :
  emits tr m L → emits tr (when c m) L.
Proof.
  intros Hm. destruct c; [done|]. intros s. exists []. rewrite app_nil_r.
  split; [done|]. apply sublist_nil_l.
Qed.

Lemma emits_weaken {A} (m : ST S A) (L L' : list Z) :
  emits tr m L → L `sublist_of` L' → emits tr m L'.
Proof.
  intros Hm Hsub s. destruct (Hm s) as (evs & Htr & Hevs).
  exists evs. split; [done|]. by etrans.
Qed.

End Emits.

Lemma emits_emit (e : Event) :
  emits trace (modify (emit e)) (omap progress_of [e]).
Proof. intros w. exists [e]. done. Qed.

Lemma emits_log msg : emits trace (log msg) [].
Proof. intros w. by exists [EvLog LOG msg]. Qed.

Lemma emits_log_error msg : emits trace (log_error msg) [].
Proof. intros w. by exists [EvLog ERROR msg]. Qed.

Lemma emits_updateProgress d p step :
  emits trace (DocumentProcessorService.updateProgress d p step) [p].
Proof. apply emits_emit. Qed.

Lemma emits_job_progress {D} (job : BullJob D) v :
  emits trace (DocumentProcessor.job_progress job v) [v].
Proof. apply (emits_emit (EvBullProgress (bj_id job) v)). Qed.

Lemma emits_sleep ms : emits trace (sleep ms) [].
Proof. by apply emits_silent. Qed.

Lemma emits_stage_work E name : emits trace (stage_work E name) [].
Proof. apply emits_silent. intros w. unfold stage_work. by destruct (stage_fails E name). Qed.

Lemma emits_callback E docId r :
  emits trace (DocumentProcessorService.sendProcessingCallback E docId r) [].
Proof.
  intros w. rewrite sendProcessingCallback_run. world_simpl.
  eexists. split; [by rewrite <- app_assoc|].
  unfold callback_log, callback_post. by destruct (http_fails E (posts w)).
Qed.

Lemma emits_inW {A} (m : M A) (L : list Z) :
  emits trace m L → emits (fun s => trace (snd s)) (DocumentProcessorService.inW m) L.
Proof. intros Hm [r w]. exact (Hm w). Qed.

Lemma emits_set_result f :
  emits (fun s => trace (snd s)) (DocumentProcessorService.set_result f) [].
Proof. by apply emits_silent. Qed.

Ltac emits_step :=
  lazymatch goal with
  | |- emits _ (bind _ _) _ => eapply emits_bind; [|intros ?]
  | |- emits _ (try_catch _ _) _ => eapply emits_try; [|intros ?]
  | |- emits _ (when _ _) _ => eapply emits_when
  | |- emits _ (ret _) _ => apply emits_ret
  | |- emits _ (throw _) _ => apply emits_throw
  | |- emits _ (gets _) _ => apply emits_gets
  | |- emits _ now _ => apply emits_gets
  | |- emits _ DocumentProcessorService.get_result _ => apply emits_gets
  | |- emits _ (DocumentProcessorService.set_result _) _ => apply emits_set_result
  | |- emits _ (DocumentProcessorService.inW _) _ => eapply emits_inW
  | |- emits _ (log _) _ => apply emits_log
  | |- emits _ (log_error _) _ => apply emits_log_error
  | |- emits _ (sleep _) _ => apply emits_sleep
  | |- emits _ (DocumentProcessorService.updateProgress _ _ _) _ =>
      apply emits_updateProgress
  | |- emits _ (DocumentProcessor.job_progress _ _) _ => apply emits_job_progress
  | |- emits _ (stage_work _ _) _ => apply emits_stage_work
  | |- emits _ (DocumentProcessorService.sendProcessingCallback _ _ _) _ =>
      apply emits_callback
  | |- emits _ (DocumentProcessorService.stage _ _ _) _ =>
      unfold DocumentProcessorService.stage
  | |- emits _ (DocumentProcessorService.extractText _) _ =>
      unfold DocumentProcessorService.extractText
  | |- emits _ (DocumentProcessorService.performOCR _) _ =>
      unfold DocumentProcessorService.performOCR
  | |- emits _ (DocumentProcessorService.extractKeywords _ ?t) _ =>
      unfold DocumentProcessorService.extractKeywords; destruct t
  | |- emits _ (DocumentProcessorService.generateSummary _ ?t) _ =>
      unfold DocumentProcessorService.generateSummary; destruct t
  | |- emits _ (DocumentProcessorService.detectLanguage ?t) _ =>
      unfold DocumentProcessorService.detectLanguage; destruct t
  | |- emits _ (DocumentProcessorService.indexForSearch _ _) _ =>
      unfold DocumentProcessorService.indexForSearch
  | |- emits _ (if ?c then _ else _) _ => destruct c
  end.

Lemma emits_pipeline E job t :
  emits (fun s => trace (snd s))
        (try_catch (DocumentProcessorService.pipeline E job t)
                   (DocumentProcessorService.on_error E job t))
        checkpoints.
Proof.
  eapply emits_weaken.
  - unfold DocumentProcessorService.pipeline, DocumentProcessorService.on_error.
    repeat emits_step.
  - simpl. reflexivity.
Qed.

Lemma emits_processor E job :
  emits trace (DocumentProcessorService.processDocument E job) checkpoints.
Proof.
  intros w. unfold DocumentProcessorService.processDocument. cbn [snd].
  match goal with |- context [try_catch ?b ?h (?r, w)] =>
    destruct (emits_pipeline E job (clock w) (r, w)) as (evs & Htr & Hsub)
  end.
  exists evs. split; [exact Htr|exact Hsub].
Qed.

Lemma emits_consumer E (bj : BullJob Dto.DocumentProcessingJob) :
  emits trace (QueueConsumerService.processDocument E bj) (0%Z :: checkpoints ++ [100%Z]).
Proof.
  eapply emits_weaken.
  - unfold QueueConsumerService.processDocument.
    repeat first [emits_step | apply emits_processor].
  - simpl. reflexivity.
Qed.

(** A subsequence of a non-decreasing list is non-decreasing. *)
Lemma sublist_nondecreasing (l k : list Z) :
  l `sublist_of` k → StronglySorted Z.le k → StronglySorted Z.le l.
Proof.
  intros Hsub. induction Hsub as [|x l k Hsub IH|x l k Hsub IH]; intros Hk.
  - constructor.
  - apply StronglySorted_inv in Hk as [Hk Hall]. constructor; [by apply IH|].
    rewrite Forall_forall in Hall |- *. intros y Hy. apply Hall.
    by eapply elem_of_sublist.
  - apply StronglySorted_inv in Hk as [Hk _]. by apply IH.
Qed.

Lemma sublist_Forall_range (l k : list Z) (P : Z → Prop) :
  l `sublist_of` k → Forall P k → Forall P l.
Proof.
  intros Hsub Hk. rewrite Forall_forall in Hk |- *. intros y Hy.
  apply Hk. by eapply elem_of_sublist.
Qed.

(** ** Progress written to the job table *)

Lemma live_progress_sets (key : string) (evs : list Event) (js : list IngestionJob) :
  omap job_set_of evs = map (pair key) js →
  live_progress key evs = omap live_value js.
Proof.
  unfold live_progress. revert js.
  induction evs as [|e evs IH]; intros js Hsets.
  - by destruct js.
  - destruct e; cbn [omap list_omap job_set_of live_write] in *; try by apply IH.
    destruct js as [|j js]; [done|]. injection Hsets as -> -> Hsets.
    rewrite decide_True by done.
    cbn [omap list_omap]. rewrite (IH js Hsets). done.
Qed.

Lemma phase_records_live (j : IngestionJob) (ps : list ProcessingService.Phase) :
  is_terminal (status j) = false →
  omap live_value (phase_records j ps) = map ProcessingService.ph_progress ps.
Proof.
  revert j. induction ps as [|ph ps IH]; intros j Hlive; [done|].
  cbn [phase_records omap list_omap map]. unfold live_value at 1.
  cbn [status with_progress progress]. rewrite Hlive.
  by rewrite IH.
Qed.

Lemma scan_prefix (E : Env) (ps : list ProcessingService.Phase) :
  fst (scan E ps) `prefix_of` ps.
Proof.
  induction ps as [|ph ps IH]; cbn [scan]; [done|].
  destruct (stage_fails E (ProcessingService.ph_name ph)); cbn [fst].
  - apply prefix_nil.
  - by apply prefix_cons.
Qed.

Lemma lifecycle_sublist (E : Env) :
  lifecycle E `sublist_of` [0; 10; 20; 40; 60; 80; 95]%Z.
Proof.
  unfold lifecycle. do 2 apply sublist_skip.
  change [20; 40; 60; 80; 95]%Z
    with (map ProcessingService.ph_progress ProcessingService.phases).
  destruct (scan_prefix E ProcessingService.phases) as [rest Hrest].
  fold (phases_done E) in Hrest. rewrite Hrest at 1.
  rewrite map_app. by apply sublist_inserts_r.
Qed.


(** ** Claim about progress *)

(** The values stored while the job is live by one run of [processDocument]
    on the job under [key]. *)
Lemma processDocument_live E data w l j :
  jobs w !! d_ingestionId data = Some l →
  heap w !! l = Some j →
  ingestionId j = d_ingestionId data →
  ∃ w' tend evs,
    ProcessingService.processDocument E data w = (Ok tt, w') ∧
    jobs w' !! d_ingestionId data = Some l ∧
    heap w' !! l = Some (final_job E (clock w) tend j) ∧
    trace w' = trace w ++ evs ∧
    live_progress (d_ingestionId data) evs
    = 10%Z :: map ProcessingService.ph_progress (phases_done E).
Proof.
  intros Hj Hh Hid.
  destruct (processDocument_present E data w l j Hj Hh)
    as (w' & Hrun & Hj' & _ & tend & evs & Hh' & Htr & Hsets).
  exists w', tend, evs. split_and!; try done.
  rewrite (live_progress_sets _ _
             (started (clock w) j :: phase_records (started (clock w) j) (phases_done E)
              ++ [final_job E (clock w) tend j])).
  - cbn [omap list_omap]. unfold live_value at 1.
    cbn [is_terminal status started with_progress with_startedAt with_status progress].
    rewrite omap_app, phase_records_live by done.
    cbn [omap list_omap]. unfold live_value. rewrite final_job_terminal.
    by rewrite app_nil_r.
  - rewrite Hsets. unfold expected_sets. rewrite Hid. cbn [map]. by rewrite map_app.
Qed.

Lemma phases_done_progress (E : Env) :
  phases_done E = [] ∨ ∃ ps, map ProcessingService.ph_progress (phases_done E) = 20%Z :: ps.
Proof.
  unfold phases_done, ProcessingService.phases. cbn [scan ProcessingService.ph_name].
  destruct (stage_fails E "Document Download"); [by left|right].
  cbn [fst map ProcessingService.ph_progress]. by eexists.
Qed.

(** C4 (the code departs from the claim).  What holds: over one admission
    and one run of [processDocument], the values stored by [jobs.set] while
    the job is [queued] or [processing] are 0, 10 and the checkpoints of the
    completed phases, in this order; every such value, of the first run
    and of a second, is within 0..100; and the values reported by one run
    of the processor form a subsequence of 10, 30, 50, 70, 85, 95, 100 for
    every configuration of the stage flags.  What fails: a second run of [processDocument] on the
    same job (its queue item delivered again, or the id admitted twice) makes
    the job [processing] again and stores 10 and the checkpoints once more,
    so that progress falls back from the last checkpoint of the first run
    to 10. *)
Theorem C4_progress_restarts_on_a_second_run
    (R : Redis) (E : Env) (documentId ingestionId : string)
    (config : option IngestionConfigDto) (w : World) :
  add_fails R (nextJobId w) = None →
  let data := job_data documentId ingestionId config in
  let w1 := snd (OnRedis.ProcessingService.triggerIngestion R E documentId ingestionId
                   config w) in
  let w2 := snd (ProcessingService.processDocument E data w1) in
  let w3 := snd (ProcessingService.processDocument E data w2) in
  (∃ evs1 evs2,
     trace w2 = trace w ++ evs1 ∧ trace w3 = trace w2 ++ evs2 ∧
     live_progress ingestionId evs1 = lifecycle E ∧
     StronglySorted Z.le (live_progress ingestionId evs1) ∧
     live_progress ingestionId evs2
     = 10%Z :: map ProcessingService.ph_progress (phases_done E) ∧
     Forall in_range (live_progress ingestionId (evs1 ++ evs2)) ∧
     (phases_done E ≠ [] →
      ¬ StronglySorted Z.le (live_progress ingestionId (evs1 ++ evs2)))) ∧
  (∀ (job : Dto.DocumentProcessingJob) (w0 : World),
     ∃ evs,
       trace (snd (DocumentProcessorService.processDocument E job w0)) = trace w0 ++ evs ∧
       StronglySorted Z.le (omap progress_of evs) ∧
       Forall in_range (omap progress_of evs)).
Proof.
  intros Hadd. cbv zeta. split.
  - rewrite (triggerIngestion_accepted _ _ _ _ _ _ Hadd).
    destruct (triggerIngestion_run E documentId ingestionId config w)
      as (w1 & Hrun & Hjobs & Hheap & _ & _ & evs0 & Htr0 & Hsets0).
    rewrite Hrun. cbn [snd].
    set (data := job_data documentId ingestionId config).
    set (j0 := fresh_job documentId ingestionId config) in *.
    destruct (processDocument_live E data w1 (length (heap w)) j0)
      as (w2 & tend1 & evsA & Hrun2 & Hj2 & Hh2 & Htr2 & Hlive2).
    { cbn [d_ingestionId data job_data]. rewrite Hjobs. apply lookup_insert_eq. }
    { rewrite Hheap. by apply list_lookup_middle. }
    { done. }
    rewrite Hrun2. cbn [snd].
    destruct (processDocument_live E data w2 (length (heap w)) (final_job E (clock w1) tend1 j0))
      as (w3 & tend2 & evsB & Hrun3 & _ & _ & Htr3 & Hlive3).
    { exact Hj2. }
    { exact Hh2. }
    { by rewrite final_job_ingestionId. }
    rewrite Hrun3. cbn [snd].
    cbn [d_ingestionId data job_data] in Hlive2, Hlive3.
    assert (live_progress ingestionId evs0 = [0%Z]) as Hlive0.
    { rewrite (live_progress_sets _ _ [j0]); [done|exact Hsets0]. }
    assert (live_progress ingestionId (evs0 ++ evsA) = lifecycle E) as Hlive1.
    { unfold live_progress in *. by rewrite omap_app, Hlive0, Hlive2. }
    assert (StronglySorted Z.le [0; 10; 20; 40; 60; 80; 95]%Z) as Hsorted
      by (repeat constructor; lia).
    assert (Forall in_range [0; 10; 20; 40; 60; 80; 95]%Z) as Hrange
      by (unfold in_range; repeat constructor; lia).
    exists (evs0 ++ evsA), evsB. split_and!.
    + by rewrite Htr2, Htr0, app_assoc.
    + exact Htr3.
    + exact Hlive1.
    + rewrite Hlive1. eapply sublist_nondecreasing; [apply lifecycle_sublist|done].
    + exact Hlive3.
    + unfold live_progress in *. rewrite omap_app, Hlive1, Hlive3.
      apply Forall_app. split.
      * eapply sublist_Forall_range; [apply lifecycle_sublist|done].
      * eapply sublist_Forall_range; [|exact Hrange].
        etrans; [|apply (lifecycle_sublist E)]. unfold lifecycle. by apply sublist_cons.
    + intros Hdone Hsort.
      unfold live_progress in *. rewrite omap_app, Hlive1, Hlive3 in Hsort.
      unfold lifecycle in Hsort.
      destruct (phases_done_progress E) as [Hnone|(ps & Hps)]; [done|].
      rewrite Hps in Hsort. cbn [app] in Hsort.
      do 2 apply StronglySorted_inv in Hsort as [Hsort _].
      apply StronglySorted_inv in Hsort as [_ Hall].
      rewrite Forall_app in Hall. destruct Hall as [_ Hall].
      apply Forall_inv in Hall. lia.
  - intros job w0. destruct (emits_processor E job w0) as (evs & Htr & Hsub).
    assert (StronglySorted Z.le checkpoints) as Hsorted by (repeat constructor; lia).
    assert (Forall in_range checkpoints) as Hrange
      by (unfold in_range; repeat constructor; lia).
    exists evs. split_and!; [done| |].
    + by eapply sublist_nondecreasing.
    + by eapply sublist_Forall_range.
Qed.

Lemma C4_progress_restarts_witness :
  ∃ evs1 evs2,
    live_progress "ing-1" evs1 = lifecycle quiet ∧
    ¬ StronglySorted Z.le (live_progress "ing-1" (evs1 ++ evs2)).
Proof.
  destruct (C4_progress_restarts_on_a_second_run answering quiet "doc-1" "ing-1" None
              empty_world eq_refl)
    as ((evs1 & evs2 & _ & _ & Hlive & _ & _ & _ & Hdrop) & _).
  exists evs1, evs2. split; [exact Hlive|]. apply Hdrop. vm_compute. discriminate.
Defined.

(** The same on a concrete table: the job is admitted once and its queue
    item is handled twice. *)
Example progress_after_a_second_run :
  let data := job_data "doc-1" "ing-1" None in
  let w2 := snd (ProcessingService.processDocument quiet data one_job) in
  let w3 := snd (ProcessingService.processDocument quiet data w2) in
  (status <$> lookup_job w2 "ing-1") = Some completed ∧
  live_progress "ing-1" (trace w3)
  = [0; 10; 20; 40; 60; 80; 95; 10; 20; 40; 60; 80; 95]%Z.
Proof. vm_compute. done. Qed.

(** The same when the id is admitted twice and both queue items are
    handled. *)
Example progress_after_a_duplicate_admission :
  let data := job_data "doc-1" "ing-1" None in
  let w1 := snd (ProcessingService.triggerIngestion quiet "doc-1" "ing-1" None one_job) in
  let w2 := snd (DocumentProcessor.handleDocumentProcessing quiet (added_job 1 data) w1) in
  let w3 := snd (DocumentProcessor.handleDocumentProcessing quiet (added_job 2 data) w2) in
  map bj_id (queue w1) = [1; 2] ∧
  live_progress "ing-1" (trace w3)
  = [0; 0; 10; 20; 40; 60; 80; 95; 10; 20; 40; 60; 80; 95]%Z.
Proof. vm_compute. done. Qed.

(** ** The processor's try and catch *)

Lemma bind_returns {S A B} (m : ST S A) (k : A → ST S B) (s s' : S) (b : B) :
  bind m k s = (Ok b, s') → ∃ a s1, m s = (Ok a, s1) ∧ k a s1 = (Ok b, s').
Proof.
  unfold bind. destruct (m s) as [[a|e] s1]; [|done]. intros H. by exists a, s1.
Qed.

Lemma wp_inW {A} (m : M A) (s : Dto.ProcessingResult * World) Q :
  wp m (snd s) (fun r w' => Q r (fst s, w')) → wp (DocumentProcessorService.inW m) s Q.
Proof. exact (fun H => H). Qed.

Lemma wp_callback E docId r w Q :
  Q (Ok tt) (emit (callback_log E docId (posts w))
               (emit (callback_post E docId r w) (count_post w))) →
  wp (DocumentProcessorService.sendProcessingCallback E docId r) w Q.
Proof. unfold wp. rewrite sendProcessingCallback_run. auto. Qed.

Ltac wp_step2 :=
  first
    [ wp_step
    | lazymatch goal with
      | |- wp (DocumentProcessorService.inW _) _ _ => apply wp_inW
      | |- wp (DocumentProcessorService.set_result _) _ _ => apply wp_modify
      | |- wp DocumentProcessorService.get_result _ _ => apply wp_gets
      | |- wp (DocumentProcessorService.sendProcessingCallback _ _ _) _ _ =>
          apply wp_callback
      end ].

Lemma on_error_returns E job t msg s :
  fst (DocumentProcessorService.on_error E job t msg s)
  = Ok (failure_result t (clock (snd s)) msg (fst s)).
Proof.
  change (wp (DocumentProcessorService.on_error E job t msg) s
            (fun r _ => r = Ok (failure_result t (clock (snd s)) msg (fst s)))).
  unfold DocumentProcessorService.on_error.
  repeat wp_step2. reflexivity.
Qed.

(** When the [try] block returns, it returns [result] with [success] set. *)
Lemma pipeline_returns_success E job t s r s' :
  DocumentProcessorService.pipeline E job t s = (Ok r, s') → Dto.success r = true.
Proof.
  unfold DocumentProcessorService.pipeline. intros H.
  do 8 (apply bind_returns in H as (? & ? & _ & H)).
  revert H.
  match goal with |- ?m ?s0 = _ → _ =>
    assert (wp m s0 (fun r0 _ => ∀ res, r0 = Ok res → Dto.success res = true)) as Hwp
  end.
  { repeat wp_step2. by intros res [= <-]. }
  intros Hrun. unfold wp in Hwp. rewrite Hrun in Hwp. by apply Hwp.
Qed.

(** [processDocument] of the processor never throws, and its result says
    whether the [try] block threw. *)
Lemma processor_returns E job w :
  ∃ r w',
    DocumentProcessorService.processDocument E job w = (Ok r, w') ∧
    match fst (DocumentProcessorService.pipeline E job (clock w) (initial_result job, w)) with
    | Ok _ => Dto.success r = true
    | Throw e => Dto.success r = false ∧ Dto.errors r = [e]
    end.
Proof.
  unfold DocumentProcessorService.processDocument, try_catch. fold (initial_result job).
  destruct (DocumentProcessorService.pipeline E job (clock w) (initial_result job, w))
    as [[r|e] s] eqn:Hpipe.
  - exists r, (snd s). split; [done|]. cbn [fst]. by eapply pipeline_returns_success.
  - pose proof (on_error_returns E job (clock w) e s) as Hret.
    destruct (DocumentProcessorService.on_error E job (clock w) e s) as [r' s'].
    cbn [fst snd] in *. subst r'. eexists _, _. split; [reflexivity|]. done.
Qed.

Lemma consumer_returns E (bj : BullJob Dto.DocumentProcessingJob) w :
  ∃ r w',
    QueueConsumerService.processDocument E bj w = (Ok r, w') ∧
    (Dto.success r = true ∨ Dto.success r = false ∧ ∃ e, Dto.errors r = [e]).
Proof.
  assert (wp (QueueConsumerService.processDocument E bj) w
            (fun r _ => ∃ res, r = Ok res ∧
               (Dto.success res = true
                ∨ Dto.success res = false ∧ ∃ e, Dto.errors res = [e]))) as Hwp.
  { unfold QueueConsumerService.processDocument.
    repeat wp_step.
    match goal with |- wp (DocumentProcessorService.processDocument E ?j) ?w0 _ =>
      destruct (processor_returns E j w0) as (res & w' & Hrun & Hres);
      eapply wp_run; [exact Hrun|]
    end.
    repeat wp_step. exists res. split; [done|].
    match type of Hres with match ?x with _ => _ end => destruct x end.
    - by left.
    - right. destruct Hres as [? ?]. eauto. }
  unfold wp in Hwp. destruct Hwp as (res & Hfst & Hres).
  exists res, (snd (QueueConsumerService.processDocument E bj w)).
  split; [|done]. rewrite <- Hfst. apply surjective_pairing.
Qed.

(** ** The processor against its plan *)

Lemma reported_start w0 : reported w0 [] w0.
Proof. exists []. by rewrite app_nil_r. Qed.

Lemma reported_emit w0 pv w e :
  reported w0 pv w → reported w0 (pv ++ omap progress_of [e]) (emit e w).
Proof.
  intros (evs & Htr & Hpv). exists (evs ++ [e]). cbn [trace emit].
  rewrite Htr, app_assoc, omap_app, Hpv. done.
Qed.

Lemma reported_frame w0 pv w w' :
  trace w' = trace w → reported w0 pv w → reported w0 pv w'.
Proof. intros Heq (evs & Htr & Hpv). exists evs. by rewrite Heq. Qed.

Lemma reported_silent w0 pv w e :
  progress_of e = None → reported w0 pv w → reported w0 pv (emit e w).
Proof.
  intros Hnone H. apply (reported_emit _ _ _ e) in H.
  cbn [omap list_omap] in H. rewrite Hnone in H. by rewrite app_nil_r in H.
Qed.

Lemma reported_log w0 pv w lvl msg :
  reported w0 pv w → reported w0 pv (emit (EvLog lvl msg) w).
Proof. by apply reported_silent. Qed.

Lemma reported_callback E docId r w0 pv w w1 n :
  reported w0 pv w →
  reported w0 pv (emit (callback_log E docId n)
                    (emit (callback_post E docId r w1) (count_post w))).
Proof.
  intros H. apply reported_silent; [unfold callback_log; by destruct (http_fails E n)|].
  apply reported_silent; [done|]. eapply reported_frame; [|exact H]. done.
Qed.

Lemma wp_mono {S A} (m : ST S A) (s : S) (Q Q' : Res A → S → Prop) :
  wp m s Q → (∀ r s', Q r s' → Q' r s') → wp m s Q'.
Proof. unfold wp. auto. Qed.

(** *** The stage bodies *)

Ltac quiet_body :=
  intros w; unfold bind, sleep, modify, ret, log;
  eexists _, _; (split; [reflexivity|]);
  intros w0 pv Hrep; try apply reported_log;
  (eapply reported_frame; [|exact Hrep]); reflexivity.

Lemma quiet_extractText job : quiet_stage (DocumentProcessorService.extractText job).
Proof. unfold DocumentProcessorService.extractText. quiet_body. Qed.

Lemma quiet_performOCR job : quiet_stage (DocumentProcessorService.performOCR job).
Proof. unfold DocumentProcessorService.performOCR. quiet_body. Qed.

Lemma quiet_extractKeywords job text :
  quiet_stage (DocumentProcessorService.extractKeywords job text).
Proof.
  unfold DocumentProcessorService.extractKeywords.
  destruct text as [txt|]; [destruct (Js.truthy_str (Some txt))|]; quiet_body.
Qed.

Lemma quiet_generateSummary job text :
  quiet_stage (DocumentProcessorService.generateSummary job text).
Proof.
  unfold DocumentProcessorService.generateSummary.
  destruct text as [txt|]; [destruct (Js.truthy_str (Some txt))|]; quiet_body.
Qed.

Lemma quiet_detectLanguage text : quiet_stage (DocumentProcessorService.detectLanguage text).
Proof.
  unfold DocumentProcessorService.detectLanguage.
  destruct text as [txt|]; [destruct (Js.truthy_str (Some txt))|]; quiet_body.
Qed.

Lemma quiet_indexForSearch job r :
  quiet_stage (DocumentProcessorService.indexForSearch job r).
Proof. unfold DocumentProcessorService.indexForSearch. quiet_body. Qed.

(** Invoking a stage: it throws where the environment says so and leaves
    everything as it was, or its body runs. *)
Lemma wp_inW_stage {A} E name (body : M A) (s : Dto.ProcessingResult * World) Q :
  quiet_stage body →
  (∀ e, stage_fails E name = Some e → Q (Throw e) s) →
  (stage_fails E name = None →
   ∀ v w', (∀ w0 pv, reported w0 pv (snd s) → reported w0 pv w') → Q (Ok v) (fst s, w')) →
  wp (DocumentProcessorService.inW (DocumentProcessorService.stage E name body)) s Q.
Proof.
  intros Hbody Hthrow Hok. unfold wp, DocumentProcessorService.inW,
    DocumentProcessorService.stage, bind, stage_work.
  destruct (stage_fails E name) as [e|].
  - cbn [throw fst snd]. destruct s. by apply Hthrow.
  - cbn [ret]. destruct (Hbody (snd s)) as (v & w' & -> & Hrep). cbn [fst snd].
    by apply Hok.
Qed.

Create HintDb stages.
#[local] Hint Resolve quiet_extractText quiet_performOCR quiet_extractKeywords
  quiet_generateSummary quiet_detectLanguage quiet_indexForSearch : stages.

Ltac proc_step :=
  cbv beta iota; cbn [fst snd];
  lazymatch goal with
  | |- wp (bind _ _) _ _ => apply wp_bind
  | |- wp (ret _) _ _ => apply wp_ret
  | |- wp (DocumentProcessorService.inW (DocumentProcessorService.stage _ _ _)) _ _ =>
      apply wp_inW_stage; [auto with stages|intros ? ?|intros ? ? ? ?]
  | |- wp (DocumentProcessorService.inW (DocumentProcessorService.sendProcessingCallback _ _ _))
          _ _ => apply wp_inW; apply wp_callback
  | |- wp (DocumentProcessorService.inW now) _ _ => apply wp_inW; apply wp_gets
  | |- wp (DocumentProcessorService.inW _) _ _ => apply wp_inW; apply wp_modify
  | |- wp (DocumentProcessorService.set_result _) _ _ => apply wp_modify
  | |- wp DocumentProcessorService.get_result _ _ => apply wp_gets
  end.

(** A guarded block: report the checkpoint, then run the stage. *)
Lemma block_spec E w0 (c : bool) docId p step name (rest : DocumentProcessorService.P unit)
    (pv : list Z) (s : Dto.ProcessingResult * World) :
  (∀ s', running w0 (pv ++ [p]) s' → wp rest s' (after_stage E w0 name (pv ++ [p]))) →
  running w0 pv s →
  wp (when c (bind (DocumentProcessorService.inW
                      (DocumentProcessorService.updateProgress docId p step))
                   (fun _ => rest)))
     s (after_block E w0 c p name pv).
Proof.
  intros Hrest (Hrep & Hs & He). unfold after_block. destruct c; cbn [when].
  - repeat proc_step. eapply wp_mono.
    + apply Hrest. split_and!; [|done..].
      cbn [snd]. apply (reported_emit _ _ _ (EvProgress docId p step)), Hrep.
    + intros r s'. unfold after_stage.
      destruct (stage_fails E name) as [e|]; intros [-> Hrun]; [right|left]; eauto.
  - apply wp_ret. left. rewrite app_nil_r. done.
Qed.

Ltac solve_stage :=
  let Hrep := fresh "Hrep" in
  let Hs := fresh "Hs" in
  let He := fresh "He" in
  intros ? (Hrep & Hs & He); unfold after_stage;
  repeat proc_step; cbv beta iota; cbn [fst snd];
  match goal with Hf : stage_fails _ _ = _ |- _ => rewrite Hf end;
  repeat match goal with v : unit |- _ => destruct v end;
  (split; [reflexivity|]);
  (split_and!; [auto|exact Hs|exact He]).

(** The [catch] block, entered while the [try] block was running. *)
Lemma on_error_spec E job t msg w0 pv s :
  running w0 pv s →
  wp (DocumentProcessorService.on_error E job t msg) s
     (fun r s' => ∃ res, r = Ok res ∧ reported w0 pv (snd s') ∧
                         Dto.success res = false ∧ Dto.errors res = [msg]).
Proof.
  intros (Hrep & Hs & He). unfold DocumentProcessorService.on_error.
  repeat proc_step. cbv beta iota. cbn [fst snd].
  eexists. split; [reflexivity|]. split_and!; [|done..].
  by apply reported_callback, reported_log.
Qed.

Lemma plan_goes_on E c p name rows :
  (c = true → stage_fails E name = None) →
  plan E ((c, p, name) :: rows)
  = ((if c then [p] else []) ++ fst (plan E rows), snd (plan E rows)).
Proof.
  intros Hok. cbn [plan]. destruct c; [rewrite Hok by done|]; cbn [app]; [done|].
  by destruct (plan E rows).
Qed.

Lemma plan_stops E c p name rows e :
  c = true → stage_fails E name = Some e →
  plan E ((c, p, name) :: rows) = ([p], Some e).
Proof. intros -> Hf. cbn [plan]. by rewrite Hf. Qed.

Ltac use_plan :=
  unfold as_planned, stage_rows;
  repeat match goal with
         | Hc : ?c = true, Hf : stage_fails ?E ?n = Some ?e |- _ =>
             rewrite (plan_stops E c _ n _ e Hc Hf)
         | Hok : ?c = true → stage_fails ?E ?n = None |- _ =>
             rewrite (plan_goes_on E c _ n _ Hok)
         end;
  cbn [plan fst snd].

(** One guarded block of the [try] block: either the run goes on, or the
    stage has thrown and the [catch] block ends the run as planned. *)
Ltac through_block Hrun :=
  apply wp_bind;
  eapply wp_mono; [apply block_spec; [solve_stage|exact Hrun]|];
  clear Hrun;
  let r := fresh "r" in
  let s := fresh "s" in
  let e := fresh "e" in
  let Hok := fresh "Hok" in
  let Hc := fresh "Hc" in
  let Hf := fresh "Hf" in
  let Hpost := fresh "Hpost" in
  intros r s Hpost; unfold after_block in Hpost;
  destruct Hpost as [(-> & Hok & Hrun)|(e & -> & Hc & Hf & Hrun)]; cbv beta iota;
  [ | eapply wp_mono; [apply on_error_spec; exact Hrun|];
      let res := fresh "res" in
      let Hrep := fresh "Hrep" in
      let Hres := fresh "Hres" in
      intros ? ? Hres; cbv beta in Hres; destruct Hres as (res & -> & Hrep & ? & ?);
      exists res; use_plan;
      (split; [reflexivity|]); (split; [|by split]);
      rewrite <- ?app_assoc in Hrep; exact Hrep ].

Lemma pipeline_as_planned E job w :
  wp (try_catch (DocumentProcessorService.pipeline E job (clock w))
                (DocumentProcessorService.on_error E job (clock w)))
     (initial_result job, w)
     (fun r s' => as_planned E w (Dto.config job) r (snd s')).
Proof.
  unfold DocumentProcessorService.pipeline. cbv zeta.
  apply wp_try. do 2 proc_step. cbv beta iota.
  match goal with |- wp _ ?s0 _ => assert (running w [] s0) as Hrun end.
  { split_and!; [|done..]. apply reported_log, reported_start. }
  do 6 through_block Hrun.
  destruct Hrun as (Hrep & Hs & He).
  repeat proc_step; cbv beta iota; cbn [fst snd].
  eexists; (split; [reflexivity|]); use_plan.
  split; [|by split].
  apply reported_callback, reported_log.
  apply (reported_emit _ _ _ (EvProgress (Dto.documentId job) 100 "Processing completed"))
    in Hrep.
  rewrite <- ?app_assoc in Hrep. exact Hrep.
Qed.

(** One run of the processor against its plan: it returns, the progress it
    reports is the plan's, and its result says how the plan ends. *)
Lemma processor_as_planned E job w :
  ∃ r w',
    DocumentProcessorService.processDocument E job w = (Ok r, w') ∧
    as_planned E w (Dto.config job) (Ok r) w'.
Proof.
  pose proof (pipeline_as_planned E job w) as Hwp. unfold wp in Hwp.
  unfold DocumentProcessorService.processDocument. cbv zeta. fold (initial_result job).
  destruct (try_catch (DocumentProcessorService.pipeline E job (clock w))
              (DocumentProcessorService.on_error E job (clock w)) (initial_result job, w))
    as [r [res' w']].
  cbn [fst snd] in *. destruct Hwp as (res & -> & Hrep & Hres).
  exists res, w'. split; [done|]. by exists res.
Qed.

Example plan_all_stages_quiet :
  plan quiet (stage_rows (Dto.config (bj_data processor_item)))
  = ([10; 30; 50; 70; 85; 95; 100]%Z, None).
Proof. reflexivity. Qed.

Example plan_keyword_stage_throws :
  plan (failing "extractKeywords" "keyword service down")
       (stage_rows (Dto.config (bj_data processor_item)))
  = ([10; 30; 50]%Z, Some "keyword service down").
Proof. reflexivity. Qed.

(** ** Claim about stage failures *)

(** C5 (the code departs from the claim in its last part).  What holds, for
    every environment and every configuration of the stage flags: the
    processor never throws; the progress it reports is that of its plan,
    the checkpoints of the enabled stages up to and including the first one
    that throws and nothing after it, or all of them and 100 when none
    throws; its result has [success = false] and [errors = [message]]
    exactly when a stage threw [message].  A phase of the ingestion service
    that throws ends the loop (the [jobs.set] calls are those of the phases
    before it, then the failure) and the job is marked [failed] with the
    message.  What fails: the failure never reaches the queue.  Both
    handlers return normally, so the worker acknowledges the entry; nothing
    is retried or dead-lettered. *)
Theorem C5_stage_failure_is_acknowledged (E : Env) (w : World) :
  (∀ bj : BullJob Dto.DocumentProcessingJob,
     ∃ r w',
       Bull.settle (QueueConsumerService.processDocument E) bj w = (Bull.Ack r, bj, w') ∧
       (Dto.success r = true ∨ Dto.success r = false ∧ ∃ e, Dto.errors r = [e])) ∧
  (∀ (job : Dto.DocumentProcessingJob),
     ∃ r w',
       DocumentProcessorService.processDocument E job w = (Ok r, w') ∧
       reported w (fst (plan E (stage_rows (Dto.config job)))) w' ∧
       match snd (plan E (stage_rows (Dto.config job))) with
       | None => Dto.success r = true ∧ Dto.errors r = []
       | Some e => Dto.success r = false ∧ Dto.errors r = [e]
       end) ∧
  (∀ bj : BullJob JobData,
     ∃ w',
       Bull.settle (DocumentProcessor.handleDocumentProcessing E) bj w
       = (Bull.Ack handled, bj, w') ∧
       match lookup_job w (d_ingestionId (bj_data bj)), first_fault E with
       | Some j, Some e =>
           ∃ j' tend evs,
             lookup_job w' (d_ingestionId (bj_data bj)) = Some j' ∧
             status j' = failed ∧ error j' = Some e ∧ result j' = result j ∧
             trace w' = trace w ++ evs ∧
             omap job_set_of evs
             = (d_ingestionId (bj_data bj), started (clock w) j)
               :: map (pair (ingestionId j))
                      (phase_records (started (clock w) j) (phases_done E))
               ++ [(d_ingestionId (bj_data bj), final_job E (clock w) tend j)]
       | _, _ => True
       end).
Proof.
  split_and!.
  - intros bj. destruct (consumer_returns E bj w) as (r & w' & Hrun & Hr).
    exists r, w'. split; [by apply settle_returning|done].
  - intros job. destruct (processor_as_planned E job w) as (r & w' & Hrun & Hplan).
    exists r, w'. split; [done|].
    destruct Hplan as (res & [= <-] & Hrep & Hres). done.
  - intros bj. exists (snd (DocumentProcessor.handleDocumentProcessing E bj w)). split.
    { apply settle_returning. by rewrite handleDocumentProcessing_run. }
    destruct (lookup_job w (d_ingestionId (bj_data bj))) as [j|] eqn:Hlook; [|done].
    destruct (handle_present E bj w j Hlook) as (tend & evs & Hl & Htr & Hsets).
    pose proof (final_job_fields E (clock w) tend j) as Hfields.
    destruct (first_fault E) as [e|]; [|done].
    destruct Hfields as (Hs & _ & Hr & He).
    eexists _, tend, evs. split_and!; [exact Hl|done..].
Qed.

(** The keyword stage throws: text was extracted and OCR done, nothing after
    the failing stage ran (no summary, no language, progress stops at 50), the
    result carries the message, and the queue sees a success. *)
Example keyword_stage_throws :
  let E := failing "extractKeywords" "keyword service down" in
  let out := Bull.process (QueueConsumerService.processDocument E) processor_item empty_world in
  omap progress_of (trace (snd out)) = [0; 10; 30; 50; 100]%Z ∧
  match fst (fst out) with
  | [Bull.Ack r] =>
      Dto.success r = false ∧ Dto.errors r = ["keyword service down"] ∧
      is_Some (Dto.extractedText r) ∧ is_Some (Dto.ocrText r) ∧
      Dto.keywords r = None ∧ Dto.summary r = None ∧ Dto.language r = None
  | _ => False
  end.
Proof. vm_compute. split_and!; eauto. Qed.

(** ** Claim about retries *)

(** One run of the consumer's handler, by the two [job.progress] calls. *)
Lemma consumer_on_run R E (bj : BullJob Dto.DocumentProcessingJob) w :
  let w0 := emit (EvLog LOG ("Processing job " +:+ pretty (bj_id bj) +:+ " for document "
                               +:+ Dto.documentId (bj_data bj))) w in
  let failed_line := EvLog ERROR ("Job " +:+ pretty (bj_id bj) +:+ " failed:") in
  ∃ r w1,
    DocumentProcessorService.processDocument E (bj_data bj)
      (emit (EvBullProgress (bj_id bj) 0) w0) = (Ok r, w1) ∧
    OnRedis.QueueConsumerService.processDocument R E bj w =
    match progress_fails R (bj_id bj) 0 with
    | Some e => (Throw e, emit failed_line w0)
    | None =>
        match progress_fails R (bj_id bj) 100 with
        | Some e => (Throw e, emit failed_line w1)
        | None =>
            (Ok r,
             emit (EvLog LOG ("Job " +:+ pretty (bj_id bj) +:+ " completed successfully"))
               (emit (EvBullProgress (bj_id bj) 100) w1))
        end
    end.
Proof.
  cbv zeta.
  match goal with |- context [DocumentProcessorService.processDocument E ?d ?w0] =>
    destruct (processor_as_planned E d w0) as (r & w1 & Hrun & _)
  end.
  exists r, w1. split; [exact Hrun|].
  unfold OnRedis.QueueConsumerService.processDocument,
    OnRedis.DocumentProcessor.job_progress, try_catch, bind, log, log_error, modify, throw, ret.
  destruct (progress_fails R (bj_id bj) 0) as [e|]; [reflexivity|].
  rewrite Hrun.
  by destruct (progress_fails R (bj_id bj) 100).
Qed.

(** C3 (the code departs from the claim): a queue item of the processor one
    of whose stages throws is run once and acknowledged, whatever attempts
    it allows: the [catch] of [processDocument] turns the exception into a
    result with [success: false], the handler returns it, and the worker
    counts no failed attempt, so there is neither retry nor dead-letter.
    Had the exception reached the worker, the handler would have failed as
    often as attempts were left. *)
Theorem C3_failed_stage_is_not_retried
    (R : Redis) (E : Env) (bj : BullJob Dto.DocumentProcessingJob) (w : World) (e : string) :
  snd (plan E (stage_rows (Dto.config (bj_data bj)))) = Some e →
  progress_fault R (bj_id bj) = None →
  bj_attemptsMade bj < bj_attempts bj →
  (∃ r w',
     Bull.process (OnRedis.QueueConsumerService.processDocument R E) bj w
     = ([Bull.Ack r], bj, w') ∧
     Dto.success r = false ∧ Dto.errors r = [e] ∧
     Bull.failures [Bull.Ack r] = 0) ∧
  Bull.failures (fst (fst (Bull.process (R := Dto.ProcessingResult)
                             (fun _ => throw e) bj w)))
  = bj_attempts bj - bj_attemptsMade bj.
Proof.
  intros Hplan Hprog Hlt. split; [|by apply process_throwing].
  destruct (consumer_on_run R E bj w) as (r & w1 & Hproc & Hrun).
  unfold progress_fault in Hprog.
  destruct (progress_fails R (bj_id bj) 0); [done|].
  rewrite Hprog in Hrun.
  match type of Hproc with DocumentProcessorService.processDocument E ?d ?w0 = _ =>
    destruct (processor_as_planned E d w0) as (r' & w1' & Hproc' & res & [= <-] & _ & Hres)
  end.
  rewrite Hproc in Hproc'. injection Hproc' as <- <-.
  rewrite Hplan in Hres. destruct Hres as [Hs He].
  eexists r, _. split_and!; [|exact Hs|exact He|reflexivity].
  by apply process_returning.
Qed.

Lemma C3_failed_stage_witness :
  ∃ r w',
    Bull.process
      (OnRedis.QueueConsumerService.processDocument answering
         (failing "extractText"
            "Cannot read properties of undefined (reading 'toLowerCase')"))
      processor_item empty_world = ([Bull.Ack r], processor_item, w') ∧
    Dto.success r = false ∧
    Dto.errors r = ["Cannot read properties of undefined (reading 'toLowerCase')"].
Proof.
  destruct (C3_failed_stage_is_not_retried answering
              (failing "extractText"
                 "Cannot read properties of undefined (reading 'toLowerCase')")
              processor_item empty_world
              "Cannot read properties of undefined (reading 'toLowerCase')"
              eq_refl eq_refl ltac:(vm_compute; lia))
    as ((r & w' & Hrun & Hs & He & _) & _).
  by exists r, w'.
Defined.

(** The text stage throws, as it does on an item without [fileType]: one
    run, one acknowledgement, and the progress stops at 10. *)
Example text_stage_throws :
  let E := failing "extractText"
             "Cannot read properties of undefined (reading 'toLowerCase')" in
  let out := Bull.process (OnRedis.QueueConsumerService.processDocument answering E)
               processor_item empty_world in
  omap progress_of (trace (snd out)) = [0; 10; 100]%Z ∧
  bj_attemptsMade (snd (fst out)) = 0 ∧
  match fst (fst out) with
  | [Bull.Ack r] =>
      Dto.success r = false ∧
      Dto.errors r = ["Cannot read properties of undefined (reading 'toLowerCase')"] ∧
      Dto.extractedText r = None
  | _ => False
  end.
Proof. vm_compute. split_and!; eauto. Qed.

(** * Further properties *)

(** ** The job table as a whole *)

Lemma well_keyed_empty : well_keyed empty_world.
Proof. intros key l H. cbn [jobs empty_world] in H. by rewrite lookup_empty in H. Qed.

Lemma well_keyed_ext (w w' : World) :
  jobs w' = jobs w → heap w' = heap w → well_keyed w → well_keyed w'.
Proof. unfold well_keyed. intros -> ->. auto. Qed.

Lemma lookup_job_ext (w w' : World) (key : string) :
  jobs w' = jobs w → heap w' = heap w → lookup_job w' key = lookup_job w key.
Proof. unfold lookup_job. by intros -> ->. Qed.

Lemma well_keyed_lookup (w : World) (key : string) (j : IngestionJob) :
  well_keyed w → lookup_job w key = Some j → ingestionId j = key.
Proof.
  intros Hwk (l & Hj & Hh)%lookup_job_Some.
  destruct (Hwk key l Hj) as (j' & Hh' & Hid). congruence.
Qed.

(** In a well-keyed table two keys never share an object. *)
Lemma well_keyed_apart (w : World) (k1 k2 : string) (l : loc) :
  well_keyed w → jobs w !! k1 = Some l → jobs w !! k2 = Some l → k1 = k2.
Proof.
  intros Hwk H1 H2.
  destruct (Hwk k1 l H1) as (j1 & Hh1 & <-), (Hwk k2 l H2) as (j2 & Hh2 & <-). congruence.
Qed.

(** One run of [processDocument] on a stored job: what it leaves alone, and
    the notifications against the [jobs.set] calls. *)
Lemma processDocument_footprint E data w l j :
  jobs w !! d_ingestionId data = Some l →
  heap w !! l = Some j →
  ∃ w',
    ProcessingService.processDocument E data w = (Ok tt, w') ∧
    (∀ k, jobs w' !! k = jobs w !! k
          ∨ jobs w' !! k = Some l ∧ (k = d_ingestionId data ∨ k = ingestionId j)) ∧
    (∀ l', l' ≠ l → heap w' !! l' = heap w !! l') ∧
    (∃ j', heap w' !! l = Some j' ∧ ingestionId j' = ingestionId j) ∧
    queue w' = queue w ∧ nextJobId w' = nextJobId w ∧
    ∃ evs, trace w' = trace w ++ evs ∧ omap notified evs = omap stored evs
           ∧ omap queue_progress evs = [].
Proof.
  intros Hj Hh. apply wp_returns.
  unfold ProcessingService.processDocument.
  apply wp_bind. eapply wp_run; [by apply jobs_get_present|].
  unfold ProcessingService.simulateProcessingPhases, ProcessingService.phases.
  wp_steps.
  all: (split_and!; [reflexivity| | | |reflexivity|reflexivity|]).
  all: cbn [ingestionId with_progress with_startedAt with_status with_completedAt
            with_result with_error].
  all: try (intros k;
            destruct (decide (k = d_ingestionId data)) as [->|?];
              [right; split; [apply lookup_insert_eq|by left]|];
            destruct (decide (k = ingestionId j)) as [->|?];
              [|left; by rewrite !lookup_insert_ne by done];
            first [ left; by rewrite !lookup_insert_ne by done
                  | right; split; [|by right];
                    by repeat first [ rewrite lookup_insert_eq
                                    | rewrite lookup_insert_ne by done ] ]).
  all: try (intros l' Hne; by rewrite !list_lookup_alter_ne by done).
  all: try (eexists; split; [heap_lookup|reflexivity]).
  all: (eexists; split; [rewrite <- !app_assoc; reflexivity|]).
  all: split; reflexivity.
Qed.

Lemma triggerIngestion_mirror E doc i cfg w :
  ∃ evs, trace (snd (ProcessingService.triggerIngestion E doc i cfg w)) = trace w ++ evs
         ∧ omap notified evs = omap stored evs.
Proof.
  change (wp (ProcessingService.triggerIngestion E doc i cfg) w
            (fun _ w' => ∃ evs, trace w' = trace w ++ evs
                                ∧ omap notified evs = omap stored evs)).
  unfold ProcessingService.triggerIngestion. wp_steps.
  eexists. split; [rewrite <- !app_assoc; reflexivity|reflexivity].
Qed.

Lemma cancelIngestion_cases E key w :
  ProcessingService.cancelIngestion E key w
  = (Ok {| ProcessingService.cancelled := false |}, w)
  ∨ ∃ l j w',
      jobs w !! key = Some l ∧ heap w !! l = Some j ∧ is_terminal (status j) = false ∧
      ProcessingService.cancelIngestion E key w
      = (Ok {| ProcessingService.cancelled := true |}, w') ∧
      jobs w' = <[key := l]> (jobs w) ∧
      heap w' = alter (cancelled_job (clock w)) l (heap w) ∧
      queue w' = queue w.
Proof.
  destruct (lookup_job w key) as [j|] eqn:Hlook.
  - destruct (is_terminal (status j)) eqn:Hterm.
    + left. apply cancelIngestion_noop. by rewrite Hlook.
    + right. apply lookup_job_Some in Hlook as (l & Hj & Hh).
      destruct (cancelIngestion_active E key w l j Hj Hh Hterm)
        as (w' & Hrun & Hjobs & Hheap & Hq & _).
      by exists l, j, w'.
  - left. apply cancelIngestion_noop. by rewrite Hlook.
Qed.

Lemma cancelIngestion_mirror E key w :
  ∃ evs, trace (snd (ProcessingService.cancelIngestion E key w)) = trace w ++ evs
         ∧ omap notified evs = omap stored evs.
Proof.
  destruct (lookup_job w key) as [j|] eqn:Hlook;
    [destruct (is_terminal (status j)) eqn:Hterm|].
  1,3: rewrite cancelIngestion_noop by (by rewrite Hlook);
       exists []; by rewrite app_nil_r.
  apply lookup_job_Some in Hlook as (l & Hj & Hh).
  change (wp (ProcessingService.cancelIngestion E key) w
            (fun _ w' => ∃ evs, trace w' = trace w ++ evs
                                ∧ omap notified evs = omap stored evs)).
  unfold ProcessingService.cancelIngestion.
  apply wp_bind. eapply wp_run; [by apply jobs_get_present|].
  cbv beta iota. rewrite cancel_guard, Hterm.
  wp_steps.
  eexists. split; [rewrite <- !app_assoc; reflexivity|reflexivity].
Qed.

Lemma processDocument_mirror E data w :
  ∃ evs, trace (snd (ProcessingService.processDocument E data w)) = trace w ++ evs
         ∧ omap notified evs = omap stored evs.
Proof.
  destruct (lookup_job w (d_ingestionId data)) as [j|] eqn:Hlook.
  - apply lookup_job_Some in Hlook as (l & Hj & Hh).
    destruct (processDocument_footprint E data w l j Hj Hh)
      as (w' & -> & _ & _ & _ & _ & _ & evs & Htr & Hev & _). by exists evs.
  - rewrite processDocument_absent by done. eexists. split; [reflexivity|done].
Qed.

(** *** What each operation does to the table *)

Lemma well_keyed_trigger E doc i cfg w :
  well_keyed w → well_keyed (snd (ProcessingService.triggerIngestion E doc i cfg w)).
Proof.
  intros Hwk. destruct (triggerIngestion_run E doc i cfg w) as (w' & -> & Hj & Hh & _).
  cbn [snd]. intros key l. rewrite Hj, Hh. intros Hk.
  destruct (decide (key = i)) as [->|Hne].
  - rewrite lookup_insert_eq in Hk. injection Hk as <-.
    exists (fresh_job doc i cfg). split; [by apply list_lookup_middle|done].
  - rewrite lookup_insert_ne in Hk by done.
    destruct (Hwk key l Hk) as (j & Hl & Hid). exists j. split; [|done].
    by apply lookup_app_l_Some.
Qed.

Lemma well_keyed_cancel E key w :
  well_keyed w → well_keyed (snd (ProcessingService.cancelIngestion E key w)).
Proof.
  intros Hwk.
  destruct (cancelIngestion_cases E key w)
    as [->|(l & j & w' & Hj & Hh & _ & -> & Hjobs & Hheap & _)]; [done|].
  cbn [snd]. intros k l'. rewrite Hjobs, Hheap, (insert_id _ _ _ Hj). intros Hk.
  destruct (Hwk k l' Hk) as (j' & Hl & Hid).
  destruct (decide (l' = l)) as [->|Hne].
  - rewrite list_lookup_alter_eq, Hl. eexists. split; [reflexivity|done].
  - rewrite list_lookup_alter_ne by done. by exists j'.
Qed.

Lemma processDocument_table E data w :
  well_keyed w →
  let w' := snd (ProcessingService.processDocument E data w) in
  jobs w' = jobs w ∧
  well_keyed w' ∧
  ∀ key, key ≠ d_ingestionId data → lookup_job w' key = lookup_job w key.
Proof.
  intros Hwk. cbv zeta.
  destruct (lookup_job w (d_ingestionId data)) as [j|] eqn:Hlook.
  - pose proof (well_keyed_lookup _ _ _ Hwk Hlook) as Hid.
    apply lookup_job_Some in Hlook as (l & Hj & Hh).
    destruct (processDocument_footprint E data w l j Hj Hh)
      as (w' & -> & Hjobs & Hheap & (j' & Hl & Hid') & _).
    cbn [snd].
    assert (jobs w' = jobs w) as Hsame.
    { apply map_eq. intros k. destruct (Hjobs k) as [?|[Hk [->| ->]]]; [done|..];
        rewrite ?Hid; congruence. }
    split_and!; [done| |].
    + intros k l0. rewrite Hsame. intros Hk.
      destruct (Hwk k l0 Hk) as (j0 & Hl0 & Hid0).
      destruct (decide (l0 = l)) as [->|Hne].
      * exists j'. split; [done|]. congruence.
      * exists j0. by rewrite Hheap.
    + intros key Hne. unfold lookup_job. rewrite Hsame.
      destruct (jobs w !! key) as [l0|] eqn:Hk; [|done].
      apply Hheap. intros ->. apply Hne. by eapply well_keyed_apart.
  - rewrite processDocument_absent by done. cbn [snd]. split_and!; [done|by apply well_keyed_ext with w|done].
Qed.

Lemma handle_table E (bj : BullJob JobData) w :
  jobs (snd (DocumentProcessor.handleDocumentProcessing E bj w))
  = jobs (snd (ProcessingService.processDocument E (bj_data bj) w)) ∧
  heap (snd (DocumentProcessor.handleDocumentProcessing E bj w))
  = heap (snd (ProcessingService.processDocument E (bj_data bj) w)).
Proof.
  rewrite handleDocumentProcessing_run. cbn [snd jobs heap emit].
  assert (with_http (http_fails E) E = E) as Hsame by (by destruct E).
  match goal with |- context [ProcessingService.processDocument E ?d ?w0] =>
    destruct (sim_processDocument (http_fails E) (http_fails E) E d w0 w) as [_ HR]
  end.
  { done. }
  rewrite Hsame in HR. destruct HR as (Hj & Hh & _). done.
Qed.

Lemma well_keyed_handle E (bj : BullJob JobData) w :
  well_keyed w → well_keyed (snd (DocumentProcessor.handleDocumentProcessing E bj w)).
Proof.
  intros Hwk. destruct (handle_table E bj w) as [Hj Hh].
  eapply well_keyed_ext; [exact Hj|exact Hh|]. by apply processDocument_table.
Qed.

Lemma well_keyed_one_job : well_keyed one_job.
Proof. apply well_keyed_trigger, well_keyed_empty. Qed.

(** X1.  The table stays well keyed: whatever the environment does, admission,
    processing (directly or through the queue handler) and cancellation turn
    a table in which every key refers to a record carrying that key into
    another such table. *)
Theorem table_stays_well_keyed (E : Env) (w : World) :
  well_keyed w →
  (∀ doc i cfg, well_keyed (snd (ProcessingService.triggerIngestion E doc i cfg w))) ∧
  (∀ data, well_keyed (snd (ProcessingService.processDocument E data w))) ∧
  (∀ key, well_keyed (snd (ProcessingService.cancelIngestion E key w))) ∧
  (∀ bj, well_keyed (snd (DocumentProcessor.handleDocumentProcessing E bj w))).
Proof.
  intros Hwk. split_and!.
  - intros. by apply well_keyed_trigger.
  - intros. by apply processDocument_table.
  - intros. by apply well_keyed_cancel.
  - intros. by apply well_keyed_handle.
Qed.

Lemma table_stays_well_keyed_witness :
  well_keyed one_job ∧
  well_keyed (snd (ProcessingService.cancelIngestion quiet "ing-1" one_job)).
Proof.
  split; [exact well_keyed_one_job|].
  apply (table_stays_well_keyed quiet one_job well_keyed_one_job).
Defined.

(** X2.  Jobs do not interfere: in a well-keyed table, admitting, processing or
    cancelling the job under one key leaves the record under every other key
    exactly as it was. *)
Theorem other_jobs_are_untouched (E : Env) (w : World) (key other : string) :
  well_keyed w →
  other ≠ key →
  (∀ doc cfg,
     lookup_job (snd (ProcessingService.triggerIngestion E doc key cfg w)) other
     = lookup_job w other) ∧
  (∀ doc cfg,
     lookup_job (snd (ProcessingService.processDocument E (job_data doc key cfg) w)) other
     = lookup_job w other) ∧
  (∀ bj, d_ingestionId (bj_data bj) = key →
     lookup_job (snd (DocumentProcessor.handleDocumentProcessing E bj w)) other
     = lookup_job w other) ∧
  lookup_job (snd (ProcessingService.cancelIngestion E key w)) other = lookup_job w other.
Proof.
  intros Hwk Hne. split_and!.
  - intros doc cfg.
    destruct (triggerIngestion_run E doc key cfg w) as (w' & -> & Hj & Hh & _).
    cbn [snd]. unfold lookup_job. rewrite Hj, Hh, lookup_insert_ne by done.
    destruct (jobs w !! other) as [l|] eqn:Hk; [|done].
    destruct (Hwk other l Hk) as (j & Hl & _). rewrite Hl. by apply lookup_app_l_Some.
  - intros doc cfg. by apply processDocument_table.
  - intros bj Hkey. destruct (handle_table E bj w) as [Hj Hh].
    rewrite (lookup_job_ext _ _ _ Hj Hh). apply processDocument_table; [done|by rewrite Hkey].
  - destruct (cancelIngestion_cases E key w)
      as [->|(l & j & w' & Hj & Hh & _ & -> & Hjobs & Hheap & _)]; [done|].
    cbn [snd]. unfold lookup_job. rewrite Hjobs, Hheap, lookup_insert_ne by done.
    destruct (jobs w !! other) as [l'|] eqn:Hk; [|done].
    apply list_lookup_alter_ne. intros ->. apply Hne. by eapply well_keyed_apart.
Qed.

Lemma other_jobs_are_untouched_witness :
  well_keyed one_job ∧ "ing-1" ≠ "ing-2" ∧
  lookup_job (snd (ProcessingService.triggerIngestion quiet "doc-2" "ing-2" None one_job))
             "ing-1"
  = lookup_job one_job "ing-1".
Proof.
  split; [exact well_keyed_one_job|]. split; [done|].
  apply (other_jobs_are_untouched quiet one_job "ing-2" "ing-1" well_keyed_one_job).
  done.
Defined.

(** X3.  No operation removes a job: a key that has a record still has one after
    any admission, processing or cancellation, under whatever key these were
    called and whatever the table looked like. *)
Theorem jobs_are_never_removed (E : Env) (w : World) (key : string) :
  is_Some (lookup_job w key) →
  (∀ doc i cfg,
     is_Some (lookup_job (snd (ProcessingService.triggerIngestion E doc i cfg w)) key)) ∧
  (∀ data, is_Some (lookup_job (snd (ProcessingService.processDocument E data w)) key)) ∧
  (∀ bj, is_Some (lookup_job (snd (DocumentProcessor.handleDocumentProcessing E bj w)) key)) ∧
  (∀ i, is_Some (lookup_job (snd (ProcessingService.cancelIngestion E i w)) key)).
Proof.
  intros [j0 (l0 & Hk0 & Hl0)%lookup_job_Some].
  assert (∀ data,
    is_Some (lookup_job (snd (ProcessingService.processDocument E data w)) key)) as Hproc.
  { intros data.
    destruct (lookup_job w (d_ingestionId data)) as [j|] eqn:Hlook.
    - apply lookup_job_Some in Hlook as (l & Hj & Hh).
      destruct (processDocument_footprint E data w l j Hj Hh)
        as (w' & -> & Hjobs & Hheap & (j' & Hl & _) & _).
      cbn [snd]. unfold lookup_job.
      destruct (Hjobs key) as [->|[-> _]].
      + rewrite Hk0. destruct (decide (l0 = l)) as [->|Hne]; [by rewrite Hl|].
        by rewrite Hheap, Hl0.
      + by rewrite Hl.
    - rewrite processDocument_absent by done. cbn [snd]. unfold lookup_job.
      cbn [jobs heap emit]. by rewrite Hk0, Hl0. }
  split_and!.
  - intros doc i cfg.
    destruct (triggerIngestion_run E doc i cfg w) as (w' & -> & Hj & Hh & _).
    cbn [snd]. unfold lookup_job. rewrite Hj, Hh.
    destruct (decide (key = i)) as [->|Hne].
    + rewrite lookup_insert_eq, (list_lookup_middle _ [] _ _ eq_refl). eauto.
    + rewrite lookup_insert_ne, Hk0 by done. by rewrite (lookup_app_l_Some _ _ _ _ Hl0).
  - exact Hproc.
  - intros bj. destruct (handle_table E bj w) as [Hj Hh].
    rewrite (lookup_job_ext _ _ _ Hj Hh). apply Hproc.
  - intros i.
    destruct (cancelIngestion_cases E i w)
      as [->|(l & j & w' & Hj & Hh & _ & -> & Hjobs & Hheap & _)].
    + cbn [snd]. unfold lookup_job. by rewrite Hk0, Hl0.
    + cbn [snd]. unfold lookup_job. rewrite Hjobs, Hheap, (insert_id _ _ _ Hj), Hk0.
      destruct (decide (l0 = l)) as [->|Hne].
      * by rewrite list_lookup_alter_eq, Hl0.
      * by rewrite list_lookup_alter_ne, Hl0.
Qed.

Lemma jobs_are_never_removed_witness :
  is_Some (lookup_job one_job "ing-1") ∧
  is_Some (lookup_job (snd (ProcessingService.cancelIngestion quiet "ing-1" one_job))
                      "ing-1").
Proof.
  assert (is_Some (lookup_job one_job "ing-1")) as H by (vm_compute; eauto).
  split; [exact H|].
  apply (jobs_are_never_removed quiet one_job "ing-1" H).
Defined.

Lemma told_notified (evs : list Event) :
  omap told evs = (fun n => (n.1.1, n.2)) <$> omap notified evs.
Proof.
  induction evs as [|e evs IH]; [done|].
  destruct e as [| | ? ? ? [p|] ?| |]; cbn [omap list_omap told notified fmap list_fmap];
    by rewrite ?IH.
Qed.

Lemma written_stored (evs : list Event) :
  omap written evs = (fun n => (n.1.1, n.2)) <$> omap stored evs.
Proof.
  induction evs as [|e evs IH]; [done|].
  destruct e; cbn [omap list_omap written stored fmap list_fmap]; by rewrite ?IH.
Qed.

(** X4.  Table writes and notifications go together.  [triggerIngestion]
    stores one record, [queued] at 0, and notifies exactly that when the
    queue accepts the item; when [documentQueue.add] rejects, the record is
    stored and nothing is notified.  The notifications of [processDocument]
    carry, in order, the key and the progress of the records it stores, and
    those of [cancelIngestion] key, status and progress: nothing is stored
    without a notification, and nothing else is notified. *)
Theorem notifications_mirror_table_writes (R : Redis) (E : Env) (w : World) :
  (∀ doc i cfg,
     ∃ evs,
       trace (snd (OnRedis.ProcessingService.triggerIngestion R E doc i cfg w))
       = trace w ++ evs ∧
       omap stored evs = [(i, "queued", 0%Z)] ∧
       omap notified evs = match add_fails R (nextJobId w) with
                           | None => [(i, "queued", 0%Z)]
                           | Some _ => []
                           end) ∧
  (∀ data,
     ∃ evs, trace (snd (ProcessingService.processDocument E data w)) = trace w ++ evs
            ∧ omap told evs = omap written evs) ∧
  (∀ key,
     ∃ evs, trace (snd (ProcessingService.cancelIngestion E key w)) = trace w ++ evs
            ∧ omap notified evs = omap stored evs).
Proof.
  split_and!.
  - intros doc i cfg. destruct (add_fails R (nextJobId w)) as [e|] eqn:Hadd.
    + rewrite (triggerIngestion_rejected _ _ _ _ _ _ e Hadd). world_simpl.
      eexists. split; [rewrite <- !app_assoc; reflexivity|]. done.
    + rewrite (triggerIngestion_accepted _ _ _ _ _ _ Hadd).
      change (wp (ProcessingService.triggerIngestion E doc i cfg) w
                (fun _ w' => ∃ evs, trace w' = trace w ++ evs
                                    ∧ omap stored evs = [(i, "queued", 0%Z)]
                                    ∧ omap notified evs = [(i, "queued", 0%Z)])).
      unfold ProcessingService.triggerIngestion. wp_steps.
      eexists. split; [rewrite <- !app_assoc; reflexivity|]. done.
  - intros data. destruct (processDocument_mirror E data w) as (evs & Htr & Hev).
    exists evs. split; [exact Htr|]. by rewrite told_notified, written_stored, Hev.
  - intros. apply cancelIngestion_mirror.
Qed.

Example mirror_on_a_failing_phase :
  let E := failing "Content Analysis" "analysis backend unavailable" in
  let w := snd (ProcessingService.processDocument E (job_data "doc-1" "ing-1" None) one_job) in
  omap notified (drop (length (trace one_job)) (trace w))
  = [("ing-1", "processing", 10%Z); ("ing-1", "processing", 20%Z);
     ("ing-1", "processing", 40%Z); ("ing-1", "failed", 40%Z)].
Proof. vm_compute. reflexivity. Qed.

(** ** The counts of getQueueStats *)

Lemma getQueueStats_run (ls : QueueService.QueueLists) (w : World) :
  ProcessingService.getQueueStats (Ok ls) w
  = (Ok {| ProcessingService.stats :=
             {| QueueService.s_waiting := length (QueueService.l_waiting ls);
                QueueService.s_active := length (QueueService.l_active ls);
                QueueService.s_completed := length (QueueService.l_completed ls);
                QueueService.s_failed := length (QueueService.l_failed ls);
                QueueService.s_delayed := length (QueueService.l_delayed ls);
                QueueService.s_total :=
                  length (QueueService.l_waiting ls) + length (QueueService.l_active ls)
                  + length (QueueService.l_completed ls) + length (QueueService.l_failed ls)
                  + length (QueueService.l_delayed ls) |};
           ProcessingService.activeJobs :=
             length (filter (fun job => status job = processing ∨ status job = queued)
                       (table_values w));
           ProcessingService.completedJobs :=
             length (filter (fun job => status job = completed) (table_values w));
           ProcessingService.failedJobs :=
             length (filter (fun job => status job = failed) (table_values w)) |}, w).
Proof. reflexivity. Qed.

Lemma tally_filters (js : list IngestionJob) :
  (length (filter (fun job => status job = processing ∨ status job = queued) js),
   length (filter (fun job => status job = completed) js),
   length (filter (fun job => status job = failed) js)) = tally js.
Proof.
  induction js as [|j js IH]; [done|].
  cbn [tally]. rewrite <- IH. rewrite !filter_cons.
  destruct (status j) eqn:Hs; unfold add_counts; cbn [counted_as fst snd];
    repeat match goal with |- context [decide ?P] => destruct (decide P) end;
    try done; exfalso; intuition congruence.
Qed.

Lemma tally_perm (l l' : list IngestionJob) : l ≡ₚ l' → tally l = tally l'.
Proof.
  induction 1 as [|x l l' _ IH|x y l|l l' l'' _ IH1 _ IH2]; cbn [tally].
  - done.
  - by rewrite IH.
  - destruct (counted_as (status x)) as [[? ?] ?], (counted_as (status y)) as [[? ?] ?],
      (tally l) as [[? ?] ?]. unfold add_counts. cbn [fst snd]. f_equal; [f_equal|]; lia.
  - congruence.
Qed.

Lemma tally_total (js : list IngestionJob) :
  fst (fst (tally js)) + snd (fst (tally js)) + snd (tally js) = length js.
Proof.
  induction js as [|j js IH]; [done|].
  cbn [tally length]. unfold add_counts. cbn [fst snd].
  destruct (status j); cbn [counted_as fst snd]; lia.
Qed.

Lemma reports_tally (w : World) : reports w (tally (table_values w)).
Proof.
  intros ls. eexists. split; [apply getQueueStats_run|].
  unfold job_counts. cbn [ProcessingService.activeJobs ProcessingService.completedJobs
    ProcessingService.failedJobs]. apply tally_filters.
Qed.

Lemma omap_ext_in {A B} (f g : A → option B) (l : list A) :
  (∀ x, x ∈ l → f x = g x) → omap f l = omap g l.
Proof.
  induction l as [|x l IH]; [done|]. intros H. cbn [omap list_omap].
  rewrite (H x) by (by left). rewrite IH; [done|]. intros y Hy. apply H. by right.
Qed.

Lemma table_values_length (w : World) :
  well_keyed w → length (table_values w) = size (jobs w).
Proof.
  intros Hwk. rewrite <- length_map_to_list. unfold table_values.
  assert (∀ kl, kl ∈ map_to_list (jobs w) → is_Some (heap w !! snd kl)) as Hall.
  { intros [k l] Hin%elem_of_map_to_list. destruct (Hwk k l Hin) as (j & Hl & _).
    by exists j. }
  induction (map_to_list (jobs w)) as [|kl kls IH]; [done|].
  cbn [omap list_omap length]. destruct (Hall kl) as [j Hj]; [by left|]. rewrite Hj.
  cbn [length]. f_equal. apply IH. intros x Hx. apply Hall. by right.
Qed.

(** The table with the record under one key set apart. *)
Lemma table_values_split (w : World) (key : string) (l : loc) (j : IngestionJob) :
  jobs w !! key = Some l → heap w !! l = Some j →
  table_values w
  ≡ₚ j :: omap (fun kl => heap w !! snd kl) (map_to_list (delete key (jobs w))).
Proof.
  intros Hk Hl. unfold table_values. rewrite <- (map_to_list_delete _ _ _ Hk).
  cbn [omap list_omap snd]. by rewrite Hl.
Qed.

(** A table in which one record was replaced. *)
Lemma tally_replaced (w w' : World) (key : string) (l l' : loc) (j j' : IngestionJob) :
  well_keyed w →
  jobs w !! key = Some l → heap w !! l = Some j →
  jobs w' = <[key := l']> (jobs w) → heap w' !! l' = Some j' →
  (∀ k l0, k ≠ key → jobs w !! k = Some l0 → heap w' !! l0 = heap w !! l0) →
  add_counts (counted_as (status j)) (tally (table_values w'))
  = add_counts (counted_as (status j')) (tally (table_values w)).
Proof.
  intros Hwk Hk Hl Hjobs Hl' Hrest.
  assert (jobs w' !! key = Some l') as Hk' by (rewrite Hjobs; apply lookup_insert_eq).
  rewrite (tally_perm _ _ (table_values_split w key l j Hk Hl)).
  rewrite (tally_perm _ _ (table_values_split w' key l' j' Hk' Hl')).
  rewrite Hjobs, delete_insert_eq. cbn [tally].
  rewrite (omap_ext_in (fun kl => heap w' !! snd kl) (fun kl => heap w !! snd kl)).
  - destruct (counted_as (status j)) as [[? ?] ?], (counted_as (status j')) as [[? ?] ?].
    match goal with |- context [tally ?x] => destruct (tally x) as [[? ?] ?] end.
    unfold add_counts. cbn [fst snd]. f_equal; [f_equal|]; lia.
  - intros [k l0] [Hne Hin]%elem_of_map_to_list%lookup_delete_Some. by eapply Hrest.
Qed.

(** A table that gained a record under a new key. *)
Lemma tally_added (w w' : World) (key : string) (j' : IngestionJob) :
  well_keyed w →
  jobs w !! key = None →
  jobs w' = <[key := length (heap w)]> (jobs w) → heap w' = heap w ++ [j'] →
  tally (table_values w') = add_counts (counted_as (status j')) (tally (table_values w)).
Proof.
  intros Hwk Hk Hjobs Hheap. unfold table_values at 1.
  rewrite Hjobs.
  rewrite (tally_perm _ _ (omap_Permutation _ _ _ (map_to_list_insert _ _ _ Hk))).
  cbn [omap list_omap snd]. rewrite Hheap, (list_lookup_middle _ [] _ _ eq_refl).
  cbn [tally]. f_equal. unfold table_values. f_equal. apply omap_ext_in.
  intros [k l0] Hin%elem_of_map_to_list. destruct (Hwk k l0 Hin) as (j0 & Hl0 & _).
  cbn [snd]. rewrite Hl0. by apply lookup_app_l_Some.
Qed.

(** X5.  The statistics count every job once: [getQueueStats] changes nothing and
    passes a rejection of the queue on; the queue's [total] is the sum of its
    five counts; and in a well-keyed table the numbers of active, completed
    and failed jobs add up to the number of keys. *)
Theorem queue_stats_count_every_job_once (w : World) :
  (∀ e, ProcessingService.getQueueStats (Throw e) w = (Throw e, w)) ∧
  (∀ ls, ∃ st,
     ProcessingService.getQueueStats (Ok ls) w = (Ok st, w) ∧
     QueueService.s_total (ProcessingService.stats st)
     = QueueService.s_waiting (ProcessingService.stats st)
       + QueueService.s_active (ProcessingService.stats st)
       + QueueService.s_completed (ProcessingService.stats st)
       + QueueService.s_failed (ProcessingService.stats st)
       + QueueService.s_delayed (ProcessingService.stats st) ∧
     (well_keyed w →
      ProcessingService.activeJobs st + ProcessingService.completedJobs st
      + ProcessingService.failedJobs st = size (jobs w))).
Proof.
  split; [done|]. intros ls. eexists. split; [apply getQueueStats_run|].
  split; [reflexivity|]. intros Hwk.
  cbn [ProcessingService.activeJobs ProcessingService.completedJobs
       ProcessingService.failedJobs].
  pose proof (tally_filters (table_values w)) as Hf.
  pose proof (tally_total (table_values w)) as Ht.
  rewrite <- Hf in Ht. cbn [fst snd] in Ht. by rewrite Ht, table_values_length.
Qed.

(** X6.  The counts follow the jobs.  In a well-keyed table that reports [a]
    active, [c] completed and [f] failed jobs: admitting a job under a new
    key makes one more active job; a cancellation that answers [true] turns
    one active job into a failed one; and processing a job that was queued or
    processing turns one active job into a completed one, or into a failed
    one when a phase throws. *)
Theorem job_counts_follow_the_operations (E : Env) (w : World) :
  well_keyed w →
  ∃ a c f,
    reports w (a, c, f) ∧
    (∀ doc i cfg,
       lookup_job w i = None →
       reports (snd (ProcessingService.triggerIngestion E doc i cfg w)) (S a, c, f)) ∧
    (∀ key,
       fst (ProcessingService.cancelIngestion E key w)
       = Ok {| ProcessingService.cancelled := true |} →
       ∃ a', a = S a' ∧
             reports (snd (ProcessingService.cancelIngestion E key w)) (a', c, S f)) ∧
    (∀ data j,
       lookup_job w (d_ingestionId data) = Some j →
       is_terminal (status j) = false →
       ∃ a', a = S a' ∧
             reports (snd (ProcessingService.processDocument E data w))
                     (match first_fault E with
                      | None => (a', S c, f)
                      | Some _ => (a', c, S f)
                      end)).
Proof.
  intros Hwk.
  destruct (tally (table_values w)) as [[a c] f] eqn:Htally.
  exists a, c, f. split_and!.
  - rewrite <- Htally. apply reports_tally.
  - intros doc i cfg Hno.
    destruct (triggerIngestion_run E doc i cfg w) as (w' & -> & Hj & Hh & _). cbn [snd].
    assert (jobs w !! i = None) as Hk.
    { destruct (jobs w !! i) as [l|] eqn:Hk; [|done].
      destruct (Hwk i l Hk) as (j & Hl & _). unfold lookup_job in Hno.
      by rewrite Hk, Hl in Hno. }
    pose proof (tally_added w w' i _ Hwk Hk Hj Hh) as Hadd.
    rewrite Htally in Hadd. unfold add_counts in Hadd. cbn in Hadd.
    rewrite <- Hadd. apply reports_tally.
  - intros key Htrue.
    destruct (cancelIngestion_cases E key w)
      as [Hrun|(l & j & w' & Hj & Hh & Hlive & Hrun & Hjobs & Hheap & _)];
      rewrite Hrun in Htrue |- *; [done|]. cbn [snd].
    assert (heap w' !! l = Some (cancelled_job (clock w) j)) as Hl'
      by (by rewrite Hheap, list_lookup_alter_eq, Hh).
    assert (∀ k l0, k ≠ key → jobs w !! k = Some l0 → heap w' !! l0 = heap w !! l0)
      as Hrest.
    { intros k l0 Hne Hk0. rewrite Hheap. apply list_lookup_alter_ne.
      intros ->. apply Hne. by eapply well_keyed_apart. }
    pose proof (tally_replaced w w' key l l j _ Hwk Hj Hh Hjobs Hl' Hrest) as Hrep.
    rewrite Htally in Hrep.
    destruct (tally (table_values w')) as [[a' c'] f'] eqn:Htally'.
    unfold add_counts in Hrep.
    assert (counted_as (status j) = (1, 0, 0)) as Hone by (by destruct (status j)).
    rewrite Hone in Hrep. cbn in Hrep.
    injection Hrep as Ha Hc Hf.
    exists a'. split; [lia|].
    replace (a', c, S f) with (tally (table_values w')); [apply reports_tally|].
    rewrite Htally'. f_equal; [f_equal|]; lia.
  - intros data j Hlook Hlive.
    pose proof (well_keyed_lookup _ _ _ Hwk Hlook) as Hid.
    apply lookup_job_Some in Hlook as (l & Hj & Hh).
    destruct (processDocument_present E data w l j Hj Hh)
      as (w' & Hrun & _ & _ & tend & evs & Hfinal & _).
    destruct (processDocument_footprint E data w l j Hj Hh)
      as (w'' & Hrun' & Hjobs & Hheap & _).
    rewrite Hrun in Hrun'. injection Hrun' as <-. rewrite Hrun. cbn [snd].
    assert (jobs w' = <[d_ingestionId data := l]> (jobs w)) as Hsame.
    { rewrite (insert_id _ _ _ Hj). apply map_eq. intros k.
      destruct (Hjobs k) as [?|[Hk [->| ->]]]; [done|..]; rewrite ?Hid; congruence. }
    assert (∀ k l0, k ≠ d_ingestionId data → jobs w !! k = Some l0
                    → heap w' !! l0 = heap w !! l0) as Hrest.
    { intros k l0 Hne Hk0. apply Hheap. intros ->. apply Hne.
      by eapply well_keyed_apart. }
    pose proof (tally_replaced w w' _ l l j _ Hwk Hj Hh Hsame Hfinal Hrest) as Hrep.
    rewrite Htally in Hrep.
    destruct (tally (table_values w')) as [[a' c'] f'] eqn:Htally'.
    assert (counted_as (status j) = (1, 0, 0)) as Hone by (by destruct (status j)).
    rewrite Hone in Hrep. unfold add_counts in Hrep.
    pose proof (final_job_fields E (clock w) tend j) as Hfields.
    destruct (first_fault E) as [e|]; destruct Hfields as (Hs & _);
      rewrite Hs in Hrep; cbn in Hrep; injection Hrep as Ha Hc Hf.
    all: exists a'; (split; [lia|]).
    all: match goal with |- reports _ ?x =>
           replace x with (tally (table_values w')); [apply reports_tally|] end.
    all: rewrite Htally'; f_equal; [f_equal|]; lia.
Qed.

Lemma job_counts_follow_the_operations_witness :
  well_keyed one_job ∧
  ∃ a c f,
    reports one_job (a, c, f) ∧
    ∃ a', a = S a' ∧
          reports (snd (ProcessingService.cancelIngestion quiet "ing-1" one_job))
                  (a', c, S f).
Proof.
  split; [exact well_keyed_one_job|].
  destruct (job_counts_follow_the_operations quiet one_job well_keyed_one_job)
    as (a & c & f & Hrep & _ & Hcancel & _).
  exists a, c, f. split; [exact Hrep|]. apply Hcancel. vm_compute. reflexivity.
Defined.

(** ** The result of the processor, stage by stage *)

Ltac runs_body :=
  intros w; unfold returned, bind, sleep, modify, ret, log; cbn [fst snd];
  eexists; split; reflexivity.

Lemma extractText_runs job :
  runs_as (DocumentProcessorService.extractText job) (set_clock (fun t => (t + 1000)%Z)).
Proof. unfold DocumentProcessorService.extractText. runs_body. Qed.

Lemma performOCR_runs job :
  runs_as (DocumentProcessorService.performOCR job) (set_clock (fun t => (t + 2000)%Z)).
Proof. unfold DocumentProcessorService.performOCR. runs_body. Qed.

Lemma extractKeywords_runs job text :
  runs_as (DocumentProcessorService.extractKeywords job text)
          (set_clock (fun t => (t + 500)%Z)).
Proof.
  unfold DocumentProcessorService.extractKeywords.
  destruct text as [txt|]; [destruct (Js.truthy_str (Some txt))|]; runs_body.
Qed.

Lemma generateSummary_runs job text :
  runs_as (DocumentProcessorService.generateSummary job text)
          (set_clock (fun t => (t + 1500)%Z)).
Proof.
  unfold DocumentProcessorService.generateSummary.
  destruct text as [txt|]; [destruct (Js.truthy_str (Some txt))|]; runs_body.
Qed.

Lemma detectLanguage_runs text :
  runs_as (DocumentProcessorService.detectLanguage text) (set_clock (fun t => (t + 300)%Z)).
Proof.
  unfold DocumentProcessorService.detectLanguage.
  destruct text as [txt|]; [destruct (Js.truthy_str (Some txt))|]; runs_body.
Qed.

Lemma indexForSearch_runs job r :
  runs_as (DocumentProcessorService.indexForSearch job r)
          (fun w => emit (EvLog LOG ("Indexed document " +:+ Dto.documentId job
                                       +:+ " for search"))
                      (set_clock (fun t => (t + 800)%Z) w)).
Proof. unfold DocumentProcessorService.indexForSearch. runs_body. Qed.

Lemma wp_stage_runs {A} E name (m : M A) (after : World → World)
    (s : Dto.ProcessingResult * World) Q :
  runs_as m after →
  (∀ e, stage_fails E name = Some e → Q (Throw e) s) →
  (stage_fails E name = None → ∀ v, returned m = Some v → Q (Ok v) (fst s, after (snd s))) →
  wp (DocumentProcessorService.inW (DocumentProcessorService.stage E name m)) s Q.
Proof.
  intros Hm Hthrow Hok. unfold wp, DocumentProcessorService.inW,
    DocumentProcessorService.stage, bind, stage_work.
  destruct (stage_fails E name) as [e|].
  - cbn [throw fst snd]. destruct s. by apply Hthrow.
  - cbn [ret]. destruct (Hm (snd s)) as (v & Hv & ->). cbn [fst snd]. by apply Hok.
Qed.

Create HintDb stage_runs.
#[local] Hint Resolve extractText_runs performOCR_runs extractKeywords_runs
  generateSummary_runs detectLanguage_runs indexForSearch_runs : stage_runs.

Lemma silent_refl w : silent w w.
Proof. split_and!; try done. exists []. by rewrite app_nil_r. Qed.

Lemma silent_emit w w' e :
  posted e = None → queue_progress e = None → silent w w' → silent w (emit e w').
Proof.
  intros He Hq' (Hj & Hh & Hq & Hp & evs & Htr & Hev & Hqp). split_and!; try done.
  exists (evs ++ [e]). cbn [trace emit]. rewrite Htr, app_assoc, !omap_app, Hev, Hqp.
  split; [done|]. cbn [omap list_omap]. by rewrite He, Hq'.
Qed.

Lemma silent_clock w w' f : silent w w' → silent w (set_clock f w').
Proof. intros (Hj & Hh & Hq & Hp & Hev). by split_and!. Qed.

Ltac keep_silent :=
  cbv beta; cbn [fst snd];
  repeat first [ apply silent_clock | apply silent_emit; [reflexivity|reflexivity|] ];
  assumption.

Ltac run_step :=
  cbv beta iota; cbn [fst snd];
  lazymatch goal with
  | |- wp (bind _ _) _ _ => apply wp_bind
  | |- wp (ret _) _ _ => apply wp_ret
  | |- wp (DocumentProcessorService.inW (DocumentProcessorService.stage _ _ _)) _ _ =>
      eapply wp_stage_runs; [auto with stage_runs|intros ? ?|intros ? ? ?]
  | |- wp (DocumentProcessorService.inW (DocumentProcessorService.sendProcessingCallback _ _ _))
          _ _ => apply wp_inW; apply wp_callback
  | |- wp (DocumentProcessorService.inW now) _ _ => apply wp_inW; apply wp_gets
  | |- wp (DocumentProcessorService.inW _) _ _ => apply wp_inW; apply wp_modify
  | |- wp (DocumentProcessorService.set_result _) _ _ => apply wp_modify
  | |- wp DocumentProcessorService.get_result _ _ => apply wp_gets
  end.

(** *** Which stages ran *)

Lemma ran_all_ok E rows name :
  (∀ c p n, (c, p, n) ∈ rows → c = true → stage_fails E n = None) →
  ran E rows name = ran quiet rows name.
Proof.
  induction rows as [|[[c p] n] rows IH]; intros Hok; [done|].
  cbn [ran quiet stage_fails]. rewrite IH by (intros; eapply Hok; [by right|done]).
  destruct c; [|done]. by rewrite (Hok true p n) by (done || by left).
Qed.

Lemma ran_halts E pre p n post e name :
  (∀ c p0 n0, (c, p0, n0) ∈ pre → c = true → stage_fails E n0 = None) →
  stage_fails E n = Some e →
  ran E (pre ++ (true, p, n) :: post) name = ran quiet pre name.
Proof.
  intros Hok Hf. induction pre as [|[[c p0] n0] pre IH].
  - cbn [app ran]. by rewrite Hf.
  - cbn [app ran quiet stage_fails]. rewrite IH by (intros; eapply Hok; [by right|done]).
    destruct c; [|done]. by rewrite (Hok true p0 n0) by (done || by left).
Qed.

Lemma ran_quiet_prefix (cfg : Dto.ProcessingConfig) (k : nat) (name : string) :
  name ∈ ["extractText"; "performOCR"; "extractKeywords"; "generateSummary";
          "detectLanguage"] →
  (k ≤ 6)%nat →
  ran quiet (take k (stage_rows cfg)) name = enabled_upto cfg k name.
Proof.
  intros Hin Hk. unfold stage_rows.
  repeat (apply elem_of_cons in Hin as [->|Hin]); [..|by apply elem_of_nil in Hin].
  all: unfold enabled_upto; cbv beta iota.
  all: destruct (Dto.extractText cfg), (Dto.performOCR cfg), (Dto.extractKeywords cfg),
         (Dto.generateSummary cfg), (Dto.detectLanguage cfg), (Dto.enableSearch cfg).
  all: do 7 (destruct k as [|k]; [reflexivity|]).
  all: lia.
Qed.

Lemma result_fields_ext (did did' : string → bool) job r :
  (∀ name, name ∈ ["extractText"; "performOCR"; "extractKeywords"; "generateSummary";
                   "detectLanguage"] → did' name = did name) →
  result_fields did job r → result_fields did' job r.
Proof.
  intros Hext (Hid & H1 & H2 & H3 & H4 & H5). unfold result_fields.
  rewrite !Hext by (set_unfold; tauto). done.
Qed.

(** *** The blocks of the [try] block *)

Section Blocks.
Variable E : Env.
Variable job : Dto.DocumentProcessingJob.
Variable w : World.

Ltac fields_now Hf Hc :=
  let Hid := fresh "Hid" in
  let H1 := fresh "H1" in
  let H2 := fresh "H2" in
  let H3 := fresh "H3" in
  let H4 := fresh "H4" in
  let H5 := fresh "H5" in
  destruct Hf as (Hid & H1 & H2 & H3 & H4 & H5);
  unfold result_fields, enabled_upto in *; cbv beta iota in *;
  cbn [Nat.leb andb] in *;
  cbn [fst snd Dto.r_documentId Dto.extractedText Dto.ocrText Dto.keywords Dto.summary
       Dto.language Dto.with_success Dto.with_extractedText Dto.with_ocrText
       Dto.with_keywords Dto.with_summary Dto.with_language Dto.with_processingTime
       Dto.with_errors];
  rewrite ?Hc; cbn [andb];
  split_and!; first [assumption | symmetry; assumption | reflexivity].

Ltac oks_now Hok Hc :=
  let c := fresh "c" in
  let p := fresh "p" in
  let n := fresh "n" in
  let Hin := fresh "Hin" in
  let Htrue := fresh "Htrue" in
  intros c p n Hin Htrue; unfold stage_rows in Hin, Hok; cbn [take] in Hin, Hok;
  repeat (apply elem_of_cons in Hin as [Hin|Hin];
          [lazymatch type of Hin with
           | _ = (?c0, ?p0, ?n0) =>
               injection Hin as -> -> ->;
               first [ assumption
                     | congruence
                     | apply (Hok c0 p0 n0); [set_unfold; tauto|assumption] ]
           end|]);
  by apply elem_of_nil in Hin.

Ltac block_proof k p name :=
  let Hf := fresh "Hf" in
  let Hs := fresh "Hs" in
  let Hok := fresh "Hok" in
  let Hc := fresh "Hc" in
  intros (Hf & Hs & Hok);
  match goal with |- wp (when ?c _) _ _ => destruct c eqn:Hc end; cbn [when];
  [ repeat run_step;
    [ right; eexists _, p, name, _;
      split_and!;
        [ reflexivity
        | unfold stage_rows; cbn [take app]; rewrite Hc; reflexivity
        | assumption
        | split_and!; [exact Hf|keep_silent|exact Hok] ]
    | left;
      repeat match goal with v : unit |- _ => destruct v end;
      (split; [reflexivity|]);
      split_and!; [fields_now Hf Hc|keep_silent|oks_now Hok Hc] ]
  | apply wp_ret; left; (split; [reflexivity|]);
    split_and!; [fields_now Hf Hc|exact Hs|oks_now Hok Hc] ].

Lemma block_extractText s :
  after_blocks E job w 0 s →
  wp (when (Dto.extractText (Dto.config job))
        (DocumentProcessorService.inW
           (DocumentProcessorService.updateProgress (Dto.documentId job) 10
              "Extracting text...") ;;
         v <- DocumentProcessorService.inW
                (DocumentProcessorService.stage E "extractText"
                   (DocumentProcessorService.extractText job)) ;;
         DocumentProcessorService.set_result (Dto.with_extractedText v)))
     s (block_ends E job w 0).
Proof. block_proof 0 10%Z "extractText". Qed.

Lemma block_performOCR s :
  after_blocks E job w 1 s →
  wp (when (Dto.performOCR (Dto.config job))
        (DocumentProcessorService.inW
           (DocumentProcessorService.updateProgress (Dto.documentId job) 30
              "Performing OCR...") ;;
         v <- DocumentProcessorService.inW
                (DocumentProcessorService.stage E "performOCR"
                   (DocumentProcessorService.performOCR job)) ;;
         DocumentProcessorService.set_result (Dto.with_ocrText v)))
     s (block_ends E job w 1).
Proof. block_proof 1 30%Z "performOCR". Qed.

Lemma block_extractKeywords s :
  after_blocks E job w 2 s →
  wp (when (Dto.extractKeywords (Dto.config job))
        (DocumentProcessorService.inW
           (DocumentProcessorService.updateProgress (Dto.documentId job) 50
              "Extracting keywords...") ;;
         r <- DocumentProcessorService.get_result ;;
         v <- DocumentProcessorService.inW
                (DocumentProcessorService.stage E "extractKeywords"
                   (DocumentProcessorService.extractKeywords job (Dto.extractedText r))) ;;
         DocumentProcessorService.set_result (Dto.with_keywords v)))
     s (block_ends E job w 2).
Proof. block_proof 2 50%Z "extractKeywords". Qed.

Lemma block_generateSummary s :
  after_blocks E job w 3 s →
  wp (when (Dto.generateSummary (Dto.config job))
        (DocumentProcessorService.inW
           (DocumentProcessorService.updateProgress (Dto.documentId job) 70
              "Generating summary...") ;;
         r <- DocumentProcessorService.get_result ;;
         v <- DocumentProcessorService.inW
                (DocumentProcessorService.stage E "generateSummary"
                   (DocumentProcessorService.generateSummary job (Dto.extractedText r))) ;;
         DocumentProcessorService.set_result (Dto.with_summary v)))
     s (block_ends E job w 3).
Proof. block_proof 3 70%Z "generateSummary". Qed.

Lemma block_detectLanguage s :
  after_blocks E job w 4 s →
  wp (when (Dto.detectLanguage (Dto.config job))
        (DocumentProcessorService.inW
           (DocumentProcessorService.updateProgress (Dto.documentId job) 85
              "Detecting language...") ;;
         r <- DocumentProcessorService.get_result ;;
         v <- DocumentProcessorService.inW
                (DocumentProcessorService.stage E "detectLanguage"
                   (DocumentProcessorService.detectLanguage (Dto.extractedText r))) ;;
         DocumentProcessorService.set_result (Dto.with_language v)))
     s (block_ends E job w 4).
Proof. block_proof 4 85%Z "detectLanguage". Qed.

Lemma block_indexForSearch s :
  after_blocks E job w 5 s →
  wp (when (Dto.enableSearch (Dto.config job))
        (DocumentProcessorService.inW
           (DocumentProcessorService.updateProgress (Dto.documentId job) 95
              "Indexing for search...") ;;
         r <- DocumentProcessorService.get_result ;;
         DocumentProcessorService.inW
           (DocumentProcessorService.stage E "indexForSearch"
              (DocumentProcessorService.indexForSearch job r))))
     s (block_ends E job w 5).
Proof. block_proof 5 95%Z "indexForSearch". Qed.

Lemma callback_ends (r : Dto.ProcessingResult) (w' : World) :
  silent w w' →
  let w'' := emit (callback_log E (Dto.documentId job) (posts w'))
               (emit (callback_post E (Dto.documentId job) r w') (count_post w')) in
  jobs w'' = jobs w ∧ heap w'' = heap w ∧ queue w'' = queue w ∧
  posts w'' = S (posts w) ∧
  ∃ evs, trace w'' = trace w ++ evs ∧
         omap posted evs = [(callback_url E, CallbackBody (Dto.documentId job) r)] ∧
         omap queue_progress evs = [].
Proof.
  intros (Hj & Hh & Hq & Hp & evs & Htr & Hev & Hqp). cbv zeta.
  cbn [jobs heap queue posts trace emit count_post]. split_and!; [done..|by rewrite Hp|].
  exists (evs ++ [callback_post E (Dto.documentId job) r w';
                  callback_log E (Dto.documentId job) (posts w')]).
  split; [by rewrite Htr, <- !app_assoc|].
  rewrite !omap_app, Hev, Hqp. unfold callback_log, callback_post, callback_url.
  by destruct (http_fails E (posts w')).
Qed.

(** The rest of the [try] block, after the six guarded stages. *)
Lemma tail_ends t s :
  after_blocks E job w 6 s →
  wp (DocumentProcessorService.inW
        (DocumentProcessorService.updateProgress (Dto.documentId job) 100
           "Processing completed") ;;
      DocumentProcessorService.set_result (Dto.with_success true) ;;
      t' <- DocumentProcessorService.inW now ;;
      DocumentProcessorService.set_result (Dto.with_processingTime (t' - t)) ;;
      r <- DocumentProcessorService.get_result ;;
      DocumentProcessorService.inW
        (log ("Processing completed for document " +:+ Dto.documentId job +:+ " in "
                +:+ pretty (Dto.processingTime r) +:+ "ms")) ;;
      DocumentProcessorService.inW
        (DocumentProcessorService.sendProcessingCallback E (Dto.documentId job) r) ;;
      ret r)
     s (run_ends E job w).
Proof.
  intros (Hf & Hs & Hok). repeat run_step. cbv beta iota. cbn [fst snd].
  eexists. split; [reflexivity|]. split.
  - apply (result_fields_ext (enabled_upto (Dto.config job) 6)).
    + intros name Hin. rewrite <- ran_quiet_prefix by (done || lia).
      rewrite take_ge by (by unfold stage_rows; cbn [length]; lia).
      apply ran_all_ok. intros c p n Hrow. apply (Hok c p n).
      by rewrite take_ge by (unfold stage_rows; cbn [length]; lia).
    + destruct Hf as (Hid & H1 & H2 & H3 & H4 & H5). by split_and!.
  - apply callback_ends. keep_silent.
Qed.

(** The [catch] block, entered from the [k]-th guarded stage. *)
Lemma on_error_ends (k : nat) t e p n post s :
  (k ≤ 6)%nat →
  stage_rows (Dto.config job) = take k (stage_rows (Dto.config job)) ++ (true, p, n) :: post →
  stage_fails E n = Some e →
  after_blocks E job w k s →
  wp (DocumentProcessorService.on_error E job t e) s (run_ends E job w).
Proof.
  intros Hk Hrows Hfail (Hf & Hs & Hok).
  unfold DocumentProcessorService.on_error. repeat run_step. cbv beta iota. cbn [fst snd].
  eexists. split; [reflexivity|]. split.
  - apply (result_fields_ext (enabled_upto (Dto.config job) k)).
    + intros name Hin. rewrite <- ran_quiet_prefix by done.
      rewrite Hrows at 1. by eapply ran_halts.
    + destruct Hf as (Hid & H1 & H2 & H3 & H4 & H5). by split_and!.
  - apply callback_ends. keep_silent.
Qed.

End Blocks.

Ltac next_block lem k Hinv :=
  apply wp_bind;
  eapply wp_mono; [apply lem; exact Hinv|];
  clear Hinv;
  let out := fresh "out" in
  let s := fresh "s" in
  let e := fresh "e" in
  let p := fresh "p" in
  let n := fresh "n" in
  let post := fresh "post" in
  let Hrows := fresh "Hrows" in
  let Hfail := fresh "Hfail" in
  intros out s [(-> & Hinv)|(e & p & n & post & -> & Hrows & Hfail & Hinv)];
  cbv beta iota;
  [ | by eapply (on_error_ends _ _ _ k); [lia|exact Hrows|exact Hfail|exact Hinv] ].

(** One run of the processor, from the first line to the last. *)
Lemma processor_run E job w :
  wp (try_catch (DocumentProcessorService.pipeline E job (clock w))
                (DocumentProcessorService.on_error E job (clock w)))
     (initial_result job, w) (run_ends E job w).
Proof.
  unfold DocumentProcessorService.pipeline. cbv zeta.
  apply wp_try. do 2 run_step. cbv beta iota.
  match goal with |- wp _ ?s0 _ => assert (after_blocks E job w 0 s0) as Hinv end.
  { split_and!.
    - by split_and!.
    - cbn [snd]. by apply silent_emit, silent_refl.
    - intros c p n Hin. cbn [take] in Hin. by apply elem_of_nil in Hin. }
  next_block block_extractText 0 Hinv.
  next_block block_performOCR 1 Hinv.
  next_block block_extractKeywords 2 Hinv.
  next_block block_generateSummary 3 Hinv.
  next_block block_detectLanguage 4 Hinv.
  next_block block_indexForSearch 5 Hinv.
  eapply wp_mono; [by apply tail_ends|].
  intros out s5 (r & -> & Hends). by exists r.
Qed.

Lemma processDocument_ends E job w :
  ∃ r w',
    DocumentProcessorService.processDocument E job w = (Ok r, w') ∧
    run_ends E job w (Ok r) (r, w').
Proof.
  pose proof (processor_run E job w) as Hwp. unfold wp in Hwp.
  unfold DocumentProcessorService.processDocument. cbv zeta. fold (initial_result job).
  destruct (try_catch (DocumentProcessorService.pipeline E job (clock w))
              (DocumentProcessorService.on_error E job (clock w)) (initial_result job, w))
    as [out [res' w']].
  cbn [fst snd] in *. destruct Hwp as (r & -> & Hrest).
  exists r, w'. split; [done|]. exists r. by split.
Qed.

(** *** What a run of the processor leaves in its result *)

Lemma returned_is_Some {A} (m : M A) (after : World → World) :
  runs_as m after → is_Some (returned m).
Proof. intros H. destruct (H empty_world) as (v & -> & _). by exists v. Qed.

(** X7.  The result follows the stages: [processDocument] returns a result in
    which each of [extractedText], [ocrText], [keywords], [summary] and
    [language] holds what its stage returned if that stage ran to its end
    (it is enabled, and neither it nor an enabled stage before it threw) and
    is undefined otherwise; the keyword, summary and language stages are
    given the extracted text of the result. *)
Theorem result_follows_the_stages (E : Env) (job : Dto.DocumentProcessingJob) (w : World) :
  ∃ r w',
    DocumentProcessorService.processDocument E job w = (Ok r, w') ∧
    let did := ran E (stage_rows (Dto.config job)) in
    result_fields did job r ∧
    (is_Some (Dto.extractedText r) ↔ did "extractText" = true) ∧
    (is_Some (Dto.ocrText r) ↔ did "performOCR" = true) ∧
    (is_Some (Dto.keywords r) ↔ did "extractKeywords" = true) ∧
    (is_Some (Dto.summary r) ↔ did "generateSummary" = true) ∧
    (is_Some (Dto.language r) ↔ did "detectLanguage" = true).
Proof.
  destruct (processDocument_ends E job w) as (r & w' & Hrun & r' & [= <-] & Hf & _).
  exists r, w'. split; [done|]. cbv zeta. split; [done|].
  destruct Hf as (_ & H1 & H2 & H3 & H4 & H5).
  rewrite H1, H2, H3, H4, H5.
  split_and!.
  all: match goal with |- is_Some (if ?b then _ else _) ↔ _ => destruct b end.
  all: split; intros H; try done; try (by destruct H).
  all: eapply returned_is_Some; auto with stage_runs.
Qed.

Example result_when_the_keyword_stage_throws :
  let E := failing "extractKeywords" "keyword service down" in
  let did := ran E (stage_rows (Dto.config (bj_data processor_item))) in
  did "extractText" = true ∧ did "performOCR" = true ∧ did "extractKeywords" = false ∧
  did "generateSummary" = false ∧ did "detectLanguage" = false.
Proof. vm_compute. done. Qed.

(** X8.  Only extracted text feeds the later stages.  When text extraction is
    disabled, whatever OCR produced, a run leaves [extractedText] undefined,
    and the stages that ran give the fallbacks: keywords
    ["document", "file", fileType], the summary of a document that could not
    be processed, and language "unknown". *)
Theorem ocr_text_feeds_no_stage (E : Env) (job : Dto.DocumentProcessingJob) (w : World) :
  Dto.extractText (Dto.config job) = false →
  ∃ r w',
    DocumentProcessorService.processDocument E job w = (Ok r, w') ∧
    let did := ran E (stage_rows (Dto.config job)) in
    Dto.extractedText r = None ∧
    Dto.keywords r
    = (if did "extractKeywords" then Some ["document"; "file"; Dto.fileType job] else None) ∧
    Dto.summary r
    = (if did "generateSummary"
       then Some ("Summary for " +:+ Dto.fileName job
                    +:+ ": This document contains content that could not be processed for summary generation.")
       else None) ∧
    Dto.language r = (if did "detectLanguage" then Some "unknown" else None).
Proof.
  intros Hoff.
  destruct (processDocument_ends E job w) as (r & w' & Hrun & r' & [= <-] & Hf & _).
  exists r, w'. split; [done|]. cbv zeta.
  destruct Hf as (_ & H1 & _ & H3 & H4 & H5).
  assert (ran E (stage_rows (Dto.config job)) "extractText" = false) as Hnot.
  { unfold stage_rows. cbn [ran]. by rewrite Hoff. }
  rewrite Hnot in H1. rewrite H1 in H3, H4, H5. by split_and!.
Qed.

Lemma ocr_text_feeds_no_stage_witness :
  Dto.extractText (Dto.config ocr_job) = false ∧
  ∃ r w',
    DocumentProcessorService.processDocument quiet ocr_job empty_world = (Ok r, w') ∧
    Dto.extractedText r = None ∧
    Dto.keywords r = Some ["document"; "file"; "png"] ∧
    Dto.language r = Some "unknown".
Proof.
  split; [reflexivity|].
  destruct (ocr_text_feeds_no_stage quiet ocr_job empty_world eq_refl)
    as (r & w' & Hrun & H1 & H2 & _ & H4).
  exists r, w'. by split_and!.
Defined.

(** X9.  One callback per run.  Whether the stages succeed or one of them throws,
    a run of [processDocument] makes exactly one HTTP request, to the
    callback address, and its body is the document id with the very result
    the call returns; the job table and the queue are left as they were. *)
Theorem one_callback_per_run (E : Env) (job : Dto.DocumentProcessingJob) (w : World) :
  ∃ r w',
    DocumentProcessorService.processDocument E job w = (Ok r, w') ∧
    jobs w' = jobs w ∧ heap w' = heap w ∧ queue w' = queue w ∧
    posts w' = S (posts w) ∧
    ∃ evs, trace w' = trace w ++ evs ∧
           omap posted evs = [(callback_url E, CallbackBody (Dto.documentId job) r)].
Proof.
  destruct (processDocument_ends E job w)
    as (r & w' & Hrun & r' & [= <-] & _ & Hj & Hh & Hq & Hp & evs & Htr & Hev & _).
  exists r, w'. split_and!; try done. by exists evs.
Qed.

(** *** What the queue is told *)

Lemma processDocument_quiet_to_queue E data w :
  ∃ evs, trace (snd (ProcessingService.processDocument E data w)) = trace w ++ evs
         ∧ omap queue_progress evs = [].
Proof.
  destruct (lookup_job w (d_ingestionId data)) as [j|] eqn:Hlook.
  - apply lookup_job_Some in Hlook as (l & Hj & Hh).
    destruct (processDocument_footprint E data w l j Hj Hh)
      as (w' & -> & _ & _ & _ & _ & _ & evs & Htr & _ & Hev). by exists evs.
  - rewrite processDocument_absent by done. eexists. split; [reflexivity|done].
Qed.

(** X10.  What the queue is told.  A run of either handler reports the entry at
    0 and then at 100 and nothing else, whatever became of the job:
    completed, failed in a phase or a stage, or not found in the table.
    When [job.progress(0)] is rejected nothing is reported, and when
    [job.progress(100)] is, only the 0. *)
Theorem queue_progress_is_0_then_100 (R : Redis) (E : Env) (w : World) :
  (∀ bj : BullJob JobData,
     ∃ evs,
       trace (snd (OnRedis.DocumentProcessor.handleDocumentProcessing R E bj w))
       = trace w ++ evs ∧
       omap queue_progress evs = queue_reports R (bj_id bj)) ∧
  (∀ bj : BullJob Dto.DocumentProcessingJob,
     ∃ evs,
       trace (snd (OnRedis.QueueConsumerService.processDocument R E bj w)) = trace w ++ evs ∧
       omap queue_progress evs = queue_reports R (bj_id bj)).
Proof.
  split.
  - intros bj. rewrite handleDocumentProcessing_on_run. unfold queue_reports.
    match goal with |- context [ProcessingService.processDocument E ?d ?w0] =>
      destruct (processDocument_quiet_to_queue E d w0) as (evs & Htr & Hev)
    end.
    destruct (progress_fails R (bj_id bj) 0);
      [|destruct (progress_fails R (bj_id bj) 100)];
      cbn [snd trace emit]; rewrite ?Htr; cbn [trace emit];
      (eexists; split; [rewrite <- !app_assoc; reflexivity|]);
      rewrite ?omap_app, ?Hev; reflexivity.
  - intros bj. destruct (consumer_on_run R E bj w) as (r & w1 & Hproc & ->).
    unfold queue_reports.
    match type of Hproc with DocumentProcessorService.processDocument E ?j ?w0 = _ =>
      destruct (processDocument_ends E j w0)
        as (r0 & w' & Hrun & r' & _ & _ & _ & _ & _ & _ & evs & Htr & _ & Hev)
    end.
    rewrite Hproc in Hrun. injection Hrun as <- <-. cbn [snd] in Htr.
    destruct (progress_fails R (bj_id bj) 0);
      [|destruct (progress_fails R (bj_id bj) 100)];
      cbn [snd trace emit]; rewrite ?Htr; cbn [trace emit];
      (eexists; split; [rewrite <- !app_assoc; reflexivity|]);
      rewrite ?omap_app, ?Hev; reflexivity.
Qed.

Example queue_reports_when_redis_is_down :
  let bj := added_job 1 (job_data "doc-1" "ing-1" None) in
  let out := OnRedis.DocumentProcessor.handleDocumentProcessing (down "Connection is closed.")
               quiet bj one_job in
  fst out = Throw "Connection is closed." ∧
  omap queue_progress (trace (snd out)) = [] ∧
  lookup_job (snd out) "ing-1" = lookup_job one_job "ing-1".
Proof. vm_compute. done. Qed.

(** ** The endpoints *)

Lemma getIngestionStatus_run (key : string) (w : World) :
  ProcessingService.getIngestionStatus key w = (Ok (lookup_job w key), w).
Proof.
  unfold ProcessingService.getIngestionStatus, bind. rewrite jobs_get_run.
  unfold lookup_job, ret. destruct (jobs w !! key) as [l|]; [|done].
  by destruct (heap w !! l).
Qed.

(** X11.  The cancel endpoint never reports a failure: on every call it answers
    [success: true] with the message 'Ingestion cancelled successfully',
    also when nothing was cancelled.  Its [data.cancelled] is [false] exactly
    when the id is unknown or the job already completed or failed, and then
    nothing has changed. *)
Theorem cancel_endpoint_always_reports_success (E : Env) (key : string) (w : World) :
  ∃ res w',
    ProcessingController.cancelIngestion E key w = (Ok res, w') ∧
    ProcessingController.success res = true ∧
    ProcessingController.message res = Some "Ingestion cancelled successfully" ∧
    (ProcessingService.cancelled (ProcessingController.data res) = false
     ↔ lookup_job w key = None
       ∨ ∃ j, lookup_job w key = Some j ∧ is_terminal (status j) = true) ∧
    (ProcessingService.cancelled (ProcessingController.data res) = false → w' = w).
Proof.
  unfold ProcessingController.cancelIngestion, bind.
  destruct (lookup_job w key) as [j|] eqn:Hlook;
    [destruct (is_terminal (status j)) eqn:Hterm|].
  - rewrite cancelIngestion_noop by (by rewrite Hlook).
    eexists _, _. split; [reflexivity|]. cbn. split_and!; try done.
    split; [|done]. intros _. right. by exists j.
  - destruct (cancelIngestion_lookup E key w j Hlook Hterm) as (w' & -> & _).
    eexists _, _. split; [reflexivity|]. cbn. split_and!; try done.
    split; [done|]. intros [?|(j' & [= <-] & ?)]; congruence.
  - rewrite cancelIngestion_noop by (by rewrite Hlook).
    eexists _, _. split; [reflexivity|]. cbn. split_and!; try done.
    split; [|done]. intros _. by left.
Qed.

(** X12.  The status endpoint reads the table and nothing else: it answers
    [success: true] with the record under the id, or with [null] when there is
    none, and changes nothing.  Right after the trigger endpoint it shows the
    record just admitted: [queued], progress 0. *)
Theorem status_endpoint_reads_the_table (E : Env) (w : World) :
  (∀ key,
     ProcessingController.getIngestionStatus key w
     = (Ok {| ProcessingController.success := true;
              ProcessingController.data := lookup_job w key;
              ProcessingController.message := None |}, w)) ∧
  (∀ dto,
     ∃ res w',
       ProcessingController.triggerIngestion E dto w = (Ok res, w') ∧
       res = {| ProcessingController.success := true;
                ProcessingController.data :=
                  {| ProcessingService.jobId := ProcessingController.dto_ingestionId dto;
                     ProcessingService.t_status := "queued" |};
                ProcessingController.message := Some "Document processing initiated" |} ∧
       fst (ProcessingController.getIngestionStatus
              (ProcessingController.dto_ingestionId dto) w')
       = Ok {| ProcessingController.success := true;
               ProcessingController.data :=
                 Some (fresh_job (ProcessingController.dto_documentId dto)
                         (ProcessingController.dto_ingestionId dto)
                         (ProcessingController.dto_config dto));
               ProcessingController.message := None |}).
Proof.
  assert (∀ key w0,
    ProcessingController.getIngestionStatus key w0
    = (Ok {| ProcessingController.success := true;
             ProcessingController.data := lookup_job w0 key;
             ProcessingController.message := None |}, w0)) as Hstatus.
  { intros key w0. unfold ProcessingController.getIngestionStatus, bind.
    by rewrite getIngestionStatus_run. }
  split; [intros; apply Hstatus|].
  intros dto. unfold ProcessingController.triggerIngestion, bind.
  pose proof (triggerIngestion_lookup E (ProcessingController.dto_documentId dto)
                (ProcessingController.dto_ingestionId dto)
                (ProcessingController.dto_config dto) w) as Hlook.
  destruct (triggerIngestion_run E (ProcessingController.dto_documentId dto)
              (ProcessingController.dto_ingestionId dto)
              (ProcessingController.dto_config dto) w) as (w' & Hrun & _).
  rewrite Hrun in Hlook |- *. cbn [snd] in Hlook.
  eexists _, _. split; [reflexivity|]. split; [reflexivity|].
  by rewrite Hstatus, Hlook.
Qed.

(** *** The webhooks *)

Lemma validateServiceToken_run E token w :
  WebhookController.validateServiceToken E token w
  = (if decide (token = Some (expected_token E) ∧ expected_token E ≠ "")
     then Ok tt else Throw "Invalid service token", w).
Proof.
  unfold WebhookController.validateServiceToken, bind, config_get, ret, expected_token, throw.
  destruct (env_config E "SERVICE_TOKEN") as [t|]; cbn [default].
  all: destruct token as [tok|]; cbn [Js.truthy_str negb orb].
  all: try (by rewrite decide_False by (intros [? ?]; done)).
  all: destruct (String.eqb_spec tok "") as [->|Hne]; cbn [negb orb].
  all: try (rewrite decide_False; [done|]; intros [[= <-] ?]; done).
  all: case_bool_decide as Heq; cbn [negb].
  all: try (rewrite decide_True; [done|]; injection Heq as <-; done).
  all: rewrite decide_False; [done|]; intros [? ?]; done.
Qed.

(** X13.  The webhooks check the token before anything else.  A request is let in
    exactly when its token is present, not empty and equal to the configured
    [SERVICE_TOKEN] (by default 'main-api-token'); it is then answered with
    [processed: true], the id found in the body and the time of the call.
    Any other request is refused with 'Invalid service token' and has no
    effect at all, not even a log line. *)
Theorem webhooks_check_the_token_first
    (E : Env) (payload : WebhookService.Payload) (token : option string) (w : World) :
  let accepted := token = Some (expected_token E) ∧ expected_token E ≠ "" in
  (accepted →
   fst (WebhookController.handleDocumentUploaded E payload token w)
   = Ok {| ProcessingController.success := true;
           ProcessingController.data :=
             {| WebhookService.u_processed := true;
                WebhookService.u_documentId := payload !! "documentId";
                WebhookService.u_timestamp := clock w |};
           ProcessingController.message := Some "Document upload webhook processed" |} ∧
   fst (WebhookController.handleIngestionCancelled E payload token w)
   = Ok {| ProcessingController.success := true;
           ProcessingController.data :=
             {| WebhookService.k_processed := true;
                WebhookService.k_ingestionId := payload !! "ingestionId";
                WebhookService.k_timestamp := clock w |};
           ProcessingController.message :=
             Some "Ingestion cancellation webhook processed" |}) ∧
  (¬ accepted →
   WebhookController.handleDocumentUploaded E payload token w
   = (Throw "Invalid service token", w) ∧
   WebhookController.handleIngestionCancelled E payload token w
   = (Throw "Invalid service token", w)).
Proof.
  cbv zeta. unfold WebhookController.handleDocumentUploaded,
    WebhookController.handleIngestionCancelled, bind.
  rewrite validateServiceToken_run. split; intros Hadm.
  - by rewrite decide_True by done.
  - by rewrite decide_False by done.
Qed.

Example empty_service_token_locks_the_webhooks :
  let E := {| http_fails := fun _ => None; stage_fails := fun _ => None;
              env_config := fun key => if String.eqb key "SERVICE_TOKEN" then Some "" else None |} in
  fst (WebhookController.handleDocumentUploaded E ∅ (Some "") empty_world)
  = Throw "Invalid service token".
Proof. reflexivity. Qed.

(** X14.  The ingestion-cancelled webhook cancels nothing: whatever its body and
    token, the job table, the queue and the number of requests are as
    before, so a job that was queued or processing still is, and
    [cancelIngestion] still finds it to cancel. *)
Theorem cancellation_webhook_cancels_nothing
    (E : Env) (payload : WebhookService.Payload) (token : option string) (w : World) :
  let w' := snd (WebhookController.handleIngestionCancelled E payload token w) in
  jobs w' = jobs w ∧ heap w' = heap w ∧ queue w' = queue w ∧ posts w' = posts w ∧
  (∀ key, lookup_job w' key = lookup_job w key) ∧
  (∀ key j,
     lookup_job w key = Some j → is_terminal (status j) = false →
     fst (ProcessingService.cancelIngestion E key w')
     = Ok {| ProcessingService.cancelled := true |}).
Proof.
  cbv zeta.
  assert (jobs (snd (WebhookController.handleIngestionCancelled E payload token w)) = jobs w
          ∧ heap (snd (WebhookController.handleIngestionCancelled E payload token w)) = heap w
          ∧ queue (snd (WebhookController.handleIngestionCancelled E payload token w))
            = queue w
          ∧ posts (snd (WebhookController.handleIngestionCancelled E payload token w))
            = posts w) as (Hj & Hh & Hq & Hp).
  { unfold WebhookController.handleIngestionCancelled, bind.
    rewrite validateServiceToken_run. by destruct (decide _). }
  split_and!; try done.
  - intros key. by apply lookup_job_ext.
  - intros key j Hlook Hlive.
    rewrite <- (lookup_job_ext w _ key Hj Hh) in Hlook.
    by destruct (cancelIngestion_lookup E key _ j Hlook Hlive) as (w1 & -> & _).
Qed.

(** X15.  The two default tokens disagree.  The token that [notifyMainAPI]
    attaches to its requests is the configured [SERVICE_TOKEN]; the webhooks
    of this service accept it when that setting is present and not empty,
    and refuse it when the setting is absent, because the two sides fall back
    on different defaults. *)
Theorem default_tokens_disagree
    (E : Env) (i st : string) (p : Z) (r : option IngestionResult) (e : option string)
    (w : World) :
  ∃ sent,
    omap token_of (trace (snd (ProcessingService.notifyMainAPI E i st p r e empty_world)))
    = [sent] ∧
    fst (WebhookController.validateServiceToken E (Some sent) w)
    = match env_config E "SERVICE_TOKEN" with
      | None => Throw "Invalid service token"
      | Some t => if decide (t = "") then Throw "Invalid service token" else Ok tt
      end.
Proof.
  rewrite notifyMainAPI_run. cbn [snd trace emit empty_world app].
  unfold notify_post, notify_log. cbn [omap list_omap token_of].
  eexists. split; [reflexivity|].
  rewrite validateServiceToken_run. cbn [fst]. unfold expected_token.
  destruct (env_config E "SERVICE_TOKEN") as [t|]; cbn [default].
  - destruct (decide (t = "")) as [->|Hne].
    + by rewrite decide_False by (intros [? ?]; done).
    + by rewrite decide_True.
  - by rewrite decide_False by (intros [[= ?] ?]; done).
Qed.

(** ** The callbacks of the queue listeners *)

Lemma or_num_zero (n : Z) : Js.or_num (Some n) 0 = n.
Proof. unfold Js.or_num. by destruct (Z.eqb_spec n 0) as [->|]. Qed.

Lemma callback_target_guard E :
  negb (Js.truthy_str (env_config E "MAIN_BACKEND_URL"))
  || negb (Js.truthy_str (env_config E "SERVICE_TOKEN"))
  = match callback_target E with Some _ => false | None => true end.
Proof.
  unfold callback_target.
  destruct (env_config E "MAIN_BACKEND_URL") as [u|]; [|done].
  destruct (env_config E "SERVICE_TOKEN") as [t|]; [|by rewrite orb_true_r].
  by destruct (Js.truthy_str (Some u)), (Js.truthy_str (Some t)).
Qed.

Lemma callback_target_Some E url token :
  callback_target E = Some (url, token) →
  default "" (env_config E "MAIN_BACKEND_URL") +:+ "/api/v1/processing/callback" = url
  ∧ default "" (env_config E "SERVICE_TOKEN") = token.
Proof.
  unfold callback_target.
  destruct (env_config E "MAIN_BACKEND_URL") as [u|]; [|done].
  destruct (env_config E "SERVICE_TOKEN") as [t|]; [|done].
  destruct (_ && _); [|done]. by intros [= <- <-].
Qed.


(** X16.  The completion callback never reports a failure.  [sendCompletionCallback]
    never throws and leaves the job table and the queue alone.  When the
    backend address and the token are both configured it makes one request,
    whose body says [success: true] and carries no errors whatever the result
    it was given says, with the other fields copied from that result; when
    one of the two settings is missing or empty it makes no request and logs
    a warning. *)
Theorem completion_callback_always_says_success
    (E : Env) (documentId : string) (r : Dto.ProcessingResult)
    (s : list QueueConsumerService.CallbackRequest * World) :
  ∃ s',
    QueueConsumerService.sendCompletionCallback E documentId r s = (Ok tt, s') ∧
    jobs (snd s') = jobs (snd s) ∧ heap (snd s') = heap (snd s) ∧
    queue (snd s') = queue (snd s) ∧
    match callback_target E with
    | Some (url, token) =>
        fst s' = fst s ++
          [ {| QueueConsumerService.q_url := url;
               QueueConsumerService.q_token := token;
               QueueConsumerService.q_timeout := 10000;
               QueueConsumerService.q_documentId := documentId;
               QueueConsumerService.q_result :=
                 {| QueueConsumerService.c_success := true;
                    QueueConsumerService.c_processingTime := Dto.processingTime r;
                    QueueConsumerService.c_extractedText := Dto.extractedText r;
                    QueueConsumerService.c_ocrText := Dto.ocrText r;
                    QueueConsumerService.c_keywords := Dto.keywords r;
                    QueueConsumerService.c_summary := Dto.summary r;
                    QueueConsumerService.c_language := Dto.language r;
                    QueueConsumerService.c_errors := None |};
               QueueConsumerService.q_failure := http_fails E (posts (snd s)) |} ] ∧
        posts (snd s') = S (posts (snd s))
    | None =>
        fst s' = fst s ∧ posts (snd s') = posts (snd s) ∧
        trace (snd s')
        = trace (snd s) ++ [EvLog WARN "Missing backend URL or service token for callback"]
    end.
Proof.
  unfold QueueConsumerService.sendCompletionCallback, try_catch, bind,
    QueueConsumerService.inW, config_lookup, ret. cbn [fst snd].
  rewrite callback_target_guard.
  destruct (callback_target E) as [[url token]|] eqn:Htarget.
  - apply callback_target_Some in Htarget as [-> ->].
    unfold QueueConsumerService.post. cbn [fst snd]. rewrite or_num_zero.
    destruct (http_fails E (posts (snd s))); eexists; (split; [reflexivity|]); done.
  - eexists. split; [reflexivity|]. done.
Qed.

(** X17.  The failure callback, for comparison: one request saying
    [success: false] with the error message, under the same conditions. *)
Theorem failure_callback_carries_the_error
    (E : Env) (documentId errorMessage : string)
    (s : list QueueConsumerService.CallbackRequest * World) :
  ∃ s',
    QueueConsumerService.sendFailureCallback E documentId errorMessage s = (Ok tt, s') ∧
    jobs (snd s') = jobs (snd s) ∧ heap (snd s') = heap (snd s) ∧
    queue (snd s') = queue (snd s) ∧
    match callback_target E with
    | Some (url, token) =>
        fst s' = fst s ++
          [ {| QueueConsumerService.q_url := url;
               QueueConsumerService.q_token := token;
               QueueConsumerService.q_timeout := 10000;
               QueueConsumerService.q_documentId := documentId;
               QueueConsumerService.q_result :=
                 {| QueueConsumerService.c_success := false;
                    QueueConsumerService.c_processingTime := 0;
                    QueueConsumerService.c_extractedText := None;
                    QueueConsumerService.c_ocrText := None;
                    QueueConsumerService.c_keywords := None;
                    QueueConsumerService.c_summary := None;
                    QueueConsumerService.c_language := None;
                    QueueConsumerService.c_errors := Some [errorMessage] |};
               QueueConsumerService.q_failure := http_fails E (posts (snd s)) |} ] ∧
        posts (snd s') = S (posts (snd s))
    | None =>
        fst s' = fst s ∧ posts (snd s') = posts (snd s) ∧
        trace (snd s')
        = trace (snd s) ++ [EvLog WARN "Missing backend URL or service token for callback"]
    end.
Proof.
  unfold QueueConsumerService.sendFailureCallback, try_catch, bind,
    QueueConsumerService.inW, config_lookup, ret. cbn [fst snd].
  rewrite callback_target_guard.
  destruct (callback_target E) as [[url token]|] eqn:Htarget.
  - apply callback_target_Some in Htarget as [-> ->].
    unfold QueueConsumerService.post. cbn [fst snd].
    destruct (http_fails E (posts (snd s))); eexists; (split; [reflexivity|]); done.
  - eexists. split; [reflexivity|]. done.
Qed.





(** ** More on keywords *)

Lemma filter_all {A} (P : A → Prop) `{!∀ x, Decision (P x)} (l : list A) :
  (∀ x, P x) → filter P l = l.
Proof.
  intros HP. induction l as [|x l IH]; [done|].
  rewrite filter_cons_True by done. by rewrite IH.
Qed.

Lemma foldl_set_add_first (xs seen : list string) :
  foldl Js.set_add seen xs = seen ++ filter (fun y => y ∉ seen) (first_occurrences xs).
Proof.
  revert seen. induction xs as [|x xs IH]; intros seen; cbn [foldl first_occurrences].
  - by rewrite filter_nil, app_nil_r.
  - rewrite IH. unfold Js.set_add. destruct (decide (x ∈ seen)) as [Hin|Hout].
    + rewrite filter_cons_False by (intros Hx; by apply Hx).
      rewrite list_filter_filter. f_equal. apply list_filter_iff.
      intros y. split; [|tauto]. intros Hy. split; [done|]. by intros ->.
    + rewrite filter_cons_True by done.
      rewrite list_filter_filter, <- app_assoc. cbn [app]. do 2 f_equal.
      apply list_filter_iff. intros y. rewrite not_elem_of_app, list_elem_of_singleton. tauto.
Qed.

(** The model of [new Set] keeps the first occurrences. *)
Lemma new_Set_first_occurrences (xs : list string) :
  Js.new_Set xs = first_occurrences xs.
Proof.
  unfold Js.new_Set. rewrite foldl_set_add_first. cbn [app].
  apply filter_all. intros y. apply not_elem_of_nil.
Qed.

Lemma first_occurrences_elem_of (l : list string) (t : string) :
  t ∈ first_occurrences l → t ∈ l.
Proof. rewrite <- new_Set_first_occurrences. apply new_Set_spec. Qed.

Lemma first_at_exists (l : list string) (t : string) :
  t ∈ l → ∃ p, first_at l t p.
Proof.
  induction l as [|x l IH]; [by intros ?%elem_of_nil|].
  intros Hin. destruct (decide (x = t)) as [->|Hne].
  - exists 0. split; [done|]. intros q Hq. lia.
  - apply elem_of_cons in Hin as [->|Hin]; [done|].
    destruct (IH Hin) as (p & Hp & Hbefore). exists (S p). split; [done|].
    intros [|q] Hq; cbn [lookup list_lookup]; [congruence|]. apply Hbefore. lia.
Qed.

Lemma first_at_cons (l : list string) (x t : string) (p : nat) :
  t ≠ x → first_at l t p → first_at (x :: l) t (S p).
Proof.
  intros Hne [Hp Hbefore]. split; [done|].
  intros [|q] Hq; cbn [lookup list_lookup]; [congruence|]. apply Hbefore. lia.
Qed.

(** A subsequence keeps the order of the positions. *)
Lemma sublist_positions {A} (k l : list A) (i j : nat) (a b : A) :
  k `sublist_of` l → k !! i = Some a → k !! j = Some b → i < j →
  ∃ i' j', l !! i' = Some a ∧ l !! j' = Some b ∧ i' < j'.
Proof.
  intros Hsub. revert i j. induction Hsub as [|x k l Hsub IH|x k l Hsub IH]; intros i j Ha Hb Hlt.
  - done.
  - destruct i as [|i], j as [|j]; try lia.
    + cbn [lookup list_lookup] in Ha, Hb. injection Ha as ->.
      assert (b ∈ l) as (j' & Hj')%list_elem_of_lookup.
      { eapply elem_of_sublist; [|exact Hsub]. by eapply list_elem_of_lookup_2. }
      exists 0, (S j'). split_and!; [done|done|lia].
    + cbn [lookup list_lookup] in Ha, Hb.
      destruct (IH i j Ha Hb) as (i' & j' & Hi' & Hj' & Hlt'); [lia|].
      exists (S i'), (S j'). split_and!; [done|done|lia].
  - destruct (IH i j Ha Hb Hlt) as (i' & j' & Hi' & Hj' & Hlt').
    exists (S i'), (S j'). split_and!; [done|done|lia].
Qed.

Lemma first_occurrences_in_order (l : list string) :
  in_order_of_first_occurrence (first_occurrences l) l.
Proof.
  induction l as [|x l IH]; intros i j a b Ha Hb Hlt; [done|].
  cbn [first_occurrences] in Ha, Hb.
  assert (∀ n t, filter (fun y => y ≠ x) (first_occurrences l) !! n = Some t →
                 t ≠ x ∧ t ∈ l) as Hrest.
  { intros n t Hn. apply list_elem_of_lookup_2, list_elem_of_filter in Hn as [Hne Hin].
    split; [done|]. by apply first_occurrences_elem_of. }
  destruct i as [|i], j as [|j]; try lia; cbn [lookup list_lookup] in Ha, Hb.
  - injection Ha as <-. destruct (Hrest j b Hb) as [Hne Hin].
    destruct (first_at_exists l b Hin) as (q & Hq).
    exists 0, (S q). split_and!; [|by apply first_at_cons|lia].
    split; [done|]. intros q' Hq'. lia.
  - destruct (Hrest i a Ha) as [Hnea _], (Hrest j b Hb) as [Hneb _].
    destruct (sublist_positions _ (first_occurrences l) i j a b
                (sublist_filter _ _) Ha Hb) as (i' & j' & Hi' & Hj' & Hlt'); [lia|].
    destruct (IH i' j' a b Hi' Hj' Hlt') as (p & q & Hp & Hq & Hpq).
    exists (S p), (S q). split_and!; [by apply first_at_cons..|lia].
Qed.

Lemma in_order_sublist (ks ks' l : list string) :
  ks `sublist_of` ks' →
  in_order_of_first_occurrence ks' l → in_order_of_first_occurrence ks l.
Proof.
  intros Hsub Hord i j a b Ha Hb Hlt.
  destruct (sublist_positions ks ks' i j a b Hsub Ha Hb Hlt) as (i' & j' & Hi' & Hj' & Hlt').
  by eapply Hord.
Qed.

(** X19.  Keywords come in the order in which they first occur in the text, and
    none is left out below the limit.  For a non-empty text with a token
    longer than 3, the keywords are the first ten of the distinct tokens
    longer than 3 of the lowercased text, each at the place of its first
    occurrence: of two keywords the one listed first also occurs first in
    the text.  When fewer than 10 are returned, every token longer than 3
    is among them. *)
Theorem keywords_keep_the_order_of_the_text
    (job : Dto.DocumentProcessingJob) (txt : string) (w : World) :
  txt ≠ "" →
  Exists long_token (tokens txt) →
  ∃ ks,
    fst (DocumentProcessorService.extractKeywords job (Some txt) w) = Ok ks ∧
    ks = take 10 (filter long_token (first_occurrences (tokens txt))) ∧
    in_order_of_first_occurrence ks (tokens txt) ∧
    (length ks < 10 → ∀ t, t ∈ tokens txt → long_token t → t ∈ ks).
Proof.
  intros Hne Hex.
  unfold DocumentProcessorService.extractKeywords, bind, sleep, modify, ret, Js.slice0.
  cbv beta iota. unfold Js.truthy_str. fold (tokens txt). fold long_token.
  destruct (String.eqb_spec txt "") as [->|_]; [done|]. cbn [negb].
  pose proof (keywords_nonempty txt Hex) as Hpos.
  assert ((0 <? length (take 10 (filter long_token (Js.new_Set (tokens txt)))))%nat = true)
    as -> by by apply Nat.ltb_lt.
  eexists. split; [reflexivity|]. split_and!.
  - by rewrite new_Set_first_occurrences.
  - eapply in_order_sublist; [|apply first_occurrences_in_order].
    rewrite new_Set_first_occurrences.
    etrans; [apply sublist_take|]. apply sublist_filter.
  - intros Hlen t Hin Hlong. rewrite length_take in Hlen.
    rewrite take_ge by lia. apply list_elem_of_filter. split; [done|].
    by apply new_Set_spec.
Qed.

Lemma keywords_keep_the_order_of_the_text_witness :
  "beta alpha beta gamma alpha" ≠ "" ∧
  Exists long_token (tokens "beta alpha beta gamma alpha") ∧
  fst (DocumentProcessorService.extractKeywords (sample_job "txt")
         (Some "beta alpha beta gamma alpha") empty_world)
  = Ok ["beta"; "alpha"; "gamma"].
Proof.
  assert (Exists long_token (tokens "beta alpha beta gamma alpha")) as Hex.
  { apply Exists_exists. exists "beta". split; [vm_compute; by left|vm_compute; lia]. }
  split; [done|]. split; [exact Hex|].
  destruct (keywords_keep_the_order_of_the_text (sample_job "txt")
              "beta alpha beta gamma alpha" empty_world ltac:(done) Hex)
    as (ks & Hrun & Hks & _).
  rewrite Hrun, Hks. reflexivity.
Defined.

(** ** Operations in sequence *)


(** ** The health endpoints *)

(** X21.  The health endpoints answer [success: true] whatever they found.
    [getHealth] never throws: its [status] is "healthy" with the queue's
    counts when the queue answered, and "unhealthy" with the queue's error
    when it did not.  [getQueueHealth] is "healthy" when all three queries
    were answered, and otherwise "unhealthy" with the error of the first one
    that failed, in the order statistics, active jobs, waiting jobs.  The job
    table and the queue are not touched. *)
Theorem health_endpoints_always_report_success
    (proc : HealthService.ProcessInfo) (bull : HealthService.QueueAnswers) (w : World) :
  (∃ res w',
     HealthController.getHealth proc bull w = (Ok res, w') ∧
     ProcessingController.success res = true ∧
     jobs w' = jobs w ∧ heap w' = heap w ∧ queue w' = queue w ∧
     match HealthService.a_stats bull with
     | Ok ls =>
         HealthService.h_status (ProcessingController.data res) = "healthy" ∧
         HealthService.h_error (ProcessingController.data res) = None ∧
         HealthService.h_queue (ProcessingController.data res)
         = Some {| QueueConsumerService.waiting := length (QueueService.l_waiting ls);
                   QueueConsumerService.active := length (QueueService.l_active ls);
                   QueueConsumerService.n_completed := length (QueueService.l_completed ls);
                   QueueConsumerService.n_failed := length (QueueService.l_failed ls);
                   QueueConsumerService.delayed := length (QueueService.l_delayed ls) |}
     | Throw e =>
         HealthService.h_status (ProcessingController.data res) = "unhealthy" ∧
         HealthService.h_error (ProcessingController.data res) = Some e ∧
         HealthService.h_queue (ProcessingController.data res) = None
     end) ∧
  (∃ res w',
     HealthController.getQueueHealth bull w = (Ok res, w') ∧
     ProcessingController.success res = true ∧
     jobs w' = jobs w ∧ heap w' = heap w ∧ queue w' = queue w ∧
     match HealthService.a_stats bull, HealthService.a_active bull,
           HealthService.a_waiting bull with
     | Ok _, Ok act, Ok wait =>
         HealthService.qh_status (ProcessingController.data res) = "healthy" ∧
         HealthService.qh_error (ProcessingController.data res) = None ∧
         HealthService.qh_activeJobs (ProcessingController.data res) = Some (length act) ∧
         HealthService.qh_waitingJobs (ProcessingController.data res) = Some (length wait)
     | Throw e, _, _ | Ok _, Throw e, _ | Ok _, Ok _, Throw e =>
         HealthService.qh_status (ProcessingController.data res) = "unhealthy" ∧
         HealthService.qh_error (ProcessingController.data res) = Some e
     end).
Proof.
  destruct bull as [[ls|e1] [act|e2] [wait|e3]]; split.
  all: eexists _, _; (split; [reflexivity|]); cbn; done.
Qed.
